(** * Deletion-capture engine of the WhatsApp agent: model and properties

    The development embeds the retention and deletion-capture core of the
    agent (the variant with the startup grace period, the revoke
    deduplication set and the message cache): [cacheMessage],
    [saveMediaToTemp], [saveDeletedRecord], and the handlers of the
    [ready], [message], [message_create] and [message_revoke_everyone]
    events, together with the callbacks they hand to [setTimeout].  It
    also embeds the helpers [escapeHTML] and [getExtension], the sweep
    of [media/temp] that [startClient] runs first, and the dispatch of
    the commands that [pollTelegramCommands] reads.

    Conventions of the embedding.
    - The process state (the module-level [let]/[const] bindings, the
      pending timers and the files under [media/temp] and [media/saved])
      is the record [world]; handlers are computations in a state and
      exception monad [M] over it.
    - A JavaScript value that may be [undefined] or [null] is an [option];
      strings are Rocq strings (sequences of 8-bit characters).
    - Time is the value of [Date.now()], an integer number of
      milliseconds.  A handler runs at one instant: the suspension points
      ([await]) inside a handler are not interleaving points of the model.
    - An external call that may throw consults a fault oracle, indexed by
      call site; a promise that may reject is an [option] carried by the
      event.  [getIST] (locale formatting of a time) is a section
      variable. *)

From Stdlib Require Import Ascii String ZArith Lia.
From stdpp Require Import base option list gmap strings pretty.

Open Scope string_scope.
Open Scope Z_scope.

(** ** JavaScript values *)

(** [nl] is the newline written [\n] in the source's template strings. *)
Definition nl : string := String (Ascii.ascii_of_nat 10) EmptyString.

(** Truthiness of a possibly-undefined string: [undefined], [null] and
    the empty string are falsy. *)
Definition truthy (v : option string) : bool :=
  match v with
  | Some s => negb (String.eqb s EmptyString)
  | None => false
  end.

(** [a || b] on possibly-undefined strings. *)
Definition js_or (a b : option string) : option string :=
  if truthy a then a else b.

(** Interpolation [${v}] of a possibly-undefined string. *)
Definition show (v : option string) : string :=
  match v with
  | Some s => s
  | None => "undefined"
  end.

(** [a === b] for a possibly-undefined string and a string literal. *)
Definition strict_eq (v : option string) (lit : string) : bool :=
  match v with
  | Some s => String.eqb s lit
  | None => false
  end.

(** [body || "[<empty>]"]. *)
Definition EMPTY_MARKER : string := "[<empty>]".

Definition body_or_marker (body : string) : string :=
  if String.eqb body EmptyString then EMPTY_MARKER else body.

(** [s.replace(/[^a-zA-Z0-9]/g, "_").substring(0, 20)]. *)
Definition is_alnum (c : Ascii.ascii) : bool :=
  let n := Ascii.nat_of_ascii c in
  ((48 <=? n) && (n <=? 57) || (65 <=? n) && (n <=? 90)
   || (97 <=? n) && (n <=? 122))%nat.

Fixpoint sanitize (s : string) : string :=
  match s with
  | EmptyString => EmptyString
  | String c r => String (if is_alnum c then c else "_"%char) (sanitize r)
  end.

Definition safe_name (s : string) : string :=
  String.substring 0 20 (sanitize s).

(** [path.basename(p)]: the part after the last [/]. *)
Fixpoint basename_from (acc : string) (s : string) : string :=
  match s with
  | EmptyString => acc
  | String c r =>
      if Ascii.eqb c "/"%char then basename_from r r else basename_from acc r
  end.

Definition basename (p : string) : string := basename_from p p.

(** ** Constants *)

Definition TEMP_MEDIA_DIR : string := "media/temp".
Definition SAVED_MEDIA_DIR : string := "media/saved".
Definition DELETE_WINDOW_MS : Z := 68 * 60 * 60 * 1000.
Definition MAX_CACHE_SIZE : nat := 500.
Definition MESSAGE_CACHE_TTL_MS : Z := DELETE_WINDOW_MS.
Definition STARTUP_GRACE_MS : Z := 30 * 1000.
Definition REVOKE_DEDUP_TTL_MS : Z := 60 * 1000.
Definition MAX_MEDIA_SIZE_MB : Z := 10.

(** [path.join(dir, name)] for a directory constant and a file name. *)
Definition path_join (dir name : string) : string := dir +:+ "/" +:+ name.

(** ** Data *)

(** The object stored by [cacheMessage]: the fields passed by the caller
    plus [cachedAt].  [msgFilePath] is [null] or absent (None) when no
    transcript file was written. *)
Record snapshot := {
  s_body : string;
  s_senderName : option string;
  s_senderNumber : option string;
  s_chatLocation : string;
  s_timestamp : Z;
  s_msgFilePath : option string;
  s_cachedAt : Z
}.

(** The media fields of a [mediaTracker] entry, written together by
    [saveMediaToTemp]. *)
Record media_slot := {
  filePath : string;
  filename : string;
  timeout : nat;
  mimetype : option string;
  sentTimestamp : Z
}.

(** The transcript fields of a [mediaTracker] entry, written together by
    the [message] handler. *)
Record msgfile_slot := {
  msgFilePath : string;
  msgFilename : string;
  msgFileTimeout : nat
}.

(** A [mediaTracker] entry: each group of fields is present or absent as
    a whole. *)
Record tracked := {
  t_media : option media_slot;
  t_msgfile : option msgfile_slot
}.

(** The callbacks handed to [setTimeout]. *)
Inductive timer_action :=
| ExpireCache (msgId : string)
| ExpireMedia (path name msgId : string)
| ExpireMsgFile (path : string)
| ExpireRevoke (msgId : string).

Record timer := {
  tm_handle : nat;
  tm_due : Z;
  tm_action : timer_action
}.

(** The object handed to [saveDeletedRecord]. *)
Record deleted_record := {
  r_time : string;
  r_where : string;
  r_senderName : option string;
  r_senderNumber : option string;
  r_originalMessage : string;
  r_sentTime : string;
  r_mediaFilename : option string
}.

(** Observable effects, in the order in which they are attempted.  The
    boolean of a notification or a persisted record tells whether the
    attempt succeeded; the file operations listed are the ones that
    happened. *)
Inductive effect :=
| ENotify (title body : string) (delivered : bool)
| ESendFile (data : string) (mime : option string) (name caption : string)
    (delivered : bool)
| ELog (entry : string)
| EPersist (file : string) (data : deleted_record) (written : bool)
| EFsWrite (path : string)
| EFsCopy (src dst : string)
| EFsRename (src dst : string)
| EFsUnlink (path : string).

(** The process state. *)
Record world := {
  now : Z;
  readyTimestamp : Z;
  messageCache : list (string * snapshot);
  mediaTracker : gmap string tracked;
  processedRevokes : gset string;
  timers : list timer;
  nextTimer : nat;
  files : gmap string string;
  out : list effect
}.

Definition set_now (v : Z) (w : world) : world :=
  {| now := v; readyTimestamp := readyTimestamp w;
     messageCache := messageCache w; mediaTracker := mediaTracker w;
     processedRevokes := processedRevokes w; timers := timers w;
     nextTimer := nextTimer w; files := files w; out := out w |}.

Definition set_readyTimestamp (v : Z) (w : world) : world :=
  {| now := now w; readyTimestamp := v;
     messageCache := messageCache w; mediaTracker := mediaTracker w;
     processedRevokes := processedRevokes w; timers := timers w;
     nextTimer := nextTimer w; files := files w; out := out w |}.

Definition set_messageCache (v : list (string * snapshot)) (w : world)
  : world :=
  {| now := now w; readyTimestamp := readyTimestamp w;
     messageCache := v; mediaTracker := mediaTracker w;
     processedRevokes := processedRevokes w; timers := timers w;
     nextTimer := nextTimer w; files := files w; out := out w |}.

Definition set_mediaTracker (v : gmap string tracked) (w : world) : world :=
  {| now := now w; readyTimestamp := readyTimestamp w;
     messageCache := messageCache w; mediaTracker := v;
     processedRevokes := processedRevokes w; timers := timers w;
     nextTimer := nextTimer w; files := files w; out := out w |}.

Definition set_processedRevokes (v : gset string) (w : world) : world :=
  {| now := now w; readyTimestamp := readyTimestamp w;
     messageCache := messageCache w; mediaTracker := mediaTracker w;
     processedRevokes := v; timers := timers w;
     nextTimer := nextTimer w; files := files w; out := out w |}.

Definition set_timers (v : list timer) (w : world) : world :=
  {| now := now w; readyTimestamp := readyTimestamp w;
     messageCache := messageCache w; mediaTracker := mediaTracker w;
     processedRevokes := processedRevokes w; timers := v;
     nextTimer := nextTimer w; files := files w; out := out w |}.

Definition set_nextTimer (v : nat) (w : world) : world :=
  {| now := now w; readyTimestamp := readyTimestamp w;
     messageCache := messageCache w; mediaTracker := mediaTracker w;
     processedRevokes := processedRevokes w; timers := timers w;
     nextTimer := v; files := files w; out := out w |}.

Definition set_files (v : gmap string string) (w : world) : world :=
  {| now := now w; readyTimestamp := readyTimestamp w;
     messageCache := messageCache w; mediaTracker := mediaTracker w;
     processedRevokes := processedRevokes w; timers := timers w;
     nextTimer := nextTimer w; files := v; out := out w |}.

Definition set_out (v : list effect) (w : world) : world :=
  {| now := now w; readyTimestamp := readyTimestamp w;
     messageCache := messageCache w; mediaTracker := mediaTracker w;
     processedRevokes := processedRevokes w; timers := timers w;
     nextTimer := nextTimer w; files := files w; out := v |}.

(** The state when the script starts, at time [t0]. *)
Definition initial (t0 : Z) : world :=
  {| now := t0; readyTimestamp := 0; messageCache := [];
     mediaTracker := ∅; processedRevokes := ∅; timers := [];
     nextTimer := 0; files := ∅; out := [] |}.

(** ** The handler monad: state and exceptions *)

Inductive result (A : Type) : Type :=
| Returned (a : A)
| Threw (err : string).
Arguments Returned {A} a.
Arguments Threw {A} err.

(** A computation reads and writes the world and either returns a value
    or throws; the world reached at the throw is kept. *)
Definition M (A : Type) : Type := world → result A * world.

Definition ret {A} (a : A) : M A := λ w, (Returned a, w).

Definition throw {A} (err : string) : M A := λ w, (Threw err, w).

Definition bind {A B} (m : M A) (k : A → M B) : M B :=
  λ w, match m w with
       | (Returned a, w') => k a w'
       | (Threw e, w') => (Threw e, w')
       end.

(** [try { m } catch (err) { h err }]. *)
Definition try_catch {A} (m : M A) (h : string → M A) : M A :=
  λ w, match m w with
       | (Returned a, w') => (Returned a, w')
       | (Threw e, w') => h e w'
       end.

Definition get : M world := λ w, (Returned w, w).

Definition modify (f : world → world) : M unit := λ w, (Returned tt, f w).

(** The world after running [m]. *)
Definition exec {A} (m : M A) (w : world) : world := (m w).2.

(** Whether [m] lets an exception escape. *)
Definition throws {A} (m : M A) (w : world) : bool :=
  match (m w).1 with
  | Returned _ => false
  | Threw _ => true
  end.

Declare Scope M_scope.
Delimit Scope M_scope with M.
Notation "x ← y ; z" := (bind y (λ x, z))
  (at level 20, y at level 100, z at level 200, only parsing) : M_scope.
Notation "x ;; z" := (bind x (λ _, z))
  (at level 100, z at level 200, only parsing, right associativity) : M_scope.
Open Scope M_scope.

(** [await p] for a promise whose outcome the event carries: [None] is a
    rejection. *)
Definition await {A} (what : string) (p : option A) : M A :=
  match p with
  | Some a => ret a
  | None => throw what
  end.

Definition emit (e : effect) : M unit :=
  modify (λ w, set_out (out w ++ [e]) w).

(** *** Timers *)

(** Pending timers are kept in the order in which they fire: by due time,
    and by creation among equal due times. *)
Fixpoint insert_timer (tm : timer) (l : list timer) : list timer :=
  match l with
  | [] => [tm]
  | x :: r =>
      if tm_due x <=? tm_due tm then x :: insert_timer tm r else tm :: l
  end.

(** [setTimeout(callback, delay)]; the handle returned is fresh. *)
Definition setTimeout (a : timer_action) (delay : Z) : M nat :=
  λ w, let h := nextTimer w in
       (Returned h,
        set_nextTimer (S h)
          (set_timers
             (insert_timer
                {| tm_handle := h; tm_due := now w + delay; tm_action := a |}
                (timers w)) w)).

(** [clearTimeout(handle)]. *)
Definition clearTimeout (h : nat) : M unit :=
  modify (λ w,
    set_timers (filter (λ tm, tm_handle tm ≠ h) (timers w)) w).

(** *** Files *)

(** The call sites that may throw or fail, one fault flag each. *)
Inductive site :=
| S_write_media      (* fs.writeFileSync in saveMediaToTemp *)
| S_copy_viewonce    (* fs.copyFileSync in the view-once block *)
| S_read_media       (* fs.readFileSync in readMediaAsBase64 *)
| S_append_log       (* fs.appendFileSync("messages_log.txt") *)
| S_write_msgfile    (* fs.writeFileSync of the transcript *)
| S_rename_media     (* fs.renameSync of the tracked media file *)
| S_rename_msgfile   (* fs.renameSync of the tracked transcript *)
| S_rename_cached    (* fs.renameSync in the text-only fallback *)
| S_write_record     (* fs.writeFileSync in saveDeletedRecord *)
| S_notify           (* the fetch calls of sendPushNotification *)
| S_send_media       (* the fetch call of sendTelegramMedia *)
| S_notify_fallback. (* sendPushNotification in the catch block *)

Definition faults := site → bool.

Definition no_faults : faults := λ _, false.

(** [fs.existsSync(p)]. *)
Definition existsSync (p : string) : M bool :=
  w ← get; ret (bool_decide (is_Some (files w !! p))).

(** [fs.writeFileSync(p, content)]. *)
Definition writeFileSync (flt : faults) (s : site) (p content : string)
  : M unit :=
  if flt s then throw "writeFileSync"
  else modify (λ w, set_files (<[p := content]> (files w)) w);;
       emit (EFsWrite p).

(** [fs.copyFileSync(src, dst)]; throws when [src] is missing. *)
Definition copyFileSync (flt : faults) (s : site) (src dst : string)
  : M unit :=
  w ← get;
  match files w !! src with
  | Some content =>
      if flt s then throw "copyFileSync"
      else modify (λ w, set_files (<[dst := content]> (files w)) w);;
           emit (EFsCopy src dst)
  | None => throw "copyFileSync"
  end.

(** [fs.renameSync(src, dst)]; throws when [src] is missing. *)
Definition renameSync (flt : faults) (s : site) (src dst : string)
  : M unit :=
  w ← get;
  match files w !! src with
  | Some content =>
      if flt s then throw "renameSync"
      else modify (λ w,
             set_files (<[dst := content]> (delete src (files w))) w);;
           emit (EFsRename src dst)
  | None => throw "renameSync"
  end.

(** [readMediaAsBase64(filePath)]: the content, or [null] when the file
    is missing or the read throws. *)
Definition readMediaAsBase64 (flt : faults) (p : string)
  : M (option string) :=
  w ← get;
  match files w !! p with
  | Some content => if flt S_read_media then ret None else ret (Some content)
  | None => ret None
  end.

(** *** Notification sinks *)

(** [sendPushNotification(title, body)] catches its own errors: it never
    throws, and the notification is delivered or not. *)
Definition sendPushNotification (flt : faults) (s : site)
    (title body : string) : M unit :=
  emit (ENotify title body (negb (flt s))).

(** [sendTelegramMedia(data, mimetype, filename, caption)], likewise. *)
Definition sendTelegramMedia (flt : faults) (data : string)
    (mime : option string) (name caption : string) : M unit :=
  emit (ESendFile data mime name caption (negb (flt S_send_media))).

(** ** The message cache: an insertion-ordered [Map] *)

(** [messageCache.get(id)]. *)
Fixpoint cache_get (id : string) (c : list (string * snapshot))
  : option snapshot :=
  match c with
  | [] => None
  | (k, v) :: r => if decide (k = id) then Some v else cache_get id r
  end.

(** [messageCache.delete(id)]. *)
Definition cache_delete (id : string) (c : list (string * snapshot))
  : list (string * snapshot) :=
  filter (λ kv, kv.1 ≠ id) c.

(** [messageCache.set(id, v)]: an existing key keeps its position, a new
    key goes last. *)
Fixpoint cache_set (id : string) (v : snapshot) (c : list (string * snapshot))
  : list (string * snapshot) :=
  match c with
  | [] => [(id, v)]
  | (k, x) :: r =>
      if decide (k = id) then (k, v) :: r else (k, x) :: cache_set id v r
  end.

(** [messageCache.delete(messageCache.keys().next().value)]. *)
Definition evict_oldest (c : list (string * snapshot))
  : list (string * snapshot) :=
  match c with
  | [] => []
  | (oldestKey, _) :: _ => cache_delete oldestKey c
  end.

(** [{ ...data, cachedAt: t }]. *)
Definition with_cachedAt (t : Z) (data : snapshot) : snapshot :=
  {| s_body := s_body data; s_senderName := s_senderName data;
     s_senderNumber := s_senderNumber data;
     s_chatLocation := s_chatLocation data;
     s_timestamp := s_timestamp data; s_msgFilePath := s_msgFilePath data;
     s_cachedAt := t |}.

(** The [if (messageCache.size >= MAX_CACHE_SIZE)] block. *)
Definition make_room (c : list (string * snapshot))
  : list (string * snapshot) :=
  if (MAX_CACHE_SIZE <=? length c)%nat then evict_oldest c else c.

(** The cache after the [Map] operations of [cacheMessage]. *)
Definition cache_put (t : Z) (msgId : string) (data : snapshot)
    (c : list (string * snapshot)) : list (string * snapshot) :=
  cache_set msgId (with_cachedAt t data) (make_room c).

(** [cacheMessage(msgId, data)]. *)
Definition cacheMessage (msgId : string) (data : snapshot) : M unit :=
  modify (λ w,
    set_messageCache (cache_put (now w) msgId data (messageCache w)) w);;
  _ ← setTimeout (ExpireCache msgId) MESSAGE_CACHE_TTL_MS;
  ret tt.

(** A sequence of [cacheMessage] calls, each at its own time on the
    clock; no timer fires in between. *)
Definition put_at (w : world) (p : Z * string * snapshot) : world :=
  exec (cacheMessage p.1.2 p.2) (set_now p.1.1 w).

Definition put_all (ps : list (Z * string * snapshot)) (w : world) : world :=
  fold_left put_at ps w.

(** The ids that a sequence of [cacheMessage] calls inserts as new keys
    of the [Map], in order: a call whose id is a key at the time of
    [messageCache.set] overwrites the value and inserts nothing. *)
Fixpoint insertion_log (ps : list (Z * string * snapshot)) (w : world)
  : list string :=
  match ps with
  | [] => []
  | p :: rest =>
      match cache_get p.1.2 (make_room (messageCache w)) with
      | Some _ => []
      | None => [p.1.2]
      end ++ insertion_log rest (put_at w p)
  end.

(** ** Events *)

Record chat := {
  isGroup : bool;
  chat_name : option string
}.

Record contact := {
  c_name : option string;
  c_pushname : option string;
  c_number : option string
}.

(** The result of [msg.downloadMedia()]: [m_ext] is
    [getExtension(media.mimetype)] and [m_sizeBytes] is
    [Buffer.byteLength(media.data, "base64")]. *)
Record media := {
  m_data : string;
  m_mimetype : option string;
  m_ext : string;
  m_sizeBytes : Z
}.

Inductive download :=
| DownloadRejects
| DownloadNothing
| Downloaded (m : media).

(** A message object of the protocol client, as the handlers use it. *)
Record message := {
  msg_id : string;             (* msg.id._serialized *)
  msg_localId : string;        (* msg.id.id *)
  msg_body : string;
  msg_timestamp : Z;           (* seconds *)
  msg_fromMe : bool;
  msg_hasMedia : bool;
  msg_isViewOnce : bool;       (* msg._data && msg._data.isViewOnce *)
  msg_getChat : option chat;
  msg_getContact : option contact;
  msg_downloadMedia : download
}.

(** [contact.name || contact.pushname || contact.number]. *)
Definition sender_name (c : contact) : option string :=
  js_or (js_or (c_name c) (c_pushname c)) (c_number c).

(** [chat.isGroup ? `Group: ${chat.name}` : "Private Chat"]. *)
Definition chat_location (c : chat) : string :=
  if isGroup c then "Group: " +:+ show (chat_name c) else "Private Chat".

(** ** Message texts

    The template strings of the handlers, each as a function of the
    values interpolated into it. *)

(** [`\nMedia: media/temp/${filename}`], or the empty string. *)
Definition temp_media_ref (saved : option string) : string :=
  if truthy saved then nl +:+ "Media: media/temp/" +:+ show saved else EmptyString.

(** [logEntry] of the [message] handler. *)
Definition message_log_entry (time chatLocation : string)
    (senderName senderActualNumber : option string)
    (messageBody mediaRef : string) : string :=
  "Time: " +:+ time +:+ nl +:+ "Where: " +:+ chatLocation +:+ nl
  +:+ "Who: " +:+ show senderName +:+ " (" +:+ show senderActualNumber
  +:+ ")" +:+ nl +:+ "Message: " +:+ messageBody +:+ mediaRef +:+ nl
  +:+ "------------------------------" +:+ nl.

(** [fileContent] of the transcript; [sent] is the rendering of
    [msg.timestamp].  The source rebuilds the last line from [mediaRef],
    trimmed and stripped of its "Media: " prefix: that is the path under
    [media/temp] again, for a file name that does not end in white
    space. *)
Definition message_file_content (time chatLocation name : string)
    (senderActualNumber : option string) (sent messageBody : string)
    (saved : option string) : string :=
  "Time: " +:+ time +:+ nl +:+ "Where: " +:+ chatLocation +:+ nl
  +:+ "Who: " +:+ name +:+ " (" +:+ show senderActualNumber +:+ ")"
  +:+ nl +:+ "Sent: " +:+ sent +:+ nl +:+ "Message: " +:+ messageBody
  +:+ (if truthy saved then nl +:+ "Media: media/temp/" +:+ show saved
       else EmptyString).

(** Title and body of the view-once notification, and the caption of the
    file sent after it. *)
Definition viewonce_title (senderName : option string) : string :=
  "👁️ View-Once from " +:+ show senderName.

Definition viewonce_body (chatLocation : string)
    (senderName senderActualNumber : option string)
    (time messageBody : string) : string :=
  "Where: " +:+ chatLocation +:+ nl +:+ "Who: " +:+ show senderName
  +:+ " (" +:+ show senderActualNumber +:+ ")" +:+ nl +:+ "Time: "
  +:+ time +:+ nl +:+ "Message: "
  +:+ (if String.eqb messageBody EmptyString then "[media]" else messageBody).

Definition viewonce_caption (senderName senderActualNumber : option string)
    (chatLocation : string) : string :=
  "👁️ View-once from " +:+ show senderName +:+ " ("
  +:+ show senderActualNumber +:+ ")" +:+ nl +:+ "In: " +:+ chatLocation.

(** [`\nSaved Media: media/saved/${tracked.filename}`]. *)
Definition saved_media_ref (name : string) : string :=
  nl +:+ "Saved Media: media/saved/" +:+ name.

(** [logEntry] of the revoke handler. *)
Definition deleted_log_entry (time chatLocation : string)
    (senderName senderNumber : option string)
    (originalText mediaRef : string) : string :=
  nl +:+ "🗑️ DELETED MESSAGE" +:+ nl +:+ "Time: " +:+ time +:+ nl
  +:+ "Where: " +:+ chatLocation +:+ nl +:+ "Who: " +:+ show senderName
  +:+ " (" +:+ show senderNumber +:+ ")" +:+ nl +:+ "Original: "
  +:+ originalText +:+ mediaRef +:+ nl
  +:+ "==============================" +:+ nl.

(** Title and body of the deletion notification, and the caption of the
    file sent after it. *)
Definition deleted_title (senderName : option string) : string :=
  "🗑️ Deleted by " +:+ show senderName.

Definition deleted_body (chatLocation : string)
    (senderName senderNumber : option string)
    (sentTime time originalText : string) : string :=
  "Where: " +:+ chatLocation +:+ nl +:+ "Who: " +:+ show senderName
  +:+ " (" +:+ show senderNumber +:+ ")" +:+ nl +:+ "Sent: " +:+ sentTime
  +:+ nl +:+ "Deleted: " +:+ time +:+ nl +:+ "Message: " +:+ originalText.

Definition deleted_caption (senderName senderNumber : option string)
    (chatLocation : string) : string :=
  "📎 Deleted file from " +:+ show senderName +:+ " ("
  +:+ show senderNumber +:+ ")" +:+ nl +:+ "In: " +:+ chatLocation.

(** Title and body of the notification sent from the [catch] block. *)
Definition FALLBACK_TITLE : string := "🗑️ Message Deleted".

Definition fallback_body (err : string) : string :=
  "A message was deleted but details could not be retrieved." +:+ nl
  +:+ "Error: " +:+ err.

(** Title and body of the notification of the [ready] handler. *)
Definition READY_TITLE : string := "✅ WhatsApp Connected".

Definition ready_body (time : string) : string :=
  "Bot is now connected and ready." +:+ nl +:+ "Time: " +:+ time +:+ nl
  +:+ nl +:+ "Commands:" +:+ nl +:+ "/status — Check bot status" +:+ nl
  +:+ "/rebuild — Re-authenticate".

(** File names: [`${timestamp}_${msg.id.id}${ext}`],
    [`${timestamp}_${safeName}_${msg.id.id}.txt`] and
    [`deleted_${timestamp}_${safeName}.json`]. *)
Definition media_file_name (timestamp : Z) (localId ext : string) : string :=
  pretty timestamp +:+ "_" +:+ localId +:+ ext.

Definition message_file_name (timestamp : Z) (name localId : string)
  : string :=
  pretty timestamp +:+ "_" +:+ safe_name name +:+ "_" +:+ localId +:+ ".txt".

Definition record_file_name (timestamp : Z) (senderName : option string)
  : string :=
  "deleted_" +:+ pretty timestamp +:+ "_"
  +:+ safe_name (show (js_or senderName (Some "unknown"))) +:+ ".json".

(** ** The artifact tracker *)

(** The timer callback of [saveMediaToTemp]. *)
Definition expire_media (unlink_fails : bool) (path name msgId : string)
    (w : world) : world :=
  let w1 :=
    match files w !! path with
    | Some _ =>
        if unlink_fails then w
        else set_out (out w ++ [EFsUnlink path])
               (set_files (delete path (files w)) w)
    | None => w
    end in
  set_mediaTracker (delete msgId (mediaTracker w1)) w1.

(** The timer callback of the transcript file. *)
Definition expire_msgfile (unlink_fails : bool) (path : string) (w : world)
  : world :=
  match files w !! path with
  | Some _ =>
      if unlink_fails then w
      else set_out (out w ++ [EFsUnlink path])
             (set_files (delete path (files w)) w)
  | None => w
  end.

(** Running the callback of a timer; [unlink_fails] tells whether
    [fs.unlinkSync] throws in it (the callbacks catch that). *)
Definition run_timer (unlink_fails : bool) (tm : timer) (w : world) : world :=
  match tm_action tm with
  | ExpireCache msgId =>
      set_messageCache (cache_delete msgId (messageCache w)) w
  | ExpireMedia path name msgId => expire_media unlink_fails path name msgId w
  | ExpireMsgFile path => expire_msgfile unlink_fails path w
  | ExpireRevoke msgId =>
      set_processedRevokes (processedRevokes w ∖ {[msgId]}) w
  end.

(** [saveMediaToTemp(msg)]: the file name, or [null]. *)
Definition saveMediaToTemp (flt : faults) (msg : message)
  : M (option string) :=
  try_catch
    (if negb (msg_hasMedia msg) then ret None
     else
       match msg_downloadMedia msg with
       | DownloadRejects => throw "downloadMedia"
       | DownloadNothing => ret None
       | Downloaded media =>
           if String.eqb (m_data media) EmptyString then ret None
           else if MAX_MEDIA_SIZE_MB * 1024 * 1024 <? m_sizeBytes media
           then ret None
           else
             w ← get;
             let timestamp := now w in
             let filename :=
               media_file_name timestamp (msg_localId msg) (m_ext media) in
             let filePath := path_join TEMP_MEDIA_DIR filename in
             writeFileSync flt S_write_media filePath (m_data media);;
             timeout ← setTimeout
               (ExpireMedia filePath filename (msg_id msg)) DELETE_WINDOW_MS;
             modify (λ w, set_mediaTracker
               (<[msg_id msg :=
                    {| t_media := Some
                         {| filePath := filePath; filename := filename;
                            timeout := timeout;
                            mimetype := m_mimetype media;
                            sentTimestamp := msg_timestamp msg |};
                       t_msgfile := None |}]> (mediaTracker w)) w);;
             ret (Some filename)
       end)
    (λ _, ret None).

(** The transcript write of the [message] handler: a new entry when the
    id has none, otherwise the three transcript fields of the existing
    entry are assigned. *)
Definition attachTranscript (msgId : string) (slot : msgfile_slot)
  : M unit :=
  modify (λ w, set_mediaTracker
    (match mediaTracker w !! msgId with
     | None =>
         <[msgId := {| t_media := None; t_msgfile := Some slot |}]>
           (mediaTracker w)
     | Some existing =>
         <[msgId := {| t_media := t_media existing;
                       t_msgfile := Some slot |}]> (mediaTracker w)
     end) w).

(** ** Event handlers *)

Section Handlers.

(** [getIST(date)]: the locale rendering of a time given in milliseconds. *)
Variable getIST : Z → string.

(** *** [saveDeletedRecord] *)

Definition saveDeletedRecord (flt : faults) (data : deleted_record)
  : M unit :=
  w ← get;
  let timestamp := now w in
  let filename := record_file_name timestamp (r_senderName data) in
  emit (EPersist (path_join SAVED_MEDIA_DIR filename) data
          (negb (flt S_write_record))).

(** [fs.appendFileSync("messages_log.txt", entry, "utf8")]. *)
Definition appendLog (flt : faults) (entry : string) : M unit :=
  if flt S_append_log then throw "appendFileSync" else emit (ELog entry).

(** *** The [ready] handler *)

Definition on_ready (flt : faults) : M unit :=
  w ← get;
  sendPushNotification flt S_notify READY_TITLE
    (ready_body (getIST (now w)));;
  modify (λ w, set_readyTimestamp (now w) w).

(** *** The [message] handler *)

(** The object that the [message] and [message_create] handlers pass to
    [cacheMessage]; [message_create] passes no [msgFilePath]. *)
Definition message_snapshot (msg : message) (chat : chat) (contact : contact)
    (msgFilePath : option string) : snapshot :=
  {| s_body := body_or_marker (msg_body msg);
     s_senderName := sender_name contact;
     s_senderNumber := c_number contact;
     s_chatLocation := chat_location chat;
     s_timestamp := msg_timestamp msg;
     s_msgFilePath := msgFilePath; s_cachedAt := 0 |}.

(** The view-once block. *)
Definition viewOnceCapture (flt : faults) (msg : message)
    (senderName senderActualNumber : option string)
    (chatLocation time messageBody : string) : M unit :=
  try_catch
    (w ← get;
     match mediaTracker w !! msg_id msg with
     | None => ret tt
     | Some tracked =>
         (* path.join throws on an undefined tracked.filename *)
         slot ← await "path.join" (t_media tracked);
         let savedPath := path_join SAVED_MEDIA_DIR (filename slot) in
         present ← existsSync (filePath slot);
         (if present
          then copyFileSync flt S_copy_viewonce (filePath slot) savedPath
          else ret tt);;
         sendPushNotification flt S_notify (viewonce_title senderName)
           (viewonce_body chatLocation senderName senderActualNumber time
              messageBody);;
         viewOnceData ← readMediaAsBase64 flt (filePath slot);
         if truthy viewOnceData
         then sendTelegramMedia flt (show viewOnceData) (mimetype slot)
                (filename slot)
                (viewonce_caption senderName senderActualNumber
                   chatLocation)
         else ret tt
     end)
    (λ _, ret tt).

(** The block that saves the message as a [.txt] file under [media/temp];
    the value is [msgFilePath] as the rest of the handler sees it. *)
Definition saveMessageFile (flt : faults) (msg : message)
    (senderName senderActualNumber : option string)
    (chatLocation time messageBody : string) (saved : option string)
  : M (option string) :=
  match senderName with
  | None =>
      (* senderName.replace throws before msgFilePath is assigned *)
      ret None
  | Some name =>
      w ← get;
      let timestamp := now w in
      let msgFilename :=
        message_file_name timestamp name (msg_localId msg) in
      let msgFilePath := path_join TEMP_MEDIA_DIR msgFilename in
      let fileContent :=
        message_file_content time chatLocation name senderActualNumber
          (getIST (msg_timestamp msg * 1000)) messageBody saved in
      try_catch
        (writeFileSync flt S_write_msgfile msgFilePath fileContent;;
         msgFileTimeout ← setTimeout (ExpireMsgFile msgFilePath)
                            DELETE_WINDOW_MS;
         attachTranscript (msg_id msg)
           {| msgFilePath := msgFilePath; msgFilename := msgFilename;
              msgFileTimeout := msgFileTimeout |};;
         ret (Some msgFilePath))
        (λ _, ret (Some msgFilePath))
  end.

Definition on_message (flt : faults) (msg : message) : M unit :=
  try_catch
    (chat ← await "getChat" (msg_getChat msg);
     contact ← await "getContact" (msg_getContact msg);
     let senderName := sender_name contact in
     let senderActualNumber := c_number contact in
     w ← get;
     let time := getIST (now w) in
     let messageBody := body_or_marker (msg_body msg) in
     let chatLocation := chat_location chat in
     saved ← (if msg_hasMedia msg then saveMediaToTemp flt msg
              else ret None);
     let mediaRef := temp_media_ref saved in
     (if msg_isViewOnce msg && msg_hasMedia msg
      then viewOnceCapture flt msg senderName senderActualNumber
             chatLocation time messageBody
      else ret tt);;
     appendLog flt
       (message_log_entry time chatLocation senderName senderActualNumber
          messageBody mediaRef);;
     msgFilePath ← saveMessageFile flt msg senderName senderActualNumber
                     chatLocation time messageBody saved;
     cacheMessage (msg_id msg)
       (message_snapshot msg chat contact msgFilePath))
    (λ _, ret tt).

(** *** The [message_create] handler *)

Definition on_message_create (msg : message) : M unit :=
  try_catch
    (if msg_fromMe msg then ret tt
     else
       w ← get;
       match cache_get (msg_id msg) (messageCache w) with
       | Some _ => ret tt
       | None =>
           chat ← await "getChat" (msg_getChat msg);
           contact ← await "getContact" (msg_getContact msg);
           cacheMessage (msg_id msg)
             (message_snapshot msg chat contact None)
       end)
    (λ _, ret tt).

(** *** The [message_revoke_everyone] handler *)

(** The values of the handler's local variables once the before-reference
    and the cache have been consulted. *)
Record resolved := {
  v_chatLocation : string;
  v_senderName : option string;
  v_senderNumber : option string;
  v_originalText : string;
  v_msgId : string;
  v_cached : option snapshot
}.

Definition UNKNOWN : string := "Unknown".
Definition UNKNOWN_CHAT : string := "Unknown Chat".
Definition UNKNOWN_TEXT : string := "[Unknown - message not cached]".

(** From [let chatLocation = "Unknown Chat"] to the end of the
    [if (cached)] block.  [getChat] and [getContact] are each in a
    [try]/[catch] of their own. *)
Definition resolve_fields (afterMsg : message) (beforeMsg : option message)
    (cache : list (string * snapshot)) : resolved :=
  let chatLocation :=
    match msg_getChat afterMsg with
    | Some chat => chat_location chat
    | None => UNKNOWN_CHAT
    end in
  let '(senderName, senderNumber, originalText) :=
    match beforeMsg with
    | Some before =>
        let '(name, number) :=
          match msg_getContact before with
          | Some contact => (sender_name contact, c_number contact)
          | None => (Some UNKNOWN, Some UNKNOWN)
          end in
        (name, number, body_or_marker (msg_body before))
    | None => (Some UNKNOWN, Some UNKNOWN, UNKNOWN_TEXT)
    end in
  let msgId :=
    match beforeMsg with
    | Some before => msg_id before
    | None => msg_id afterMsg
    end in
  match cache_get msgId cache with
  | Some cached =>
      {| v_chatLocation :=
           if String.eqb chatLocation UNKNOWN_CHAT
           then s_chatLocation cached else chatLocation;
         v_senderName :=
           if strict_eq senderName UNKNOWN
           then s_senderName cached else senderName;
         v_senderNumber :=
           if strict_eq senderNumber UNKNOWN
           then s_senderNumber cached else senderNumber;
         v_originalText :=
           if String.eqb originalText UNKNOWN_TEXT
           then s_body cached else originalText;
         v_msgId := msgId; v_cached := Some cached |}
  | None =>
      {| v_chatLocation := chatLocation; v_senderName := senderName;
         v_senderNumber := senderNumber; v_originalText := originalText;
         v_msgId := msgId; v_cached := None |}
  end.

(** The block "Move files from temp to saved"; the value is [mediaRef]. *)
Definition promoteTracked (flt : faults) (tracked : option tracked)
  : M string :=
  match tracked with
  | None => ret EmptyString
  | Some tr =>
      mediaRef ←
        match t_media tr with
        | Some slot =>
            clearTimeout (timeout slot);;
            present ← existsSync (filePath slot);
            if present
            then renameSync flt S_rename_media (filePath slot)
                   (path_join SAVED_MEDIA_DIR (filename slot));;
                 ret (saved_media_ref (filename slot))
            else ret EmptyString
        | None => ret EmptyString
        end;
      match t_msgfile tr with
      | Some slot =>
          clearTimeout (msgFileTimeout slot);;
          present ← existsSync (msgFilePath slot);
          if present
          then renameSync flt S_rename_msgfile (msgFilePath slot)
                 (path_join SAVED_MEDIA_DIR (msgFilename slot))
          else ret tt
      | None => ret tt
      end;;
      ret mediaRef
  end.

(** The block "Text-only fallback". *)
Definition promoteCachedFile (flt : faults) (tracked : option tracked)
    (cached : option snapshot) : M unit :=
  match tracked, cached with
  | None, Some c =>
      match s_msgFilePath c with
      | Some path =>
          if String.eqb path EmptyString then ret tt
          else
            try_catch
              (present ← existsSync path;
               if present
               then renameSync flt S_rename_cached path
                      (path_join SAVED_MEDIA_DIR (basename path))
               else ret tt)
              (λ _, ret tt)
      | None => ret tt
      end
  | _, _ => ret tt
  end.

(** The original send time shown in the record and in the notification. *)
Definition sent_time (beforeMsg : option message) (cached : option snapshot)
  : string :=
  let from_cache :=
    match cached with
    | Some c =>
        if s_timestamp c =? 0 then "Unknown"
        else getIST (s_timestamp c * 1000)
    | None => "Unknown"
    end in
  match beforeMsg with
  | Some before =>
      if msg_timestamp before =? 0 then from_cache
      else getIST (msg_timestamp before * 1000)
  | None => from_cache
  end.

(** [tracked && tracked.filename ? tracked.filename : undefined]. *)
Definition media_filename (tracked : option tracked) : option string :=
  match tracked with
  | Some tr => filename <$> t_media tr
  | None => None
  end.

(** The block "Send deleted media to Telegram". *)
Definition sendDeletedMedia (flt : faults) (tracked : option tracked)
    (v : resolved) : M unit :=
  match tracked with
  | Some tr =>
      match t_media tr with
      | Some slot =>
          let savedPath := path_join SAVED_MEDIA_DIR (filename slot) in
          saved ← existsSync savedPath;
          tgMediaData ← readMediaAsBase64 flt
                          (if saved then savedPath else filePath slot);
          if truthy tgMediaData
          then sendTelegramMedia flt (show tgMediaData) (mimetype slot)
                 (filename slot)
                 (deleted_caption (v_senderName v) (v_senderNumber v)
                    (v_chatLocation v))
          else ret tt
      | None => ret tt
      end
  | None => ret tt
  end.

(** The object passed to [saveDeletedRecord]. *)
Definition reconciled_record (time : string) (v : resolved)
    (beforeMsg : option message) (tracked : option tracked)
  : deleted_record :=
  {| r_time := time; r_where := v_chatLocation v;
     r_senderName := v_senderName v; r_senderNumber := v_senderNumber v;
     r_originalMessage := v_originalText v;
     r_sentTime := sent_time beforeMsg (v_cached v);
     r_mediaFilename := media_filename tracked |}.

(** The block "Cleanup". *)
Definition cleanup (tracked : option tracked) (msgId : string) (w : world)
  : world :=
  set_messageCache (cache_delete msgId (messageCache w))
    (match tracked with
     | Some _ => set_mediaTracker (delete msgId (mediaTracker w)) w
     | None => w
     end).

(** The body of the handler's outer [try]. *)
Definition reconcile (flt : faults) (afterMsg : message)
    (beforeMsg : option message) : M unit :=
  w ← get;
  let time := getIST (now w) in
  let v := resolve_fields afterMsg beforeMsg (messageCache w) in
  let msgId := v_msgId v in
  let cached := v_cached v in
  let tracked := mediaTracker w !! msgId in
  mediaRef ← promoteTracked flt tracked;
  promoteCachedFile flt tracked cached;;
  appendLog flt
    (deleted_log_entry time (v_chatLocation v) (v_senderName v)
       (v_senderNumber v) (v_originalText v) mediaRef);;
  saveDeletedRecord flt (reconciled_record time v beforeMsg tracked);;
  sendPushNotification flt S_notify (deleted_title (v_senderName v))
    (deleted_body (v_chatLocation v) (v_senderName v) (v_senderNumber v)
       (sent_time beforeMsg cached) time (v_originalText v));;
  sendDeletedMedia flt tracked v;;
  modify (cleanup tracked msgId).

(** The [catch] block of the handler. *)
Definition fallback_notification (flt : faults) (err : string) : M unit :=
  try_catch
    (sendPushNotification flt S_notify_fallback FALLBACK_TITLE
       (fallback_body err))
    (λ _, ret tt).

Definition on_message_revoke_everyone (flt : faults) (afterMsg : message)
    (beforeMsg : option message) : M unit :=
  w ← get;
  let msgId_dedup := msg_id afterMsg in
  if now w - readyTimestamp w <? STARTUP_GRACE_MS then ret tt
  else if bool_decide (msgId_dedup ∈ processedRevokes w) then ret tt
  else
    modify (λ w,
      set_processedRevokes ({[msgId_dedup]} ∪ processedRevokes w) w);;
    _ ← setTimeout (ExpireRevoke msgId_dedup) REVOKE_DEDUP_TTL_MS;
    try_catch (reconcile flt afterMsg beforeMsg) (fallback_notification flt).

(** The call sites of [reconcile] that are not in a [try]/[catch] of
    their own: the two renames of the promotion block and the append to
    the log. *)
Definition no_unguarded_fault (flt : faults) : Prop :=
  flt S_rename_media = false ∧ flt S_rename_msgfile = false
  ∧ flt S_append_log = false.

(** ** The event loop *)

Inductive event :=
| Ready
| Message (msg : message)
| MessageCreate (msg : message)
| RevokeEveryone (afterMsg : message) (beforeMsg : option message).

Definition handler (flt : faults) (e : event) : M unit :=
  match e with
  | Ready => on_ready flt
  | Message msg => on_message flt msg
  | MessageCreate msg => on_message_create msg
  | RevokeEveryone afterMsg beforeMsg =>
      on_message_revoke_everyone flt afterMsg beforeMsg
  end.

(** Run, in firing order, the callbacks of the pending timers that are
    due at time [t]; [tf h] tells whether the unlink of timer [h] fails.
    The callbacks set no timer. *)
Fixpoint fire_due (tf : nat → bool) (t : Z) (pending : list timer)
    (w : world) : world :=
  match pending with
  | [] => w
  | tm :: rest =>
      if tm_due tm <=? t
      then fire_due tf t rest (run_timer (tf (tm_handle tm)) tm w)
      else fire_due tf t rest w
  end.

(** Let the clock reach [t]: the due timers fire and leave the queue. *)
Definition advance (tf : nat → bool) (t : Z) (w : world) : world :=
  set_now (Z.max (now w) t)
    (set_timers (filter (λ tm, t < tm_due tm) (timers w))
       (fire_due tf t (timers w) w)).

(** One occurrence of an event: the time it is handled at, the faults
    that strike the timers fired before it and its own call sites, and
    the event. *)
Record occurrence := {
  o_time : Z;
  o_timer_faults : nat → bool;
  o_faults : faults;
  o_event : event
}.

Definition step (w : world) (o : occurrence) : world :=
  exec (handler (o_faults o) (o_event o))
    (advance (o_timer_faults o) (o_time o) w).

Definition run (trace : list occurrence) (w : world) : world :=
  fold_left step trace w.

End Handlers.

(** ** Helpers of the notification sinks *)

(** [s.replace(/c/g, by)] for a one-character pattern. *)
Fixpoint replace_char (c : Ascii.ascii) (by_ : string) (s : string) : string :=
  match s with
  | EmptyString => EmptyString
  | String x r =>
      (if Ascii.eqb x c then by_ else String x EmptyString)
      +:+ replace_char c by_ r
  end.

(** [escapeHTML(text)]: the three replacements, in the order of the
    source. *)
Definition escapeHTML (text : string) : string :=
  replace_char ">"%char "&gt;"
    (replace_char "<"%char "&lt;" (replace_char "&"%char "&amp;" text)).

(** ** Helpers of the media files *)

(** The object literal [map] of [getExtension], in the order of the
    source. *)
Definition EXTENSION_MAP : list (string * string) :=
  [ ("image/jpeg", ".jpg"); ("image/png", ".png"); ("image/webp", ".webp");
    ("image/gif", ".gif"); ("image/bmp", ".bmp"); ("image/tiff", ".tiff");
    ("image/heic", ".heic"); ("image/heif", ".heif");
    ("image/svg+xml", ".svg"); ("video/mp4", ".mp4"); ("video/3gpp", ".3gp");
    ("video/quicktime", ".mov"); ("video/x-msvideo", ".avi");
    ("video/webm", ".webm"); ("video/x-matroska", ".mkv");
    ("audio/ogg; codecs=opus", ".ogg"); ("audio/ogg", ".ogg");
    ("audio/mpeg", ".mp3"); ("audio/mp4", ".m4a"); ("audio/wav", ".wav");
    ("audio/aac", ".aac"); ("audio/flac", ".flac"); ("audio/amr", ".amr");
    ("application/pdf", ".pdf");
    ("application/vnd.openxmlformats-officedocument.wordprocessingml.document",
     ".docx");
    ("application/msword", ".doc");
    ("application/vnd.openxmlformats-officedocument.spreadsheetml.sheet",
     ".xlsx");
    ("application/vnd.ms-excel", ".xls");
    ("application/vnd.openxmlformats-officedocument.presentationml.presentation",
     ".pptx");
    ("application/vnd.ms-powerpoint", ".ppt"); ("text/plain", ".txt");
    ("text/csv", ".csv"); ("application/zip", ".zip");
    ("application/x-rar-compressed", ".rar");
    ("application/x-7z-compressed", ".7z"); ("application/gzip", ".gz");
    ("application/json", ".json"); ("application/octet-stream", ".bin");
    ("application/vnd.android.package-archive", ".apk") ].

(** The property names that an object literal inherits from
    [Object.prototype]; each has a truthy value (a function, or the
    prototype itself for [__proto__]). *)
Definition OBJECT_PROTOTYPE_KEYS : list string :=
  [ "constructor"; "__defineGetter__"; "__defineSetter__"; "hasOwnProperty";
    "__lookupGetter__"; "__lookupSetter__"; "isPrototypeOf";
    "propertyIsEnumerable"; "toString"; "valueOf"; "__proto__";
    "toLocaleString" ].

(** The value of [getExtension]: a string, or the inherited value that
    [map[mimetype]] finds on the prototype. *)
Inductive extension :=
| ExtString (ext : string)
| ExtInherited (key : string).

(** Lookup of an own property. *)
Fixpoint own_property (key : string) (m : list (string * string))
  : option string :=
  match m with
  | [] => None
  | (k, v) :: r => if String.eqb k key then Some v else own_property key r
  end.

(** [s.split(sep)[0]]: the part before the first separator. *)
Fixpoint split_first (sep : Ascii.ascii) (s : string) : string :=
  match s with
  | EmptyString => EmptyString
  | String c r =>
      if Ascii.eqb c sep then EmptyString else String c (split_first sep r)
  end.

(** What follows the first separator, when there is one. *)
Fixpoint after_first (sep : Ascii.ascii) (s : string) : option string :=
  match s with
  | EmptyString => None
  | String c r => if Ascii.eqb c sep then Some r else after_first sep r
  end.

(** [s.split(sep)[1]]: the part between the first separator and the
    next, [undefined] when [s] has no separator. *)
Definition split_second (sep : Ascii.ascii) (s : string) : option string :=
  split_first sep <$> after_first sep s.

(** [getExtension(mimetype)]. *)
Definition getExtension (mimetype : option string) : extension :=
  let key := show mimetype in
  match own_property key EXTENSION_MAP with
  | Some ext => ExtString ext
  | None =>
      if bool_decide (key ∈ OBJECT_PROTOTYPE_KEYS) then ExtInherited key
      else
        let sub :=
          if truthy mimetype
          then split_second "/"%char (split_first ";"%char (show mimetype))
          else Some "bin" in
        ExtString ("." +:+ show sub)
  end.

(** ** The start-up sweep of [media/temp]

    The first block of [startClient].  The directory listing and the
    modification times come from the file system: [readdirSync] yields
    the names, or throws; [statSync] yields the [mtimeMs] of a name, or
    throws. *)
Record dir_entry := {
  de_name : string;
  de_mtimeMs : option Z
}.

(** [fs.unlinkSync(p)]; throws when [p] is missing. *)
Definition unlinkSync (unlink_fails : string → bool) (p : string) : M unit :=
  w ← get;
  match files w !! p with
  | Some _ =>
      if unlink_fails p then throw "unlinkSync"
      else modify (λ w, set_files (delete p (files w)) w);;
           emit (EFsUnlink p)
  | None => throw "unlinkSync"
  end.

(** The [for] loop over the listing; [t] is the [now] of the block. *)
Fixpoint sweep (unlink_fails : string → bool) (t : Z)
    (tempFiles : list dir_entry) : M unit :=
  match tempFiles with
  | [] => ret tt
  | file :: rest =>
      let filePath := path_join TEMP_MEDIA_DIR (de_name file) in
      mtimeMs ← await "statSync" (de_mtimeMs file);
      (if DELETE_WINDOW_MS <? t - mtimeMs
       then unlinkSync unlink_fails filePath
       else ret tt);;
      sweep unlink_fails t rest
  end.

(** The [try] block and its [catch]. *)
Definition startupCleanup (unlink_fails : string → bool)
    (readdir : option (list dir_entry)) : M unit :=
  try_catch
    (w ← get;
     tempFiles ← await "readdirSync" readdir;
     sweep unlink_fails (now w) tempFiles)
    (λ _, ret tt).

(** ** Telegram commands

    The body of the loop of [pollTelegramCommands].  Beside the [world],
    the loop reads [currentClient] and writes [telegramUpdateOffset]. *)

(** An element of [data.result]. *)
Record update := {
  update_id : Z;
  u_text : option string;      (* update.message?.text *)
  u_chatId : string            (* String(update.message?.chat?.id) *)
}.

(** What [handleReauth] may read and write: the world and the client.
    [currentClient_info] is [currentClient?.info], as its [pushname],
    when it is truthy. *)
Record client_state := {
  cs_world : world;
  currentClient_info : option (option string)
}.

Record poll_state := {
  ps_client : client_state;
  telegramUpdateOffset : Z
}.

Definition set_cs_world (w : world) (c : client_state) : client_state :=
  {| cs_world := w; currentClient_info := currentClient_info c |}.

Definition set_ps_client (c : client_state) (s : poll_state) : poll_state :=
  {| ps_client := c; telegramUpdateOffset := telegramUpdateOffset s |}.

Definition set_telegramUpdateOffset (v : Z) (s : poll_state) : poll_state :=
  {| ps_client := ps_client s; telegramUpdateOffset := v |}.

Definition STATUS_TITLE : string := "📊 Status".

Section Commands.

(** [trim] is [String.prototype.trim].  [handleReauth update] is the
    call of [handleReauth] made for [update]: the function catches its
    own errors and does not mention [telegramUpdateOffset]. *)
Variables (getIST : Z → string) (TELEGRAM_CHAT_ID : string)
  (trim : string → string)
  (handleReauth : update → client_state → client_state).

(** The body of the [/status] reply. *)
Definition status_body (c : client_state) : string :=
  let w := cs_world c in
  let status :=
    match currentClient_info c with
    | Some pushname => "✅ Connected as " +:+ show pushname
    | None => "❌ Not connected"
    end in
  status +:+ nl +:+ "Time: " +:+ getIST (now w) +:+ nl
  +:+ "Cache: " +:+ pretty (length (messageCache w)) +:+ " messages" +:+ nl
  +:+ "Media tracked: " +:+ pretty (size (mediaTracker w)).

(** One turn of [for (const update of data.result)]; [flt update] tells
    which calls made for [update] fail. *)
Definition dispatch (flt : update → faults) (s : poll_state)
    (update : update) : poll_state :=
  let s := set_telegramUpdateOffset (update_id update + 1) s in
  let text := trim <$> u_text update in
  let chatId := u_chatId update in
  if negb (String.eqb chatId TELEGRAM_CHAT_ID) then s
  else if strict_eq text "/rebuild"
  then set_ps_client (handleReauth update (ps_client s)) s
  else if strict_eq text "/status"
  then
    let c := ps_client s in
    set_ps_client
      (set_cs_world
         (exec (sendPushNotification (flt update) S_notify STATUS_TITLE
                  (status_body c)) (cs_world c)) c) s
  else s.

(** The [try] block of one turn of the [while] loop: [data] is the parsed
    response, [None] when [fetch] or [res.json()] rejects or the
    response has no list of updates; its components are [data.ok] and
    [data.result]. *)
Definition pollTelegramCommands_turn (flt : update → faults)
    (data : option (bool * list update)) (s : poll_state) : poll_state :=
  match data with
  | Some (true, result) =>
      if (0 <? length result)%nat then foldl (dispatch flt) s result else s
  | _ => s
  end.

End Commands.

(** * Vocabulary of the statements *)

(** ** Observations *)

(** The records handed to [saveDeletedRecord] so far. *)
Definition persisted (w : world) : list deleted_record :=
  omap (λ e, match e with EPersist _ r _ => Some r | _ => None end) (out w).

(** The notifications attempted so far, as (title, body). *)
Definition notified (w : world) : list (string * string) :=
  omap (λ e, match e with ENotify t b _ => Some (t, b) | _ => None end)
    (out w).

(** The file operations performed so far. *)
Definition is_file_operation (e : effect) : bool :=
  match e with
  | EFsWrite _ | EFsCopy _ _ | EFsRename _ _ | EFsUnlink _ => true
  | _ => false
  end.

Definition file_operations (w : world) : list effect :=
  filter (λ e, is_file_operation e = true) (out w).

Definition is_persist (e : effect) : bool :=
  match e with
  | EPersist _ _ _ => true
  | _ => false
  end.

(** ** Admission of a revoke event *)

(** A revoke event is accepted when it is past the startup grace period
    and its id is not in the dedup set. *)
Definition accepted (afterMsg : message) (w : world) : Prop :=
  STARTUP_GRACE_MS ≤ now w - readyTimestamp w
  ∧ msg_id afterMsg ∉ processedRevokes w.

(** [msgId] of the handler: the id of the before-reference when there is
    one, of the after-reference otherwise. *)
Definition revoked_id (afterMsg : message) (beforeMsg : option message)
  : string :=
  match beforeMsg with
  | Some before => msg_id before
  | None => msg_id afterMsg
  end.

(** The world in which the body of the outer [try] starts, for an
    accepted event: the id is marked and its removal is scheduled. *)
Definition marked (msgId : string) (w : world) : world :=
  set_nextTimer (S (nextTimer w))
    (set_timers
       (insert_timer
          {| tm_handle := nextTimer w;
             tm_due := now w + REVOKE_DEDUP_TTL_MS;
             tm_action := ExpireRevoke msgId |} (timers w))
       (set_processedRevokes ({[msgId]} ∪ processedRevokes w) w)).

(** The three effects every completed reconciliation produces, in order:
    the log entry, the persisted record and the notification. *)
Definition reconcile_effects (getIST : Z → string) (flt : faults) (afterMsg : message)
    (beforeMsg : option message) (w : world) (mediaRef : string)
  : list effect :=
  let time := getIST (now w) in
  let v := resolve_fields afterMsg beforeMsg (messageCache w) in
  let tracked := mediaTracker w !! v_msgId v in
  [ ELog (deleted_log_entry time (v_chatLocation v) (v_senderName v)
            (v_senderNumber v) (v_originalText v) mediaRef);
    EPersist
      (path_join SAVED_MEDIA_DIR
         (record_file_name (now w) (v_senderName v)))
      (reconciled_record getIST time v beforeMsg tracked)
      (negb (flt S_write_record));
    ENotify (deleted_title (v_senderName v))
      (deleted_body (v_chatLocation v) (v_senderName v) (v_senderNumber v)
         (sent_time getIST beforeMsg (v_cached v)) time (v_originalText v))
      (negb (flt S_notify)) ].

(** No cached snapshot and no persisted record has the empty string as
    its body. *)
Definition nonempty_bodies (w : world) : Prop :=
  (∀ id s, cache_get id (messageCache w) = Some s → s_body s ≠ EmptyString)
  ∧ (∀ r, r ∈ persisted w → r_originalMessage r ≠ EmptyString).

(** A property of the cache, as a property of the world. *)
Definition on_cache (P : list (string * snapshot) → Prop) (w : world) : Prop :=
  P (messageCache w).

(** ** Computations *)

(** [wp m Q w]: running [m] from [w] ends, with a value or an exception,
    in a world for which [Q] holds. *)
Definition wp {A} (m : M A) (Q : result A → world → Prop) (w : world) : Prop :=
  Q (m w).1 (m w).2.

(** [quiet w w']: from [w] to [w'] the clock, the ready time, the cache
    and the dedup set are unchanged, and effects were only added, none of
    them a persisted record. *)
Record quiet (w w' : world) : Prop := {
  quiet_now : now w' = now w;
  quiet_ready : readyTimestamp w' = readyTimestamp w;
  quiet_cache : messageCache w' = messageCache w;
  quiet_revokes : processedRevokes w' = processedRevokes w;
  quiet_out : ∃ added,
    out w' = (out w ++ added)%list ∧ Forall (λ e, is_persist e = false) added
}.

(** [calm m]: whatever its outcome, [m] is quiet. *)
Definition calm {A} (m : M A) : Prop := ∀ w, quiet w (m w).2.

(** [safe m]: moreover [m] never throws. *)
Definition safe {A} (m : M A) : Prop :=
  ∀ w, quiet w (m w).2 ∧ ∃ a, (m w).1 = Returned a.

(** [inv P m]: [m] keeps [P], whatever its outcome. *)
Definition inv (P : world → Prop) {A} (m : M A) : Prop :=
  ∀ w, P w → P (m w).2.

(** [stable P]: quiet steps keep [P]. *)
Definition stable (P : world → Prop) : Prop :=
  ∀ w w', quiet w w' → P w → P w'.

(** [respects R m]: whatever its outcome, [m] moves the world along [R]. *)
Definition respects (R : relation world) {A} (m : M A) : Prop :=
  ∀ w, R w (m w).2.

(** [still w w']: only the files and the list of effects differ. *)
Record still (w w' : world) : Prop := {
  still_now : now w' = now w;
  still_ready : readyTimestamp w' = readyTimestamp w;
  still_cache : messageCache w' = messageCache w;
  still_tracker : mediaTracker w' = mediaTracker w;
  still_revokes : processedRevokes w' = processedRevokes w;
  still_timers : timers w' = timers w;
  still_next : nextTimer w' = nextTimer w
}.

(** What the view-once block leaves as it was, and what it adds. *)
Record viewonce_frame (msg : message) (copy_fails : bool) (w w' : world)
  : Prop := {
  vf_tracker : mediaTracker w' = mediaTracker w;
  vf_timers : timers w' = timers w;
  vf_cache : messageCache w' = messageCache w;
  vf_copy : ∀ tr slot content,
    mediaTracker w !! msg_id msg = Some tr → t_media tr = Some slot →
    files w !! filePath slot = Some content → copy_fails = false →
    files w'
    = <[path_join SAVED_MEDIA_DIR (filename slot) := content]> (files w)
    ∧ EFsCopy (filePath slot) (path_join SAVED_MEDIA_DIR (filename slot))
      ∈ out w'
}.

(** ** Timers, handles and the dedup set *)

(** The timer handles stored in a tracker entry. *)
Definition handles_of (tr : tracked) : list nat :=
  (match t_media tr with Some slot => [timeout slot] | None => [] end
   ++ match t_msgfile tr with
      | Some slot => [msgFileTimeout slot]
      | None => []
      end)%list.

Definition handles_of_entry (tracked : option tracked) : list nat :=
  match tracked with
  | Some tr => handles_of tr
  | None => []
  end.

(** [h] is stored in some entry of the tracker. *)
Definition tracked_handle (mt : gmap string tracked) (h : nat) : Prop :=
  ∃ id tr, mt !! id = Some tr ∧ h ∈ handles_of tr.

Definition is_revoke_timer (tm : timer) : Prop :=
  ∃ id, tm_action tm = ExpireRevoke id.

Definition is_file_timer (tm : timer) : Prop :=
  match tm_action tm with
  | ExpireMedia _ _ _ | ExpireMsgFile _ => True
  | _ => False
  end.

(** What holds of the timers in every world the handlers can reach:
    handles are allocated in order, the handles kept in the tracker are
    those of file timers, and an id has a pending removal from the dedup
    set only while it is in the set, and then just one. *)
Record coherent (w : world) : Prop := {
  coh_timers : ∀ tm, tm ∈ timers w → (tm_handle tm < nextTimer w)%nat;
  coh_tracked : ∀ h,
    tracked_handle (mediaTracker w) h → (h < nextTimer w)%nat;
  coh_files : ∀ tm,
    tm ∈ timers w → tracked_handle (mediaTracker w) (tm_handle tm) →
    is_file_timer tm;
  coh_marked : ∀ tm id,
    tm ∈ timers w → tm_action tm = ExpireRevoke id →
    id ∈ processedRevokes w;
  coh_unique : ∀ tm tm' id,
    tm ∈ timers w → tm' ∈ timers w →
    tm_action tm = ExpireRevoke id → tm_action tm' = ExpireRevoke id →
    tm = tm'
}.

(** [steady w w']: a step that keeps coherence, removes no id from the
    dedup set and cancels no pending removal from it. *)
Definition steady (w w' : world) : Prop :=
  coherent w →
  coherent w'
  ∧ processedRevokes w ⊆ processedRevokes w'
  ∧ ∀ tm, tm ∈ timers w → is_revoke_timer tm → tm ∈ timers w'.

(** [sheds H w w']: a step that allocates no timer, cancels only timers
    with a handle in [H], adds no handle to the tracker and leaves the
    dedup set alone. *)
Record sheds (H : list nat) (w w' : world) : Prop := {
  sheds_revokes : processedRevokes w' = processedRevokes w;
  sheds_next : nextTimer w' = nextTimer w;
  sheds_tracker : ∀ h,
    tracked_handle (mediaTracker w') h → tracked_handle (mediaTracker w) h;
  sheds_sub : ∀ tm, tm ∈ timers w' → tm ∈ timers w;
  sheds_kept : ∀ tm, tm ∈ timers w → tm ∈ timers w' ∨ tm_handle tm ∈ H
}.

(** [guarding id T w]: [id] is in the dedup set and its removal is
    pending, due at [T]. *)
Record guarding (id : string) (T : Z) (w : world) : Prop := {
  guard_coherent : coherent w;
  guard_marked : id ∈ processedRevokes w;
  guard_timer : ∃ tm,
    tm ∈ timers w ∧ tm_action tm = ExpireRevoke id ∧ tm_due tm = T
}.

(** ** Escaped texts and extensions *)

(** The entity that stands for one character of the text. *)
Definition html_entity (c : Ascii.ascii) : string :=
  if Ascii.eqb c "&"%char then "&amp;"
  else if Ascii.eqb c "<"%char then "&lt;"
  else if Ascii.eqb c ">"%char then "&gt;"
  else String c EmptyString.

(** The characters of a string. *)
Fixpoint chars (s : string) : list Ascii.ascii :=
  match s with
  | EmptyString => []
  | String c r => c :: chars r
  end.

(** Reading an escaped text back: each of the three entities stands for
    its character. *)
Fixpoint unescapeHTML (s : string) : string :=
  match s with
  | EmptyString => EmptyString
  | String c r =>
      match c, r with
      | "&"%char, String "a" (String "m" (String "p" (String ";" r'))) =>
          String "&" (unescapeHTML r')
      | "&"%char, String "l" (String "t" (String ";" r')) =>
          String "<" (unescapeHTML r')
      | "&"%char, String "g" (String "t" (String ";" r')) =>
          String ">" (unescapeHTML r')
      | _, _ => String c (unescapeHTML r)
      end
  end.

(** Whether [c] occurs in [s]. *)
Fixpoint has_char (c : Ascii.ascii) (s : string) : bool :=
  match s with
  | EmptyString => false
  | String x r => Ascii.eqb x c || has_char c r
  end.

(** A text in which no angle bracket occurs and every ampersand starts
    one of the three entities. *)
Fixpoint well_escaped (s : string) : bool :=
  match s with
  | EmptyString => true
  | String c r =>
      match c, r with
      | "&"%char, String "a" (String "m" (String "p" (String ";" r'))) =>
          well_escaped r'
      | "&"%char, String "l" (String "t" (String ";" r')) => well_escaped r'
      | "&"%char, String "g" (String "t" (String ";" r')) => well_escaped r'
      | "&"%char, _ => false
      | "<"%char, _ => false
      | ">"%char, _ => false
      | _, _ => well_escaped r
      end
  end.

(** A dot followed by characters other than [/] and [;]. *)
Definition dotted (v : string) : bool :=
  match v with
  | EmptyString => false
  | String c rest =>
      Ascii.eqb c "."%char
      && negb (has_char "/"%char rest) && negb (has_char ";"%char rest)
  end.

(** The tracker entry that [saveMediaToTemp] sets for [msg], and the
    world it leaves, when it saves [media] at the time of [w]. *)
Definition media_entry (msg : message) (media : media) (w : world)
  : media_slot :=
  let filename :=
    media_file_name (now w) (msg_localId msg) (m_ext media) in
  {| filePath := path_join TEMP_MEDIA_DIR filename; filename := filename;
     timeout := nextTimer w; mimetype := m_mimetype media;
     sentTimestamp := msg_timestamp msg |}.

Definition media_timer (msg : message) (media : media) (w : world) : timer :=
  let slot := media_entry msg media w in
  {| tm_handle := nextTimer w; tm_due := now w + DELETE_WINDOW_MS;
     tm_action := ExpireMedia (filePath slot) (filename slot) (msg_id msg) |}.

(** The conditions under which [saveMediaToTemp] saves [media]. *)
Definition saves_media (flt : faults) (msg : message) (media : media)
  : Prop :=
  msg_hasMedia msg = true ∧ msg_downloadMedia msg = Downloaded media
  ∧ m_data media ≠ EmptyString
  ∧ m_sizeBytes media ≤ MAX_MEDIA_SIZE_MB * 1024 * 1024
  ∧ flt S_write_media = false.

(** [others_kept id w w']: the cache and the tracker hold for every id
    other than [id] what they held. *)
Definition others_kept (id : string) (w w' : world) : Prop :=
  ∀ id', id' ≠ id →
    cache_get id' (messageCache w') = cache_get id' (messageCache w)
    ∧ mediaTracker w' !! id' = mediaTracker w !! id'.

(** [unmoved w w']: the clock and the time of [ready] are as they were. *)
Definition unmoved (w w' : world) : Prop :=
  now w' = now w ∧ readyTimestamp w' = readyTimestamp w.

(** The record of a revocation of which nothing is known. *)
Definition unknown_record (time chatLocation : string) : deleted_record :=
  {| r_time := time; r_where := chatLocation;
     r_senderName := Some UNKNOWN; r_senderNumber := Some UNKNOWN;
     r_originalMessage := UNKNOWN_TEXT; r_sentTime := "Unknown";
     r_mediaFilename := None |}.

(** [settled w w']: moreover the dedup set is as it was. *)
Definition settled (w w' : world) : Prop :=
  unmoved w w' ∧ processedRevokes w' = processedRevokes w.

(** Every id of the dedup set has its removal pending, due within the
    dedup window. *)
Definition draining (w : world) : Prop :=
  coherent w
  ∧ ∀ id, id ∈ processedRevokes w →
          ∃ T, T ≤ now w + REVOKE_DEDUP_TTL_MS ∧ guarding id T w.

(** ** Files under [media/temp] and under [media/saved] *)

Definition is_temp (p : string) : Prop :=
  ∃ name, p = path_join TEMP_MEDIA_DIR name.

Definition is_saved (p : string) : Prop :=
  ∃ name, p = path_join SAVED_MEDIA_DIR name.

(** The file that a timer callback may unlink is under [media/temp]. *)
Definition timer_in_temp (tm : timer) : Prop :=
  match tm_action tm with
  | ExpireMedia path _ _ | ExpireMsgFile path => is_temp path
  | _ => True
  end.

Definition entry_in_temp (tr : tracked) : Prop :=
  (∀ m, t_media tr = Some m → is_temp (filePath m))
  ∧ (∀ f, t_msgfile tr = Some f → is_temp (msgFilePath f)).

(** [tidy w]: every path kept in a timer, in the tracker or in the cache
    is under [media/temp]. *)
Record tidy (w : world) : Prop := {
  tidy_timers : ∀ tm, tm ∈ timers w → timer_in_temp tm;
  tidy_tracker : ∀ id tr, mediaTracker w !! id = Some tr → entry_in_temp tr;
  tidy_cache : ∀ id s p,
    cache_get id (messageCache w) = Some s → s_msgFilePath s = Some p →
    is_temp p
}.

(** [keeps_saved w w']: the files under [media/saved] are still there. *)
Definition keeps_saved (w w' : world) : Prop :=
  ∀ p, is_saved p → is_Some (files w !! p) → is_Some (files w' !! p).

(** [kept m Q]: from a tidy world, [m] ends in a tidy world that keeps
    the saved files, and a value it returns satisfies [Q]. *)
Definition kept {A} (m : M A) (Q : A → Prop) : Prop :=
  ∀ w, tidy w →
    tidy (m w).2 ∧ keeps_saved w (m w).2
    ∧ ∀ a, (m w).1 = Returned a → Q a.

(** A listed file whose age exceeds the retention window. *)
Definition expired (t : Z) (file : dir_entry) : Prop :=
  ∃ mtimeMs, de_mtimeMs file = Some mtimeMs ∧ DELETE_WINDOW_MS < t - mtimeMs.

(** [swept t tempFiles w w']: from [w] to [w'] only files were removed,
    each of them a listed file under [media/temp] older than the window
    at time [t]; everything else of the world but the list of effects is
    as it was. *)
Record swept (t : Z) (tempFiles : list dir_entry) (w w' : world) : Prop := {
  swept_still : still w w';
  swept_sub : ∀ p c, files w' !! p = Some c → files w !! p = Some c;
  swept_removed : ∀ p,
    is_Some (files w !! p) → files w' !! p = None →
    ∃ file, file ∈ tempFiles ∧ p = path_join TEMP_MEDIA_DIR (de_name file)
            ∧ expired t file
}.

(** ** Commands *)

(** An update that the poller takes for a command of the owner. *)
Definition authorized (TELEGRAM_CHAT_ID : string) (update : update) : bool :=
  String.eqb (u_chatId update) TELEGRAM_CHAT_ID.


(** The offset after a batch: one more than the id of its last update. *)
Definition next_offset (result : list update) (offset : Z) : Z :=
  default offset ((λ u, update_id u + 1) <$> last result).

(** * Sample inputs *)

Definition sample_getIST (t : Z) : string := pretty t.

Definition private_chat : chat := {| isGroup := false; chat_name := None |}.

Definition asha : contact :=
  {| c_name := Some "Asha"; c_pushname := None;
     c_number := Some "911234567890" |}.

(** A text message [m2] with body "hello". *)
Definition text_message : message :=
  {| msg_id := "m2"; msg_localId := "3EB0A1"; msg_body := "hello";
     msg_timestamp := 1700000000; msg_fromMe := false;
     msg_hasMedia := false; msg_isViewOnce := false;
     msg_getChat := Some private_chat; msg_getContact := Some asha;
     msg_downloadMedia := DownloadNothing |}.

(** The after-reference of its revocation: the content is stripped and
    the chat cannot be fetched. *)
Definition stripped_reference : message :=
  {| msg_id := "m2"; msg_localId := "3EB0A1"; msg_body := EmptyString;
     msg_timestamp := 0; msg_fromMe := false;
     msg_hasMedia := false; msg_isViewOnce := false;
     msg_getChat := None; msg_getContact := None;
     msg_downloadMedia := DownloadNothing |}.

Definition occurs (t : Z) (flt : faults) (e : event) : occurrence :=
  {| o_time := t; o_timer_faults := λ _, false; o_faults := flt;
     o_event := e |}.

(** The world after [m2] arrived, one second after an epoch-2023 start. *)
Definition world_with_m2 : world :=
  run sample_getIST
    [occurs 1700000000500 no_faults Ready;
     occurs 1700000001000 no_faults (Message text_message)]
    (initial 1700000000000).

Definition log_fault : faults :=
  λ s, match s with S_append_log => true | _ => false end.

Definition jpeg : media :=
  {| m_data := "/9j/4AAQSkZJRg=="; m_mimetype := Some "image/jpeg";
     m_ext := ".jpg"; m_sizeBytes := 10 |}.

(** A message [m1] with body "hello" and a JPEG attachment. *)
Definition media_message : message :=
  {| msg_id := "m1"; msg_localId := "3EB0B2"; msg_body := "hello";
     msg_timestamp := 1700000000; msg_fromMe := false;
     msg_hasMedia := true; msg_isViewOnce := false;
     msg_getChat := Some private_chat; msg_getContact := Some asha;
     msg_downloadMedia := Downloaded jpeg |}.

(** A view-once message [m3] with a JPEG attachment and no caption. *)
Definition viewonce_message : message :=
  {| msg_id := "m3"; msg_localId := "3EB0C3"; msg_body := EmptyString;
     msg_timestamp := 1700000000; msg_fromMe := false;
     msg_hasMedia := true; msg_isViewOnce := true;
     msg_getChat := Some private_chat; msg_getContact := Some asha;
     msg_downloadMedia := Downloaded jpeg |}.


(** [m1] arrives one second after the start. *)
Definition world_with_m1 : world :=
  run sample_getIST
    [occurs 1700000000500 no_faults Ready;
     occurs 1700000001000 no_faults (Message media_message)]
    (initial 1700000000000).

(** [ready], then [m1] arrives and is revoked; the append to the log
    fails in that handler: the media and the transcript are already
    moved, no record is persisted, and the entry of [m1] stays in the
    tracker. *)
Definition failed_revoke_of_m1 : list occurrence :=
  [occurs 1700000000500 no_faults Ready;
   occurs 1700000001000 no_faults (Message media_message);
   occurs 1700000100000 log_fault
     (RevokeEveryone media_message (Some media_message))].

(** The clock then passes the dedup window. *)
Definition world_after_failed_revoke : world :=
  advance (λ _, false) 1700000200000
    (run sample_getIST failed_revoke_of_m1 (initial 1700000000000)).

(** The clock then passes the grace period. *)
Definition world_ready_with_m1 : world :=
  advance (λ _, false) 1700000090000 world_with_m1.

(** [ready], then [m2] arrives, and the retention window elapses: the
    timer of the transcript has removed the file, the entry of [m2] is
    still in the tracker. *)
Definition world_with_m2_reaped : world :=
  advance (λ _, false) (1700000001000 + DELETE_WINDOW_MS)
    (run sample_getIST
       [occurs 1700000000500 no_faults Ready;
        occurs 1700000001000 no_faults (Message text_message)]
       (initial 1700000000000)).

(** [m2] arrives and is revoked before any [ready] event. *)
Definition revoke_before_ready : list occurrence :=
  [occurs 1700000001000 no_faults (Message text_message);
   occurs 1700000002000 no_faults (RevokeEveryone stripped_reference None)].

(** [m3] arrives after [m1]-style processing: the world in which the
    view-once block of its handler starts. *)
Definition world_before_viewonce : world :=
  exec (saveMediaToTemp no_faults viewonce_message)
    (advance (λ _, false) 1700000001000 (initial 1700000000000)).

Definition sample_snapshot : snapshot :=
  {| s_body := "hello"; s_senderName := Some "Asha";
     s_senderNumber := Some "911234567890"; s_chatLocation := "Private Chat";
     s_timestamp := 1700000000; s_msgFilePath := None; s_cachedAt := 0 |}.

(** Five hundred messages with distinct ids, one per second. *)
Definition five_hundred_puts : list (Z * string * snapshot) :=
  (λ n : nat, (1700000000000 + 1000 * Z.of_nat n, pretty n, sample_snapshot))
    <$> seq 0 500.

(** * Properties *)

(** ** Facts about the message cache *)

Section CacheFacts.

Implicit Types (c : list (string * snapshot)) (id k : string) (v : snapshot).

Lemma cache_get_None_keys id c : cache_get id c = None ↔ id ∉ c.*1.
Proof.
  induction c as [|[k v] c IH]; simpl.
  - split; [intros _; apply not_elem_of_nil | done].
  - destruct (decide (k = id)) as [->|Hne].
    + split; [done | intros H; exfalso; apply H; left].
    + rewrite IH. split.
      * intros H Hin. apply elem_of_cons in Hin as [?|?]; [congruence|done].
      * intros H Hin. apply H. by right.
Qed.

Lemma cache_set_keys id v c :
  (cache_set id v c).*1
  = match cache_get id c with Some _ => c.*1 | None => (c.*1 ++ [id])%list end.
Proof.
  induction c as [|[k x] c IH]; csimpl; [done|].
  destruct (decide (k = id)) as [->|Hne]; csimpl; [done|].
  rewrite IH. by destruct (cache_get id c).
Qed.

Lemma cache_get_set_eq id v c : cache_get id (cache_set id v c) = Some v.
Proof.
  induction c as [|[k x] c IH]; simpl.
  - by rewrite decide_True.
  - destruct (decide (k = id)) as [->|Hne]; simpl.
    + by rewrite decide_True.
    + by rewrite decide_False.
Qed.

Lemma cache_get_set_ne id k v c :
  k ≠ id → cache_get id (cache_set k v c) = cache_get id c.
Proof.
  intros Hne. induction c as [|[k' x] c IH]; simpl.
  - by rewrite decide_False.
  - destruct (decide (k' = k)) as [->|Hne']; simpl.
    + by rewrite !decide_False.
    + destruct (decide (k' = id)); [done | apply IH].
Qed.

Lemma cache_get_delete_eq id c : cache_get id (cache_delete id c) = None.
Proof.
  apply cache_get_None_keys. unfold cache_delete.
  intros Hin. apply list_elem_of_fmap in Hin as ([k v] & -> & Hin).
  apply list_elem_of_filter in Hin as [Hne _]. by apply Hne.
Qed.

Lemma cache_get_delete_ne id k c :
  k ≠ id → cache_get id (cache_delete k c) = cache_get id c.
Proof.
  intros Hne. unfold cache_delete.
  induction c as [|[k' x] c IH]; [done|].
  rewrite filter_cons. simpl. destruct (decide (k' ≠ k)) as [Hk|Hk]; simpl.
  - destruct (decide (k' = id)); [done | apply IH].
  - apply dec_stable in Hk as ->. by rewrite decide_False.
Qed.

Lemma cache_delete_length k c : (length (cache_delete k c) ≤ length c)%nat.
Proof. apply length_filter. Qed.

Lemma cache_delete_fresh k c : k ∉ c.*1 → cache_delete k c = c.
Proof.
  unfold cache_delete. induction c as [|[k' x] c IH]; [done|].
  intros Hin. rewrite filter_cons. simpl.
  rewrite decide_True; [|intros ->; apply Hin; left].
  f_equal. apply IH. intros ?. apply Hin. by right.
Qed.

(** With distinct keys, evicting the oldest key removes the first entry and
    nothing else. *)
Lemma evict_oldest_tail c : NoDup c.*1 → evict_oldest c = tail c.
Proof.
  destruct c as [|[k x] c]; [done|]. simpl. intros Hnd.
  apply NoDup_cons in Hnd as [Hk _]. unfold cache_delete.
  rewrite filter_cons. simpl. rewrite decide_False; [|by intros H; apply H].
  by apply cache_delete_fresh.
Qed.

Lemma cache_set_NoDup id v c : NoDup c.*1 → NoDup (cache_set id v c).*1.
Proof.
  intros Hnd. rewrite cache_set_keys.
  destruct (cache_get id c) eqn:E; [done|].
  apply NoDup_app. split_and!; [done| |apply NoDup_singleton].
  intros x Hx Hx'. apply list_elem_of_singleton in Hx' as ->.
  by apply cache_get_None_keys in E.
Qed.

Lemma cache_delete_NoDup k c : NoDup c.*1 → NoDup (cache_delete k c).*1.
Proof.
  unfold cache_delete. induction c as [|[k' x] c IH]; [done|].
  simpl. intros Hnd. apply NoDup_cons in Hnd as [Hk Hnd].
  rewrite filter_cons. simpl. destruct (decide (k' ≠ k)); simpl; [|auto].
  apply NoDup_cons. split; [|auto].
  intros Hin. apply Hk. apply list_elem_of_fmap in Hin as (y & -> & Hin).
  apply list_elem_of_filter in Hin as [_ Hin].
  apply list_elem_of_fmap. eauto.
Qed.

Lemma make_room_NoDup c : NoDup c.*1 → NoDup (make_room c).*1.
Proof.
  intros Hnd. unfold make_room. destruct (MAX_CACHE_SIZE <=? length c)%nat; [|done].
  rewrite evict_oldest_tail by done.
  destruct c; [done|]. simpl in *. by apply NoDup_cons in Hnd as [_ ?].
Qed.

Lemma make_room_length c :
  (length c ≤ MAX_CACHE_SIZE → length (make_room c) < MAX_CACHE_SIZE)%nat.
Proof.
  intros Hle. unfold make_room.
  destruct (Nat.leb_spec MAX_CACHE_SIZE (length c)) as [Hge|Hlt]; [|done].
  destruct c as [|[k x] c]; simpl in *; [unfold MAX_CACHE_SIZE in *; lia|].
  unfold cache_delete. rewrite filter_cons. simpl.
  rewrite decide_False; [|by intros H; apply H].
  pose proof (length_filter (λ kv : string * snapshot, kv.1 ≠ k) c). lia.
Qed.

Lemma cache_set_length id v c : (length (cache_set id v c) ≤ S (length c))%nat.
Proof.
  rewrite <-(length_fmap fst (cache_set id v c)), cache_set_keys.
  destruct (cache_get id c); rewrite ?length_app, length_fmap; simpl; lia.
Qed.

Lemma cache_put_length t id v c :
  (length c ≤ MAX_CACHE_SIZE → length (cache_put t id v c) ≤ MAX_CACHE_SIZE)%nat.
Proof.
  intros Hle. unfold cache_put.
  pose proof (make_room_length c Hle).
  pose proof (cache_set_length id (with_cachedAt t v) (make_room c)). lia.
Qed.

Lemma cache_put_NoDup t id v c : NoDup c.*1 → NoDup (cache_put t id v c).*1.
Proof. intros. by apply cache_set_NoDup, make_room_NoDup. Qed.

End CacheFacts.

Lemma messageCache_cacheMessage id data w :
  messageCache (exec (cacheMessage id data) w)
  = cache_put (now w) id data (messageCache w).
Proof. reflexivity. Qed.

Lemma now_cacheMessage id data w : now (exec (cacheMessage id data) w) = now w.
Proof. reflexivity. Qed.

Lemma make_room_suffix (c : list (string * snapshot)) :
  NoDup c.*1 → ∃ evicted, c.*1 = (evicted ++ (make_room c).*1)%list.
Proof.
  intros Hnd. unfold make_room.
  destruct (MAX_CACHE_SIZE <=? length c)%nat; [|by exists []].
  rewrite evict_oldest_tail by done.
  destruct c as [|[k x] c]; [by exists []|]. by exists [k].
Qed.

Lemma messageCache_put_at w p :
  messageCache (put_at w p)
  = cache_put p.1.1 p.1.2 p.2 (messageCache w).
Proof. reflexivity. Qed.

Lemma put_all_invariant ps w :
  NoDup (messageCache w).*1 →
  (length (messageCache w) ≤ MAX_CACHE_SIZE)%nat →
  NoDup (messageCache (put_all ps w)).*1
  ∧ (length (messageCache (put_all ps w)) ≤ MAX_CACHE_SIZE)%nat
  ∧ ∃ older,
      ((messageCache w).*1 ++ insertion_log ps w
       = older ++ (messageCache (put_all ps w)).*1)%list.
Proof.
  revert w. induction ps as [|p ps IH]; intros w Hnd Hlen.
  - split_and!; [done..|]. exists []. simpl. by rewrite app_nil_r.
  - simpl.
    destruct (IH (put_at w p)) as (Hnd' & Hlen' & older & Hlog).
    { rewrite messageCache_put_at. by apply cache_put_NoDup. }
    { rewrite messageCache_put_at. by apply cache_put_length. }
    split_and!; [done..|].
    destruct (make_room_suffix _ Hnd) as [evicted Hev].
    exists (evicted ++ older)%list.
    rewrite <-(assoc_L app), <-Hlog, (assoc_L app _ _ (insertion_log _ _)).
    rewrite (assoc_L app evicted). f_equal.
    rewrite messageCache_put_at. unfold cache_put.
    rewrite cache_set_keys, Hev, <-(assoc_L app).
    by destruct (cache_get p.1.2 (make_room (messageCache w)));
      rewrite ?app_nil_r.
Qed.

(** ** Facts about timers *)

Lemma elem_of_insert_timer tm tm' l :
  tm' ∈ insert_timer tm l ↔ tm' = tm ∨ tm' ∈ l.
Proof.
  induction l as [|x l IH]; simpl.
  - rewrite list_elem_of_singleton. split; [by left|].
    intros [?|Hin]; [done | by apply elem_of_nil in Hin].
  - destruct (tm_due x <=? tm_due tm); rewrite !elem_of_cons, ?IH; tauto.
Qed.

Lemma messageCache_run_timer b tm w :
  messageCache (run_timer b tm w)
  = match tm_action tm with
    | ExpireCache msgId => cache_delete msgId (messageCache w)
    | _ => messageCache w
    end.
Proof.
  unfold run_timer, expire_media, expire_msgfile.
  destruct (tm_action tm); simpl; [done| | |done].
  - by destruct (files w !! path), b.
  - by destruct (files w !! path), b.
Qed.

Lemma nextTimer_run_timer b tm w : nextTimer (run_timer b tm w) = nextTimer w.
Proof.
  unfold run_timer, expire_media, expire_msgfile.
  destruct (tm_action tm); simpl; [done| | |done].
  - by destruct (files w !! path), b.
  - by destruct (files w !! path), b.
Qed.

Lemma now_run_timer b tm w : now (run_timer b tm w) = now w.
Proof.
  unfold run_timer, expire_media, expire_msgfile.
  destruct (tm_action tm); simpl; [done| | |done].
  - by destruct (files w !! path), b.
  - by destruct (files w !! path), b.
Qed.

Lemma nextTimer_fire_due tf t pending w :
  nextTimer (fire_due tf t pending w) = nextTimer w.
Proof.
  revert w. induction pending as [|tm l IH]; intros w; simpl; [done|].
  destruct (tm_due tm <=? t); rewrite IH, ?nextTimer_run_timer; done.
Qed.

Lemma now_fire_due tf t pending w : now (fire_due tf t pending w) = now w.
Proof.
  revert w. induction pending as [|tm l IH]; intros w; simpl; [done|].
  destruct (tm_due tm <=? t); rewrite IH, ?now_run_timer; done.
Qed.

Lemma now_advance tf t w : now (advance tf t w) = Z.max (now w) t.
Proof. reflexivity. Qed.

Lemma nextTimer_advance tf t w : nextTimer (advance tf t w) = nextTimer w.
Proof. unfold advance. simpl. by rewrite nextTimer_fire_due. Qed.

Lemma timers_advance tf t w :
  timers (advance tf t w) = filter (λ tm, t < tm_due tm) (timers w).
Proof. reflexivity. Qed.

Lemma messageCache_advance tf t w :
  messageCache (advance tf t w) = messageCache (fire_due tf t (timers w) w).
Proof. reflexivity. Qed.

(** A timer callback never adds a key to the cache. *)
Lemma cache_get_None_run_timer b tm id w :
  cache_get id (messageCache w) = None →
  cache_get id (messageCache (run_timer b tm w)) = None.
Proof.
  intros Hnone. rewrite messageCache_run_timer.
  destruct (tm_action tm); try done.
  destruct (decide (msgId = id)) as [->|Hne].
  - apply cache_get_delete_eq.
  - by rewrite cache_get_delete_ne.
Qed.

Lemma cache_get_None_fire_due tf t pending id w :
  cache_get id (messageCache w) = None →
  cache_get id (messageCache (fire_due tf t pending w)) = None.
Proof.
  revert w. induction pending as [|tm l IH]; intros w Hnone; simpl; [done|].
  destruct (tm_due tm <=? t); apply IH; [|done].
  by apply cache_get_None_run_timer.
Qed.

(** Once the clock passes the due time of a pending expiry timer of the
    cache, the key is gone. *)
Lemma fire_due_expires_cache tf t pending tm id w :
  tm ∈ pending → tm_due tm ≤ t → tm_action tm = ExpireCache id →
  cache_get id (messageCache (fire_due tf t pending w)) = None.
Proof.
  revert w. induction pending as [|x l IH]; intros w Hin Hdue Hact.
  { by apply elem_of_nil in Hin. }
  simpl. apply elem_of_cons in Hin as [<-|Hin].
  - rewrite (proj2 (Z.leb_le _ _) Hdue).
    apply cache_get_None_fire_due. rewrite messageCache_run_timer, Hact.
    apply cache_get_delete_eq.
  - destruct (tm_due x <=? t); by apply IH.
Qed.

Lemma timers_cacheMessage id data w :
  timers (exec (cacheMessage id data) w)
  = insert_timer {| tm_handle := nextTimer w;
                    tm_due := now w + MESSAGE_CACHE_TTL_MS;
                    tm_action := ExpireCache id |} (timers w).
Proof. reflexivity. Qed.

Lemma nextTimer_cacheMessage id data w :
  nextTimer (exec (cacheMessage id data) w) = S (nextTimer w).
Proof. reflexivity. Qed.

(** Claim C10.  Two [cacheMessage] calls for one id, at [t1] and then at
    [t2] within the retention window of the first: after the second call
    both expiry timers are pending and the cache holds the second
    snapshot; and once the clock reaches [t1 + MESSAGE_CACHE_TTL_MS] the
    id is no longer in the cache, although the window of the second call
    lasts until [t2 + MESSAGE_CACHE_TTL_MS]. *)
Theorem second_put_keeps_first_expiry (w : world) (tf1 tf2 tf3 : nat → bool)
    (msgId : string) (d1 d2 : snapshot) (t1 t2 : Z) :
  now w ≤ t1 → t1 ≤ t2 → t2 < t1 + MESSAGE_CACHE_TTL_MS →
  let w1 := exec (cacheMessage msgId d1) (advance tf1 t1 w) in
  let w2 := exec (cacheMessage msgId d2) (advance tf2 t2 w1) in
  (∃ h1 h2,
     h1 ≠ h2
     ∧ {| tm_handle := h1; tm_due := t1 + MESSAGE_CACHE_TTL_MS;
          tm_action := ExpireCache msgId |} ∈ timers w2
     ∧ {| tm_handle := h2; tm_due := t2 + MESSAGE_CACHE_TTL_MS;
          tm_action := ExpireCache msgId |} ∈ timers w2)
  ∧ cache_get msgId (messageCache w2) = Some (with_cachedAt t2 d2)
  ∧ ∀ t, t1 + MESSAGE_CACHE_TTL_MS ≤ t →
         cache_get msgId (messageCache (advance tf3 t w2)) = None.
Proof.
  intros Hnow Ht Hwin w1 w2.
  assert (Hnow1 : now (advance tf1 t1 w) = t1)
    by (rewrite now_advance; lia).
  assert (Hnow2 : now (advance tf2 t2 w1) = t2).
  { rewrite now_advance. unfold w1. rewrite now_cacheMessage, Hnow1. lia. }
  assert (Hfirst :
    {| tm_handle := nextTimer w; tm_due := t1 + MESSAGE_CACHE_TTL_MS;
       tm_action := ExpireCache msgId |} ∈ timers w2).
  { unfold w2. rewrite timers_cacheMessage. apply elem_of_insert_timer. right.
    rewrite timers_advance. apply list_elem_of_filter. split; [simpl; lia|].
    unfold w1. rewrite timers_cacheMessage, Hnow1, nextTimer_advance.
    apply elem_of_insert_timer. by left. }
  split_and!.
  - exists (nextTimer w), (S (nextTimer w)). split_and!; [lia|done|].
    unfold w2. rewrite timers_cacheMessage, Hnow2, nextTimer_advance.
    unfold w1. rewrite nextTimer_cacheMessage, nextTimer_advance.
    apply elem_of_insert_timer. by left.
  - unfold w2. rewrite messageCache_cacheMessage, Hnow2.
    apply cache_get_set_eq.
  - intros t Hdue. rewrite messageCache_advance.
    by eapply fire_due_expires_cache.
Qed.

Lemma second_put_keeps_first_expiry_witness :
  let w1 := exec (cacheMessage "m1" sample_snapshot)
              (advance (λ _, false) 1000 (initial 0)) in
  let w2 := exec (cacheMessage "m1" sample_snapshot)
              (advance (λ _, false) 5000 w1) in
  cache_get "m1" (messageCache w2) = Some (with_cachedAt 5000 sample_snapshot)
  ∧ cache_get "m1"
      (messageCache
         (advance (λ _, false) (1000 + MESSAGE_CACHE_TTL_MS) w2)) = None.
Proof.
  pose proof (second_put_keeps_first_expiry (initial 0) (λ _, false)
                (λ _, false) (λ _, false) "m1" sample_snapshot
                sample_snapshot 1000 5000) as H.
  destruct H as (_ & Hget & Hgone);
    [simpl; lia | lia | unfold MESSAGE_CACHE_TTL_MS, DELETE_WINDOW_MS; lia |].
  split; [exact Hget | apply Hgone; lia].
Defined.

(** ** Reasoning about computations *)

Lemma wp_ret {A} (a : A) Q w : Q (Returned a) w → wp (ret a) Q w.
Proof. done. Qed.

Lemma wp_throw {A} err (Q : result A → world → Prop) w :
  Q (Threw err) w → wp (throw err) Q w.
Proof. done. Qed.

Lemma wp_bind {A B} (m : M A) (k : A → M B) Q w :
  wp m (λ r w', match r with
                | Returned a => wp (k a) Q w'
                | Threw e => Q (Threw e) w'
                end) w →
  wp (bind m k) Q w.
Proof. unfold wp, bind. by destruct (m w) as [[a|e] w']. Qed.

Lemma wp_try_catch {A} (m : M A) (h : string → M A) Q w :
  wp m (λ r w', match r with
                | Returned a => Q (Returned a) w'
                | Threw e => wp (h e) Q w'
                end) w →
  wp (try_catch m h) Q w.
Proof. unfold wp, try_catch. by destruct (m w) as [[a|e] w']. Qed.

Lemma wp_get Q w : Q (Returned w) w → wp get Q w.
Proof. done. Qed.

Lemma wp_modify f Q w : Q (Returned tt) (f w) → wp (modify f) Q w.
Proof. done. Qed.

Lemma wp_emit e Q w :
  Q (Returned tt) (set_out (out w ++ [e]) w) → wp (emit e) Q w.
Proof. done. Qed.

Lemma wp_clearTimeout h Q w :
  Q (Returned tt)
    (set_timers (filter (λ tm, tm_handle tm ≠ h) (timers w)) w) →
  wp (clearTimeout h) Q w.
Proof. done. Qed.

Lemma wp_mono {A} (m : M A) (Q Q' : result A → world → Prop) w :
  wp m Q w → (∀ r w', Q r w' → Q' r w') → wp m Q' w.
Proof. unfold wp. auto. Qed.

Lemma wp_exec {A} (m : M A) (Q : world → Prop) w :
  wp m (λ _ w', Q w') w → Q (exec m w).
Proof. done. Qed.

Lemma wp_existsSync p Q w :
  Q (Returned (bool_decide (is_Some (files w !! p)))) w →
  wp (existsSync p) Q w.
Proof. done. Qed.

Lemma wp_setTimeout a delay Q w :
  Q (Returned (nextTimer w))
    (set_nextTimer (S (nextTimer w))
       (set_timers
          (insert_timer
             {| tm_handle := nextTimer w; tm_due := now w + delay;
                tm_action := a |} (timers w)) w)) →
  wp (setTimeout a delay) Q w.
Proof. done. Qed.

Lemma wp_sendPushNotification flt s title body Q w :
  Q (Returned tt) (set_out (out w ++ [ENotify title body (negb (flt s))]) w) →
  wp (sendPushNotification flt s title body) Q w.
Proof. done. Qed.

Lemma wp_sendTelegramMedia flt data mime name caption Q w :
  Q (Returned tt)
    (set_out
       (out w ++ [ESendFile data mime name caption (negb (flt S_send_media))])
       w) →
  wp (sendTelegramMedia flt data mime name caption) Q w.
Proof. done. Qed.

(** Symbolic execution of the operation at the head of the computation,
    when it does not branch. *)
Ltac wp_step :=
  lazymatch goal with
  | |- wp (bind _ _) _ _ => apply wp_bind
  | |- wp (try_catch _ _) _ _ => apply wp_try_catch
  | |- wp (ret _) _ _ => apply wp_ret
  | |- wp (throw _) _ _ => apply wp_throw
  | |- wp get _ _ => apply wp_get
  | |- wp (modify _) _ _ => apply wp_modify
  | |- wp (emit _) _ _ => apply wp_emit
  | |- wp (clearTimeout _) _ _ => apply wp_clearTimeout
  | |- wp (existsSync _) _ _ => apply wp_existsSync
  | |- wp (setTimeout _ _) _ _ => apply wp_setTimeout
  | |- wp (sendPushNotification _ _ _ _) _ _ => apply wp_sendPushNotification
  | |- wp (sendTelegramMedia _ _ _ _ _) _ _ => apply wp_sendTelegramMedia
  | |- wp (await _ (Some _)) _ _ => apply wp_ret
  | |- wp (await _ None) _ _ => apply wp_throw
  end.

Ltac wp_go := repeat wp_step.

(** *** Steps that only append to the list of effects *)

Lemma quiet_same_out w w' :
  now w' = now w → readyTimestamp w' = readyTimestamp w →
  messageCache w' = messageCache w →
  processedRevokes w' = processedRevokes w → out w' = out w →
  quiet w w'.
Proof.
  intros. split; try done. exists []. by rewrite app_nil_r.
Qed.

Lemma quiet_refl w : quiet w w.
Proof. by apply quiet_same_out. Qed.

Lemma quiet_trans w1 w2 w3 : quiet w1 w2 → quiet w2 w3 → quiet w1 w3.
Proof.
  intros [? ? ? ? (l1 & ? & ?)] [? ? ? ? (l2 & ? & ?)].
  split; try congruence.
  exists (l1 ++ l2)%list. split; [|by apply Forall_app].
  rewrite (assoc_L app). congruence.
Qed.

Lemma quiet_emit e w :
  is_persist e = false → quiet w (set_out (out w ++ [e]) w).
Proof. intros He. split; try done. exists [e]. split; [done | by constructor]. Qed.

Lemma quiet_set_files fs w : quiet w (set_files fs w).
Proof. by apply quiet_same_out. Qed.

Lemma quiet_set_timers ts w : quiet w (set_timers ts w).
Proof. by apply quiet_same_out. Qed.

Lemma quiet_set_nextTimer n w : quiet w (set_nextTimer n w).
Proof. by apply quiet_same_out. Qed.

Lemma quiet_set_mediaTracker mt w : quiet w (set_mediaTracker mt w).
Proof. by apply quiet_same_out. Qed.

Lemma quiet_elem_of e w w' : quiet w w' → e ∈ out w → e ∈ out w'.
Proof. intros [_ _ _ _ (l & -> & _)] ?. apply elem_of_app. by left. Qed.

Lemma safe_calm {A} (m : M A) : safe m → calm m.
Proof. intros H w. apply H. Qed.

Lemma calm_ret {A} (a : A) : calm (ret a).
Proof. intros w. apply quiet_refl. Qed.

Lemma calm_throw {A} err : calm (@throw A err).
Proof. intros w. apply quiet_refl. Qed.

Lemma calm_bind {A B} (m : M A) (k : A → M B) :
  calm m → (∀ a, calm (k a)) → calm (bind m k).
Proof.
  intros Hm Hk w. specialize (Hm w). unfold bind.
  destruct (m w) as [[a|e] w']; simpl in *; [|done].
  eapply quiet_trans; [done | apply Hk].
Qed.

Lemma calm_try_catch {A} (m : M A) h :
  calm m → (∀ e, calm (h e)) → calm (try_catch m h).
Proof.
  intros Hm Hh w. specialize (Hm w). unfold try_catch.
  destruct (m w) as [[a|e] w']; simpl in *; [done|].
  eapply quiet_trans; [done | apply Hh].
Qed.

Lemma calm_get : calm get.
Proof. intros w. apply quiet_refl. Qed.

Lemma calm_emit e : is_persist e = false → calm (emit e).
Proof. intros He w. by apply quiet_emit. Qed.

Lemma calm_setTimeout a delay : calm (setTimeout a delay).
Proof.
  intros w. eapply quiet_trans; [apply quiet_set_timers|].
  apply quiet_set_nextTimer.
Qed.

Lemma calm_modify_tracker f :
  calm (modify (λ w, set_mediaTracker (f w) w)).
Proof. intros w. apply quiet_set_mediaTracker. Qed.

Lemma calm_clearTimeout h : calm (clearTimeout h).
Proof. intros w. apply quiet_set_timers. Qed.

Lemma safe_ret {A} (a : A) : safe (ret a).
Proof. intros w. split; [apply quiet_refl | by exists a]. Qed.

Lemma safe_bind {A B} (m : M A) (k : A → M B) :
  safe m → (∀ a, safe (k a)) → safe (bind m k).
Proof.
  intros Hm Hk w. destruct (Hm w) as [Hq [a Ha]]. unfold bind.
  destruct (m w) as [r w']; simpl in *; subst r.
  destruct (Hk a w') as [Hq' Hr]. split; [by eapply quiet_trans | done].
Qed.

Lemma safe_try_catch {A} (m : M A) h :
  calm m → (∀ e, safe (h e)) → safe (try_catch m h).
Proof.
  intros Hm Hh w. specialize (Hm w). unfold try_catch.
  destruct (m w) as [[a|e] w']; simpl in *; [split; [done | by exists a]|].
  destruct (Hh e w') as [Hq' Hr]. split; [by eapply quiet_trans | done].
Qed.

Lemma safe_get : safe get.
Proof. intros w. split; [apply quiet_refl | by exists w]. Qed.

Lemma safe_emit e : is_persist e = false → safe (emit e).
Proof. intros He w. split; [by apply quiet_emit | by exists tt]. Qed.

Lemma safe_setTimeout a delay : safe (setTimeout a delay).
Proof. intros w. split; [apply calm_setTimeout | by eexists]. Qed.

Lemma safe_modify_tracker f :
  safe (modify (λ w, set_mediaTracker (f w) w)).
Proof. intros w. split; [apply quiet_set_mediaTracker | by exists tt]. Qed.

Lemma safe_clearTimeout h : safe (clearTimeout h).
Proof. intros w. split; [apply quiet_set_timers | by exists tt]. Qed.

Lemma safe_existsSync p : safe (existsSync p).
Proof. apply safe_bind; [apply safe_get | intros; apply safe_ret]. Qed.

Lemma safe_readMediaAsBase64 flt p : safe (readMediaAsBase64 flt p).
Proof.
  apply safe_bind; [apply safe_get | intros w].
  destruct (files w !! p), (flt S_read_media); apply safe_ret.
Qed.

Lemma safe_sendPushNotification flt s title body :
  safe (sendPushNotification flt s title body).
Proof. by apply safe_emit. Qed.

Lemma safe_sendTelegramMedia flt data mime name caption :
  safe (sendTelegramMedia flt data mime name caption).
Proof. by apply safe_emit. Qed.

Lemma calm_writeFileSync flt s p content : calm (writeFileSync flt s p content).
Proof.
  unfold writeFileSync. destruct (flt s); [apply calm_throw|].
  apply calm_bind; [|intros; by apply calm_emit].
  intros w. apply quiet_set_files.
Qed.

Lemma calm_copyFileSync flt s src dst : calm (copyFileSync flt s src dst).
Proof.
  apply calm_bind; [apply calm_get | intros w].
  destruct (files w !! src); [|apply calm_throw].
  destruct (flt s); [apply calm_throw|].
  apply calm_bind; [|intros; by apply calm_emit].
  intros w'. apply quiet_set_files.
Qed.

Lemma calm_renameSync flt s src dst : calm (renameSync flt s src dst).
Proof.
  apply calm_bind; [apply calm_get | intros w].
  destruct (files w !! src); [|apply calm_throw].
  destruct (flt s); [apply calm_throw|].
  apply calm_bind; [|intros; by apply calm_emit].
  intros w'. apply quiet_set_files.
Qed.

(** A rename of a file that exists does not throw unless its site
    faults. *)
Lemma renameSync_returns flt s src dst w :
  flt s = false → is_Some (files w !! src) →
  ∃ w', renameSync flt s src dst w = (Returned tt, w').
Proof.
  intros Hs [content Hc]. unfold renameSync, bind, get. simpl.
  rewrite Hc, Hs. eauto.
Qed.

Lemma bind_returned {A B} (m : M A) (k : A → M B) w a w' :
  m w = (Returned a, w') → bind m k w = k a w'.
Proof. unfold bind. by intros ->. Qed.

Lemma bind_threw {A B} (m : M A) (k : A → M B) w e w' :
  m w = (Threw e, w') → bind m k w = (Threw e, w').
Proof. unfold bind. by intros ->. Qed.

Lemma safe_run {A} (m : M A) w :
  safe m → ∃ a w', m w = (Returned a, w') ∧ quiet w w'.
Proof.
  intros H. destruct (H w) as [Hq [a Ha]].
  destruct (m w) as [r w'] eqn:E. simpl in *. subst. eauto.
Qed.

Lemma wp_renameSync flt s src dst content Q w :
  files w !! src = Some content → flt s = false →
  Q (Returned tt)
    (set_out (out w ++ [EFsRename src dst])
       (set_files (<[dst := content]> (delete src (files w))) w)) →
  wp (renameSync flt s src dst) Q w.
Proof.
  intros Hc Hs HQ. unfold wp, renameSync, bind, get. simpl.
  by rewrite Hc, Hs.
Qed.

(** ** The blocks of the revoke handler *)

Section RevokeBlocks.

Variable getIST : Z → string.

Lemma calm_promoteTracked flt tracked : calm (promoteTracked flt tracked).
Proof.
  destruct tracked as [[[slot|] [mslot|]]|]; simpl;
    repeat first
      [ apply calm_ret
      | apply calm_clearTimeout
      | apply calm_renameSync
      | apply safe_calm, safe_existsSync
      | apply calm_bind
      | intros [] ].
Qed.

Lemma calm_promoteCachedFile flt tracked cached :
  calm (promoteCachedFile flt tracked cached).
Proof.
  destruct tracked, cached as [[? ? ? ? ? [path|] ?]|]; simpl;
    try apply calm_ret.
  destruct (String.eqb path EmptyString); [apply calm_ret|].
  apply calm_try_catch; [|intros; apply calm_ret].
  apply calm_bind; [apply safe_calm, safe_existsSync|].
  intros []; [apply calm_renameSync | apply calm_ret].
Qed.

Lemma safe_promoteCachedFile flt tracked cached :
  safe (promoteCachedFile flt tracked cached).
Proof.
  destruct tracked, cached as [[? ? ? ? ? [path|] ?]|]; simpl;
    try apply safe_ret.
  destruct (String.eqb path EmptyString); [apply safe_ret|].
  apply safe_try_catch; [|intros; apply safe_ret].
  apply calm_bind; [apply safe_calm, safe_existsSync|].
  intros []; [apply calm_renameSync | apply calm_ret].
Qed.

Lemma safe_sendDeletedMedia flt tracked v :
  safe (sendDeletedMedia flt tracked v).
Proof.
  destruct tracked as [[[slot|] ?]|]; simpl; try apply safe_ret.
  apply safe_bind; [apply safe_existsSync | intros saved].
  apply safe_bind; [apply safe_readMediaAsBase64 | intros data].
  destruct (truthy data); [apply safe_sendTelegramMedia | apply safe_ret].
Qed.

(** Without a fault at its two rename sites, the promotion block does
    not throw. *)
Lemma promoteTracked_returns flt tracked w :
  flt S_rename_media = false → flt S_rename_msgfile = false →
  ∃ mediaRef, (promoteTracked flt tracked w).1 = Returned mediaRef.
Proof.
  intros Hm Hf.
  change (wp (promoteTracked flt tracked)
            (λ (r : result string) _, ∃ mediaRef, r = Returned mediaRef) w).
  destruct tracked as [[media msgfile]|]; simpl; [|wp_go; eauto].
  assert (Hrest : ∀ (Q : result unit → world → Prop) w',
    (∀ w'', Q (Returned tt) w'') →
    wp (match msgfile with
        | Some slot =>
            clearTimeout (msgFileTimeout slot);;
            present ← existsSync (msgFilePath slot);
            if present
            then renameSync flt S_rename_msgfile (msgFilePath slot)
                   (path_join SAVED_MEDIA_DIR (msgFilename slot))
            else ret tt
        | None => ret tt
        end) Q w').
  { intros Q w' HQ. destruct msgfile as [slot|]; wp_go; [|done].
    case_bool_decide as Hp; [|by wp_go].
    destruct Hp as [content Hp]. by eapply wp_renameSync. }
  destruct media as [slot|]; wp_go.
  - case_bool_decide as Hp.
    + destruct Hp as [content Hp]. wp_step.
      eapply wp_renameSync; [done..|]. wp_go.
      apply Hrest. intros. wp_go. eauto.
    + wp_go. apply Hrest. intros. wp_go. eauto.
  - apply Hrest. intros. wp_go. eauto.
Qed.

End RevokeBlocks.

Section Reconcile.

Variable getIST : Z → string.

(** When no unguarded call site faults, the reconciliation runs to its
    end: the promotion blocks, then the three effects, then the media
    send, then the cleanup. *)
Lemma reconcile_completes flt afterMsg beforeMsg w :
  no_unguarded_fault flt →
  let v := resolve_fields afterMsg beforeMsg (messageCache w) in
  let tracked := mediaTracker w !! v_msgId v in
  ∃ mediaRef w1 w2 w3,
    promoteTracked flt tracked w = (Returned mediaRef, w1)
    ∧ promoteCachedFile flt tracked (v_cached v) w1 = (Returned tt, w2)
    ∧ sendDeletedMedia flt tracked v
        (set_out
           (out w2 ++ reconcile_effects getIST flt afterMsg beforeMsg w mediaRef) w2)
      = (Returned tt, w3)
    ∧ reconcile getIST flt afterMsg beforeMsg w
      = (Returned tt, cleanup tracked (v_msgId v) w3).
Proof.
  intros (Hm & Hf & Hl) v tracked.
  destruct (promoteTracked_returns flt tracked w Hm Hf) as [mediaRef Hp].
  destruct (promoteTracked flt tracked w) as [r w1] eqn:E1.
  simpl in Hp. subst r.
  pose proof (calm_promoteTracked flt tracked w) as Hq1.
  rewrite E1 in Hq1. simpl in Hq1.
  destruct (safe_run (promoteCachedFile flt tracked (v_cached v)) w1
              (safe_promoteCachedFile _ _ _)) as ([] & w2 & E2 & Hq2).
  set (w2' := set_out
     (out w2 ++ reconcile_effects getIST flt afterMsg beforeMsg w mediaRef) w2).
  destruct (safe_run (sendDeletedMedia flt tracked v) w2'
              (safe_sendDeletedMedia _ _ _)) as ([] & w3 & E3 & Hq3).
  exists mediaRef, w1, w2, w3. split_and!; [done..|].
  unfold reconcile. unfold bind at 1. unfold get at 1.
  fold v. fold tracked.
  rewrite (bind_returned _ _ _ _ _ E1).
  rewrite (bind_returned _ _ _ _ _ E2).
  unfold appendLog. rewrite Hl.
  assert (Hnow : now w2 = now w).
  { rewrite (quiet_now _ _ Hq2). apply (quiet_now _ _ Hq1). }
  unfold saveDeletedRecord, sendPushNotification, emit, modify, bind, get.
  simpl. rewrite Hnow.
  replace (set_out _ _) with w2'.
  { by rewrite E3. }
  unfold w2', reconcile_effects. fold v. fold tracked.
  destruct w2. unfold set_out. simpl. f_equal.
  by rewrite <-!(assoc_L app).
Qed.

(** The handler lets no exception escape. *)
Lemma on_message_revoke_everyone_no_throw flt afterMsg beforeMsg w :
  throws (on_message_revoke_everyone getIST flt afterMsg beforeMsg) w = false.
Proof.
  unfold throws, on_message_revoke_everyone, bind at 1, get at 1.
  destruct (_ <? _); [done|]. case_bool_decide; [done|].
  unfold bind, modify, setTimeout, try_catch, fallback_notification. simpl.
  by destruct (reconcile _ _ _ _ _) as [[[]|err] w'].
Qed.

Lemma on_message_revoke_everyone_accepted flt afterMsg beforeMsg w :
  accepted afterMsg w →
  on_message_revoke_everyone getIST flt afterMsg beforeMsg w
  = try_catch (reconcile getIST flt afterMsg beforeMsg)
      (fallback_notification flt) (marked (msg_id afterMsg) w).
Proof.
  intros [Hgrace Hnew]. unfold on_message_revoke_everyone.
  unfold bind at 1, get at 1.
  rewrite (proj2 (Z.ltb_ge _ _) Hgrace), bool_decide_eq_false_2 by done.
  reflexivity.
Qed.

Lemma on_message_revoke_everyone_grace flt afterMsg beforeMsg w :
  now w - readyTimestamp w < STARTUP_GRACE_MS →
  on_message_revoke_everyone getIST flt afterMsg beforeMsg w
  = (Returned tt, w).
Proof.
  intros Hgrace. unfold on_message_revoke_everyone, bind, get.
  by rewrite (proj2 (Z.ltb_lt _ _) Hgrace).
Qed.

Lemma on_message_revoke_everyone_duplicate flt afterMsg beforeMsg w :
  msg_id afterMsg ∈ processedRevokes w →
  on_message_revoke_everyone getIST flt afterMsg beforeMsg w
  = (Returned tt, w).
Proof.
  intros Hdup. unfold on_message_revoke_everyone, bind, get.
  destruct (_ <? _); [done|]. by rewrite bool_decide_eq_true_2.
Qed.

End Reconcile.

Section RevokeTheorems.

Variable getIST : Z → string.

Lemma chat_location_known c : String.eqb (chat_location c) UNKNOWN_CHAT = false.
Proof. unfold chat_location. by destruct (isGroup c). Qed.

(** Without a before-reference every sender and body field is still
    unresolved when the cache is consulted, and the chat location is
    unresolved exactly when [getChat] failed. *)
Lemma resolve_fields_no_before afterMsg cache cached :
  cache_get (msg_id afterMsg) cache = Some cached →
  resolve_fields afterMsg None cache
  = {| v_chatLocation :=
         match msg_getChat afterMsg with
         | Some chat => chat_location chat
         | None => s_chatLocation cached
         end;
       v_senderName := s_senderName cached;
       v_senderNumber := s_senderNumber cached;
       v_originalText := s_body cached;
       v_msgId := msg_id afterMsg; v_cached := Some cached |}.
Proof.
  intros Hc. unfold resolve_fields. rewrite Hc. f_equal.
  destruct (msg_getChat afterMsg); [|done].
  by rewrite chat_location_known.
Qed.

Lemma reconcile_effects_attempted flt afterMsg beforeMsg w :
  accepted afterMsg w → no_unguarded_fault flt →
  ∃ mediaRef,
    ∀ e, e ∈ reconcile_effects getIST flt afterMsg beforeMsg
               (marked (msg_id afterMsg) w) mediaRef →
         e ∈ out (exec (on_message_revoke_everyone getIST flt afterMsg
                          beforeMsg) w).
Proof.
  intros Hadm Hflt. unfold exec.
  rewrite on_message_revoke_everyone_accepted by done.
  destruct (reconcile_completes getIST flt afterMsg beforeMsg
              (marked (msg_id afterMsg) w) Hflt)
    as (mediaRef & w1 & w2 & w3 & _ & _ & E3 & Hrun).
  exists mediaRef. intros e He. unfold try_catch. rewrite Hrun. simpl.
  pose proof (safe_sendDeletedMedia flt
    (mediaTracker (marked (msg_id afterMsg) w)
     !! v_msgId (resolve_fields afterMsg beforeMsg
                   (messageCache (marked (msg_id afterMsg) w))))
    (resolve_fields afterMsg beforeMsg
       (messageCache (marked (msg_id afterMsg) w)))
    (set_out (out w2 ++ reconcile_effects getIST flt afterMsg beforeMsg
                          (marked (msg_id afterMsg) w) mediaRef) w2)) as [Hq _].
  rewrite E3 in Hq. simpl in Hq.
  assert (He3 : e ∈ out w3).
  { eapply quiet_elem_of; [done|]. simpl. apply elem_of_app. by right. }
  unfold cleanup. by destruct (mediaTracker _ !! _).
Qed.

(** Claim C1.  A revoke event without a before-reference, accepted by the
    two gates and not interrupted by a fault at an unguarded call site,
    whose after-reference id is a key of the message cache: the sender
    name, sender number and original text of the handler are those of the
    cached snapshot, and its chat location is the one fetched from the
    after-reference when [getChat] succeeds and the one of the snapshot
    otherwise; the record handed to [saveDeletedRecord] and the
    notification carry these values. *)
Theorem revoke_without_before_resolves_from_cache
    (flt : faults) (afterMsg : message) (w : world) (cached : snapshot) :
  accepted afterMsg w → no_unguarded_fault flt →
  cache_get (msg_id afterMsg) (messageCache w) = Some cached →
  let w' := exec (on_message_revoke_everyone getIST flt afterMsg None) w in
  let location :=
    match msg_getChat afterMsg with
    | Some chat => chat_location chat
    | None => s_chatLocation cached
    end in
  let time := getIST (now w) in
  let sent := sent_time getIST None (Some cached) in
  resolve_fields afterMsg None (messageCache w)
  = {| v_chatLocation := location; v_senderName := s_senderName cached;
       v_senderNumber := s_senderNumber cached;
       v_originalText := s_body cached;
       v_msgId := msg_id afterMsg; v_cached := Some cached |}
  ∧ (∃ file mediaFilename written,
       EPersist file
         {| r_time := time; r_where := location;
            r_senderName := s_senderName cached;
            r_senderNumber := s_senderNumber cached;
            r_originalMessage := s_body cached; r_sentTime := sent;
            r_mediaFilename := mediaFilename |} written ∈ out w')
  ∧ (∃ delivered,
       ENotify (deleted_title (s_senderName cached))
         (deleted_body location (s_senderName cached)
            (s_senderNumber cached) sent time (s_body cached))
         delivered ∈ out w').
Proof.
  intros Hadm Hflt Hc w' location time sent.
  pose proof (resolve_fields_no_before afterMsg _ _ Hc) as Hv.
  split; [done|].
  destruct (reconcile_effects_attempted flt afterMsg None w Hadm Hflt)
    as [mediaRef Hin].
  unfold reconcile_effects in Hin.
  change (messageCache (marked (msg_id afterMsg) w)) with (messageCache w)
    in Hin.
  change (now (marked (msg_id afterMsg) w)) with (now w) in Hin.
  rewrite Hv in Hin. simpl in Hin. split.
  - eexists _, _, _. apply Hin. right. left.
  - eexists. apply Hin. right. right. left.
Qed.

End RevokeTheorems.

Lemma revoke_without_before_resolves_from_cache_witness :
  let w := advance (λ _, false) 1700000090000 world_with_m2 in
  let cached :=
    {| s_body := "hello"; s_senderName := Some "Asha";
       s_senderNumber := Some "911234567890";
       s_chatLocation := "Private Chat"; s_timestamp := 1700000000;
       s_msgFilePath := Some "media/temp/1700000001000_Asha_3EB0A1.txt";
       s_cachedAt := 1700000001000 |} in
  accepted stripped_reference w
  ∧ no_unguarded_fault no_faults
  ∧ cache_get "m2" (messageCache w) = Some cached
  ∧ ∃ file mediaFilename written,
      EPersist file
        {| r_time := sample_getIST (now w); r_where := "Private Chat";
           r_senderName := Some "Asha";
           r_senderNumber := Some "911234567890";
           r_originalMessage := "hello";
           r_sentTime := sent_time sample_getIST None (Some cached);
           r_mediaFilename := mediaFilename |} written
      ∈ out (exec (on_message_revoke_everyone sample_getIST no_faults
                     stripped_reference None) w).
Proof.
  intros w cached.
  assert (Hadm : accepted stripped_reference w).
  { split; [vm_compute; discriminate | apply not_elem_of_empty]. }
  assert (Hflt : no_unguarded_fault no_faults) by done.
  assert (Hc : cache_get "m2" (messageCache w) = Some cached)
    by (vm_compute; reflexivity).
  split_and!; [done..|].
  apply (revoke_without_before_resolves_from_cache sample_getIST no_faults
           stripped_reference w cached Hadm Hflt Hc).
Defined.

Section FailureContainment.

Variable getIST : Z → string.


End FailureContainment.


(** ** Evaluations at the inputs on which the code departs from the spec *)

(** Claim C4, at a failing input.  [m2] arrives and is revoked while no
    [ready] event has occurred: [readyTimestamp] is still 0, the grace
    test fails, and the event is deduplicated, reconciled, persisted and
    notified, and its transcript is promoted. *)
Theorem revoke_before_ready_is_processed :
  let w := run sample_getIST revoke_before_ready (initial 1700000000000) in
  readyTimestamp w = 0
  ∧ "m2" ∈ processedRevokes w
  ∧ r_originalMessage <$> persisted w = ["hello"]
  ∧ fst <$> notified w = [deleted_title (Some "Asha")]
  ∧ file_operations w
    = [EFsWrite "media/temp/1700000001000_Asha_3EB0A1.txt";
       EFsRename "media/temp/1700000001000_Asha_3EB0A1.txt"
         "media/saved/1700000001000_Asha_3EB0A1.txt"].
Proof.
  split_and!; vm_compute; reflexivity.
Qed.

(** Claim C6, at a failing input.  The entry of [m1] holds a media and a
    transcript artifact; [saveMediaToTemp] for the same id (the message
    delivered again) replaces the entry, and the transcript artifact is
    no longer in it. *)
Theorem media_attach_after_transcript_drops_transcript :
  let w := advance (λ _, false) 1700000005000 world_with_m1 in
  let w' := exec (saveMediaToTemp no_faults media_message) w in
  (msgFilePath <$> (mediaTracker w !! "m1" ≫= t_msgfile)
   = Some "media/temp/1700000001000_Asha_3EB0B2.txt")
  ∧ (filePath <$> (mediaTracker w' !! "m1" ≫= t_media)
     = Some "media/temp/1700000005000_3EB0B2.jpg")
  ∧ mediaTracker w' !! "m1" ≫= t_msgfile = None.
Proof. split_and!; vm_compute; reflexivity. Qed.

(** ** The blocks of the [message] handler *)

Lemma safe_saveMediaToTemp flt msg : safe (saveMediaToTemp flt msg).
Proof.
  apply safe_try_catch; [|intros; apply safe_ret].
  destruct (negb (msg_hasMedia msg)); [apply calm_ret|].
  destruct (msg_downloadMedia msg) as [| |media];
    [apply calm_throw | apply calm_ret |].
  destruct (String.eqb (m_data media) EmptyString); [apply calm_ret|].
  destruct (_ <? _); [apply calm_ret|].
  apply calm_bind; [apply safe_calm, safe_get | intros w].
  apply calm_bind; [apply calm_writeFileSync | intros _].
  apply calm_bind; [apply calm_setTimeout | intros h].
  apply calm_bind; [|intros; apply calm_ret].
  apply (calm_modify_tracker (λ w, <[_ := _]> (mediaTracker w))).
Qed.

Lemma safe_viewOnceCapture flt msg senderName senderActualNumber
    chatLocation time messageBody :
  safe (viewOnceCapture flt msg senderName senderActualNumber chatLocation
          time messageBody).
Proof.
  apply safe_try_catch; [|intros; apply safe_ret].
  apply calm_bind; [apply safe_calm, safe_get | intros w].
  destruct (mediaTracker w !! msg_id msg) as [tr|]; [|apply calm_ret].
  apply calm_bind.
  { destruct (t_media tr); [apply calm_ret | apply calm_throw]. }
  intros slot.
  apply calm_bind; [apply safe_calm, safe_existsSync | intros present].
  apply calm_bind.
  { destruct present; [apply calm_copyFileSync | apply calm_ret]. }
  intros _.
  apply calm_bind; [apply safe_calm, safe_sendPushNotification | intros _].
  apply calm_bind; [apply safe_calm, safe_readMediaAsBase64 | intros data].
  destruct (truthy data);
    [apply safe_calm, safe_sendTelegramMedia | apply calm_ret].
Qed.

Lemma calm_attachTranscript msgId slot : calm (attachTranscript msgId slot).
Proof. intros w. apply quiet_set_mediaTracker. Qed.

Section MessageBlocks.

Variable getIST : Z → string.

Lemma safe_saveMessageFile flt msg senderName senderActualNumber
    chatLocation time messageBody saved :
  safe (saveMessageFile getIST flt msg senderName senderActualNumber
          chatLocation time messageBody saved).
Proof.
  destruct senderName as [name|]; [|apply safe_ret]. simpl.
  apply safe_bind; [apply safe_get | intros w].
  apply safe_try_catch; [|intros; apply safe_ret].
  apply calm_bind; [apply calm_writeFileSync | intros _].
  apply calm_bind; [apply calm_setTimeout | intros h].
  apply calm_bind; [apply calm_attachTranscript | intros; apply calm_ret].
Qed.

(** When its chat and contact can be fetched and the log can be written,
    the [message] handler runs to its end: the media block, the log
    entry, the transcript block, then [cacheMessage]. *)
Lemma on_message_completes flt msg chat contact w :
  msg_getChat msg = Some chat → msg_getContact msg = Some contact →
  flt S_append_log = false →
  ∃ saved w2 msgFilePath w3,
    quiet w w2
    ∧ quiet
        (set_out
           (out w2 ++ [ELog (message_log_entry (getIST (now w))
                               (chat_location chat) (sender_name contact)
                               (c_number contact)
                               (body_or_marker (msg_body msg))
                               (temp_media_ref saved))]) w2) w3
    ∧ on_message getIST flt msg w
      = (Returned tt,
         exec (cacheMessage (msg_id msg)
                 (message_snapshot msg chat contact msgFilePath)) w3).
Proof.
  intros Hchat Hcontact Hlog.
  destruct (safe_run
    (if msg_hasMedia msg then saveMediaToTemp flt msg else ret None) w)
    as (saved & w1 & E1 & Hq1).
  { destruct (msg_hasMedia msg); [apply safe_saveMediaToTemp | apply safe_ret]. }
  destruct (safe_run
    (if msg_isViewOnce msg && msg_hasMedia msg
     then viewOnceCapture flt msg (sender_name contact) (c_number contact)
            (chat_location chat) (getIST (now w))
            (body_or_marker (msg_body msg))
     else ret tt) w1) as ([] & w2 & E2 & Hq2).
  { destruct (_ && _); [apply safe_viewOnceCapture | apply safe_ret]. }
  set (w2' := set_out
    (out w2 ++ [ELog (message_log_entry (getIST (now w))
                        (chat_location chat) (sender_name contact)
                        (c_number contact) (body_or_marker (msg_body msg))
                        (temp_media_ref saved))]) w2).
  destruct (safe_run
    (saveMessageFile getIST flt msg (sender_name contact) (c_number contact)
       (chat_location chat) (getIST (now w))
       (body_or_marker (msg_body msg)) saved) w2'
    (safe_saveMessageFile _ _ _ _ _ _ _ _))
    as (msgFilePath & w3 & E3 & Hq3).
  exists saved, w2, msgFilePath, w3.
  split_and!; [by eapply quiet_trans | done |].
  unfold on_message, try_catch. rewrite Hchat, Hcontact. simpl.
  unfold bind at 1. unfold ret at 1. unfold bind at 1. unfold ret at 1.
  unfold bind at 1. unfold get at 1.
  rewrite (bind_returned _ _ _ _ _ E1).
  rewrite (bind_returned _ _ _ _ _ E2).
  unfold appendLog. rewrite Hlog.
  unfold bind at 1. unfold emit at 1. unfold modify at 1. fold w2'.
  rewrite (bind_returned _ _ _ _ _ E3).
  unfold exec. by destruct (cacheMessage _ _ w3) as [[[]|] ?] eqn:E4.
Qed.

End MessageBlocks.

(** ** Invariants of computations *)

Section Inv.

Context (P : world → Prop).

Lemma inv_ret {A} (a : A) : inv P (ret a).
Proof. by intros w. Qed.

Lemma inv_throw {A} err : inv P (@throw A err).
Proof. by intros w. Qed.

Lemma inv_bind {A B} (m : M A) (k : A → M B) :
  inv P m → (∀ a, inv P (k a)) → inv P (bind m k).
Proof.
  intros Hm Hk w HP. specialize (Hm w HP). unfold bind.
  destruct (m w) as [[a|e] w']; simpl in *; [by apply Hk | done].
Qed.

Lemma inv_try_catch {A} (m : M A) h :
  inv P m → (∀ e, inv P (h e)) → inv P (try_catch m h).
Proof.
  intros Hm Hh w HP. specialize (Hm w HP). unfold try_catch.
  destruct (m w) as [[a|e] w']; simpl in *; [done | by apply Hh].
Qed.

Lemma inv_bind_get {B} (k : world → M B) :
  (∀ w, P w → inv P (k w)) → inv P (bind get k).
Proof. intros Hk w HP. by apply (Hk w HP w HP). Qed.

Lemma inv_calm {A} (m : M A) : stable P → calm m → inv P m.
Proof. intros HP Hm w Hw. eapply HP; [apply Hm | done]. Qed.

Lemma inv_modify f : (∀ w, P w → P (f w)) → inv P (modify f).
Proof. intros Hf w HP. by apply Hf. Qed.

Lemma inv_exec {A} (m : M A) w : inv P m → P w → P (exec m w).
Proof. intros Hm. apply Hm. Qed.

End Inv.

(** ** Bodies are never empty *)

Lemma body_or_marker_nonempty body : body_or_marker body ≠ EmptyString.
Proof.
  unfold body_or_marker. destruct (String.eqb_spec body EmptyString); [done|done].
Qed.

Lemma persisted_app w l :
  persisted (set_out (out w ++ l) w)
  = (persisted w
     ++ omap (λ e, match e with EPersist _ r _ => Some r | _ => None end) l)%list.
Proof. unfold persisted. simpl. apply omap_app. Qed.

Lemma omap_no_persist added :
  Forall (λ e, is_persist e = false) added →
  omap (λ e, match e with EPersist _ r _ => Some r | _ => None end) added
  = [].
Proof.
  induction 1 as [|e l He _ IH]; [done|].
  destruct e; csimpl in *; done.
Qed.

Lemma persisted_quiet w w' : quiet w w' → persisted w' = persisted w.
Proof.
  intros [_ _ _ _ (added & Hout & Hnone)]. unfold persisted.
  rewrite Hout, omap_app, (omap_no_persist added) by done. apply app_nil_r.
Qed.

Lemma nonempty_bodies_stable : stable nonempty_bodies.
Proof.
  intros w w' Hq [Hc Hp]. split.
  - by rewrite (quiet_cache _ _ Hq).
  - by rewrite (persisted_quiet _ _ Hq).
Qed.

Lemma cache_get_delete_Some id k c s :
  cache_get id (cache_delete k c) = Some s → cache_get id c = Some s.
Proof.
  destruct (decide (k = id)) as [->|Hne].
  - by rewrite cache_get_delete_eq.
  - by rewrite cache_get_delete_ne.
Qed.

Lemma cache_get_make_room_Some id c s :
  cache_get id (make_room c) = Some s → cache_get id c = Some s.
Proof.
  unfold make_room, evict_oldest.
  destruct (MAX_CACHE_SIZE <=? length c)%nat; [|done].
  destruct c as [|[k x] c]; [done|]. apply cache_get_delete_Some.
Qed.

Lemma cache_get_put_Some t id k data c s :
  cache_get id (cache_put t k data c) = Some s →
  s = with_cachedAt t data ∨ cache_get id c = Some s.
Proof.
  unfold cache_put. destruct (decide (k = id)) as [->|Hne].
  - rewrite cache_get_set_eq. intros [= <-]. by left.
  - rewrite cache_get_set_ne by done. intros H. right.
    by apply cache_get_make_room_Some in H.
Qed.

Lemma nonempty_bodies_cacheMessage id data :
  s_body data ≠ EmptyString → inv nonempty_bodies (cacheMessage id data).
Proof.
  intros Hbody w [Hc Hp]. split.
  - intros k s Hget. change (messageCache _) with
      (cache_put (now w) id data (messageCache w)) in Hget.
    apply cache_get_put_Some in Hget as [->|Hget]; [done | by eapply Hc].
  - done.
Qed.

Lemma nonempty_bodies_cache_delete id w :
  nonempty_bodies w →
  nonempty_bodies (set_messageCache (cache_delete id (messageCache w)) w).
Proof.
  intros [Hc Hp]. split; [|done].
  intros k s Hget. simpl in Hget. eapply Hc. by eapply cache_get_delete_Some.
Qed.

Lemma quiet_expire_msgfile b path w : quiet w (expire_msgfile b path w).
Proof.
  unfold expire_msgfile. destruct (files w !! path), b; try apply quiet_refl.
  split; try done. exists [EFsUnlink path]. split; [done | by constructor].
Qed.

Lemma quiet_expire_media b path name msgId w :
  quiet w (expire_media b path name msgId w).
Proof.
  unfold expire_media.
  destruct (files w !! path), b; try by apply quiet_same_out.
  split; try done. exists [EFsUnlink path]. split; [done | by constructor].
Qed.

Lemma nonempty_bodies_run_timer b tm w :
  nonempty_bodies w → nonempty_bodies (run_timer b tm w).
Proof.
  intros HP. unfold run_timer. destruct (tm_action tm).
  - by apply nonempty_bodies_cache_delete.
  - eapply nonempty_bodies_stable; [apply quiet_expire_media | done].
  - eapply nonempty_bodies_stable; [apply quiet_expire_msgfile | done].
  - by destruct HP.
Qed.

Lemma nonempty_bodies_advance tf t w :
  nonempty_bodies w → nonempty_bodies (advance tf t w).
Proof.
  intros HP. unfold advance.
  assert (Hfire : ∀ pending w0,
    nonempty_bodies w0 → nonempty_bodies (fire_due tf t pending w0)).
  { induction pending as [|tm l IH]; intros w0 H0; simpl; [done|].
    destruct (tm_due tm <=? t); apply IH; [|done].
    by apply nonempty_bodies_run_timer. }
  specialize (Hfire (timers w) w HP). destruct Hfire as [Hc Hp].
  split; [apply Hc | apply Hp].
Qed.

Section HandlerBodies.

Variable getIST : Z → string.

Lemma resolve_fields_text_nonempty afterMsg beforeMsg c :
  (∀ id s, cache_get id c = Some s → s_body s ≠ EmptyString) →
  v_originalText (resolve_fields afterMsg beforeMsg c) ≠ EmptyString.
Proof.
  intros Hc. unfold resolve_fields.
  destruct beforeMsg as [b|].
  - destruct (msg_getContact b);
      destruct (cache_get (msg_id b) c) as [s|] eqn:E; simpl;
      try apply body_or_marker_nonempty;
      (destruct (String.eqb _ UNKNOWN_TEXT);
       [by eapply Hc | apply body_or_marker_nonempty]).
  - destruct (cache_get (msg_id afterMsg) c) as [s|] eqn:E; simpl;
      [by eapply Hc | done].
Qed.

Lemma nonempty_bodies_reconcile flt afterMsg beforeMsg :
  inv nonempty_bodies (reconcile getIST flt afterMsg beforeMsg).
Proof.
  apply inv_bind_get. intros w0 [Hc0 Hp0].
  pose proof (resolve_fields_text_nonempty afterMsg beforeMsg _ Hc0) as Hv.
  apply inv_bind.
  { apply inv_calm; [apply nonempty_bodies_stable | apply calm_promoteTracked]. }
  intros mediaRef. apply inv_bind.
  { apply inv_calm; [apply nonempty_bodies_stable|].
    apply calm_promoteCachedFile. }
  intros _. apply inv_bind.
  { apply inv_calm; [apply nonempty_bodies_stable|].
    unfold appendLog. destruct (flt S_append_log);
      [apply calm_throw | by apply calm_emit]. }
  intros _. apply inv_bind.
  { apply inv_bind_get. intros w1 _. unfold emit. apply inv_modify.
    intros w [Hc Hp]. split; [done|].
    intros r. rewrite persisted_app. simpl. rewrite elem_of_app.
    intros [Hr|Hr%list_elem_of_singleton]; [by apply Hp|]. by subst r. }
  intros _. apply inv_bind.
  { apply inv_calm; [apply nonempty_bodies_stable|].
    apply safe_calm, safe_sendPushNotification. }
  intros _. apply inv_bind.
  { apply inv_calm; [apply nonempty_bodies_stable|].
    apply safe_calm, safe_sendDeletedMedia. }
  intros _. apply inv_modify. intros w HP. unfold cleanup.
  destruct (mediaTracker w0 !! _).
  - apply (nonempty_bodies_cache_delete _ (set_mediaTracker _ w)).
    eapply nonempty_bodies_stable; [apply quiet_set_mediaTracker | done].
  - by apply nonempty_bodies_cache_delete.
Qed.

Lemma nonempty_bodies_on_message_revoke_everyone flt afterMsg beforeMsg :
  inv nonempty_bodies
    (on_message_revoke_everyone getIST flt afterMsg beforeMsg).
Proof.
  apply inv_bind_get. intros w0 _. cbv beta zeta.
  destruct (_ <? _); [apply inv_ret|].
  destruct (bool_decide (_ ∈ _)); [apply inv_ret|].
  apply inv_bind.
  { apply inv_modify. by intros w [Hc Hp]. }
  intros _. apply inv_bind.
  { apply inv_calm; [apply nonempty_bodies_stable | apply calm_setTimeout]. }
  intros _. apply inv_try_catch; [apply nonempty_bodies_reconcile|].
  intros err. apply inv_calm; [apply nonempty_bodies_stable|].
  apply calm_try_catch; [|intros; apply calm_ret].
  apply safe_calm, safe_sendPushNotification.
Qed.

Lemma nonempty_bodies_on_message flt msg :
  inv nonempty_bodies (on_message getIST flt msg).
Proof.
  pose proof nonempty_bodies_stable as Hst.
  apply inv_try_catch; [|intros; apply inv_ret].
  apply inv_bind.
  { destruct (msg_getChat msg); [apply inv_ret | apply inv_throw]. }
  intros chat. apply inv_bind.
  { destruct (msg_getContact msg); [apply inv_ret | apply inv_throw]. }
  intros contact. apply inv_bind_get. intros w0 _.
  apply inv_bind.
  { apply inv_calm; [done|]. destruct (msg_hasMedia msg);
      [apply safe_calm, safe_saveMediaToTemp | apply calm_ret]. }
  intros saved. apply inv_bind.
  { apply inv_calm; [done|]. destruct (_ && _);
      [apply safe_calm, safe_viewOnceCapture | apply calm_ret]. }
  intros _. apply inv_bind.
  { apply inv_calm; [done|]. unfold appendLog.
    destruct (flt S_append_log); [apply calm_throw | by apply calm_emit]. }
  intros _. apply inv_bind.
  { apply inv_calm; [done|]. apply safe_calm, safe_saveMessageFile. }
  intros msgFilePath. apply nonempty_bodies_cacheMessage.
  apply body_or_marker_nonempty.
Qed.

Lemma nonempty_bodies_on_message_create msg :
  inv nonempty_bodies (on_message_create msg).
Proof.
  apply inv_try_catch; [|intros; apply inv_ret].
  destruct (msg_fromMe msg); [apply inv_ret|].
  apply inv_bind_get. intros w0 _.
  destruct (cache_get _ _); [apply inv_ret|].
  apply inv_bind.
  { destruct (msg_getChat msg); [apply inv_ret | apply inv_throw]. }
  intros chat. apply inv_bind.
  { destruct (msg_getContact msg); [apply inv_ret | apply inv_throw]. }
  intros contact. apply nonempty_bodies_cacheMessage.
  apply body_or_marker_nonempty.
Qed.

Lemma nonempty_bodies_on_ready flt : inv nonempty_bodies (on_ready getIST flt).
Proof.
  apply inv_bind_get. intros w0 _. apply inv_bind.
  { apply inv_calm; [apply nonempty_bodies_stable|].
    apply safe_calm, safe_sendPushNotification. }
  intros _. apply inv_modify. by intros w [Hc Hp].
Qed.

Lemma nonempty_bodies_step w o :
  nonempty_bodies w → nonempty_bodies (step getIST w o).
Proof.
  intros HP. unfold step. apply inv_exec; [|by apply nonempty_bodies_advance].
  destruct (o_event o); simpl.
  - apply nonempty_bodies_on_ready.
  - apply nonempty_bodies_on_message.
  - apply nonempty_bodies_on_message_create.
  - apply nonempty_bodies_on_message_revoke_everyone.
Qed.

Lemma nonempty_bodies_run trace w :
  nonempty_bodies w → nonempty_bodies (run getIST trace w).
Proof.
  revert w. induction trace as [|o trace IH]; intros w HP; [done|].
  simpl. apply IH. by apply nonempty_bodies_step.
Qed.

Lemma nonempty_bodies_initial t0 : nonempty_bodies (initial t0).
Proof. split; [done|]. intros r Hr. by apply elem_of_nil in Hr. Qed.

End HandlerBodies.

(** ** Invariants of the cache alone

    A property of the cache that [messageCache.delete] and the [Map]
    operations of [cacheMessage] keep is kept by every handler and every
    timer callback. *)

Section CacheInvariant.

Variable getIST : Z → string.
Variable P : list (string * snapshot) → Prop.
Hypothesis P_delete : ∀ id c, P c → P (cache_delete id c).
Hypothesis P_put : ∀ t id data c, P c → P (cache_put t id data c).

Lemma on_cache_stable : stable (on_cache P).
Proof.
  intros w w' Hq HP. unfold on_cache. by rewrite (quiet_cache _ _ Hq).
Qed.

Lemma on_cache_cacheMessage id data : inv (on_cache P) (cacheMessage id data).
Proof.
  intros w HP. unfold on_cache.
  change (messageCache _) with (cache_put (now w) id data (messageCache w)).
  by apply P_put.
Qed.

Lemma on_cache_run_timer b tm w :
  on_cache P w → on_cache P (run_timer b tm w).
Proof.
  intros HP. unfold run_timer. destruct (tm_action tm).
  - by apply P_delete.
  - eapply on_cache_stable; [apply quiet_expire_media | done].
  - eapply on_cache_stable; [apply quiet_expire_msgfile | done].
  - done.
Qed.

Lemma on_cache_advance tf t w : on_cache P w → on_cache P (advance tf t w).
Proof.
  intros HP. unfold advance.
  assert (Hfire : ∀ pending w0,
    on_cache P w0 → on_cache P (fire_due tf t pending w0)).
  { induction pending as [|tm l IH]; intros w0 H0; simpl; [done|].
    destruct (tm_due tm <=? t); apply IH; [|done].
    by apply on_cache_run_timer. }
  apply (Hfire (timers w) w HP).
Qed.

Lemma on_cache_reconcile flt afterMsg beforeMsg :
  inv (on_cache P) (reconcile getIST flt afterMsg beforeMsg).
Proof.
  pose proof on_cache_stable as Hst.
  apply inv_bind_get. intros w0 _. apply inv_bind.
  { apply inv_calm; [done | apply calm_promoteTracked]. }
  intros mediaRef. apply inv_bind.
  { apply inv_calm; [done | apply calm_promoteCachedFile]. }
  intros _. apply inv_bind.
  { apply inv_calm; [done|]. unfold appendLog.
    destruct (flt S_append_log); [apply calm_throw | by apply calm_emit]. }
  intros _. apply inv_bind.
  { apply inv_bind_get. intros w1 _. unfold emit. apply inv_modify.
    by intros w HP. }
  intros _. apply inv_bind.
  { apply inv_calm; [done|]. apply safe_calm, safe_sendPushNotification. }
  intros _. apply inv_bind.
  { apply inv_calm; [done|]. apply safe_calm, safe_sendDeletedMedia. }
  intros _. apply inv_modify. intros w HP. unfold cleanup, on_cache.
  destruct (mediaTracker w0 !! _); simpl; by apply P_delete.
Qed.

Lemma on_cache_on_message_revoke_everyone flt afterMsg beforeMsg :
  inv (on_cache P) (on_message_revoke_everyone getIST flt afterMsg beforeMsg).
Proof.
  pose proof on_cache_stable as Hst.
  apply inv_bind_get. intros w0 _. cbv beta zeta.
  destruct (_ <? _); [apply inv_ret|].
  destruct (bool_decide (_ ∈ _)); [apply inv_ret|].
  apply inv_bind.
  { apply inv_modify. by intros w HP. }
  intros _. apply inv_bind.
  { apply inv_calm; [done | apply calm_setTimeout]. }
  intros _. apply inv_try_catch; [apply on_cache_reconcile|].
  intros err. apply inv_calm; [done|].
  apply calm_try_catch; [|intros; apply calm_ret].
  apply safe_calm, safe_sendPushNotification.
Qed.

Lemma on_cache_on_message flt msg :
  inv (on_cache P) (on_message getIST flt msg).
Proof.
  pose proof on_cache_stable as Hst.
  apply inv_try_catch; [|intros; apply inv_ret].
  apply inv_bind.
  { destruct (msg_getChat msg); [apply inv_ret | apply inv_throw]. }
  intros chat. apply inv_bind.
  { destruct (msg_getContact msg); [apply inv_ret | apply inv_throw]. }
  intros contact. apply inv_bind_get. intros w0 _.
  apply inv_bind.
  { apply inv_calm; [done|]. destruct (msg_hasMedia msg);
      [apply safe_calm, safe_saveMediaToTemp | apply calm_ret]. }
  intros saved. apply inv_bind.
  { apply inv_calm; [done|]. destruct (_ && _);
      [apply safe_calm, safe_viewOnceCapture | apply calm_ret]. }
  intros _. apply inv_bind.
  { apply inv_calm; [done|]. unfold appendLog.
    destruct (flt S_append_log); [apply calm_throw | by apply calm_emit]. }
  intros _. apply inv_bind.
  { apply inv_calm; [done|]. apply safe_calm, safe_saveMessageFile. }
  intros msgFilePath. apply on_cache_cacheMessage.
Qed.

Lemma on_cache_on_message_create msg :
  inv (on_cache P) (on_message_create msg).
Proof.
  apply inv_try_catch; [|intros; apply inv_ret].
  destruct (msg_fromMe msg); [apply inv_ret|].
  apply inv_bind_get. intros w0 _.
  destruct (cache_get _ _); [apply inv_ret|].
  apply inv_bind.
  { destruct (msg_getChat msg); [apply inv_ret | apply inv_throw]. }
  intros chat. apply inv_bind.
  { destruct (msg_getContact msg); [apply inv_ret | apply inv_throw]. }
  intros contact. apply on_cache_cacheMessage.
Qed.

Lemma on_cache_on_ready flt : inv (on_cache P) (on_ready getIST flt).
Proof.
  apply inv_bind_get. intros w0 _. apply inv_bind.
  { apply inv_calm; [apply on_cache_stable|].
    apply safe_calm, safe_sendPushNotification. }
  intros _. apply inv_modify. by intros w HP.
Qed.

Lemma on_cache_step w o : on_cache P w → on_cache P (step getIST w o).
Proof.
  intros HP. unfold step. apply inv_exec; [|by apply on_cache_advance].
  destruct (o_event o); simpl.
  - apply on_cache_on_ready.
  - apply on_cache_on_message.
  - apply on_cache_on_message_create.
  - apply on_cache_on_message_revoke_everyone.
Qed.

Lemma on_cache_run trace w : on_cache P w → on_cache P (run getIST trace w).
Proof.
  revert w. induction trace as [|o trace IH]; intros w HP; [done|].
  simpl. apply IH. by apply on_cache_step.
Qed.

End CacheInvariant.

(** In every world the event loop reaches, the cache is within its
    capacity and no id is a key twice. *)
Lemma messageCache_within_capacity getIST t0 trace :
  (length (messageCache (run getIST trace (initial t0))) ≤ MAX_CACHE_SIZE)%nat.
Proof.
  apply (on_cache_run getIST (λ c, (length c ≤ MAX_CACHE_SIZE)%nat)).
  - intros id c Hc. pose proof (cache_delete_length id c). lia.
  - intros t id data c. apply cache_put_length.
  - unfold on_cache. simpl. unfold MAX_CACHE_SIZE. lia.
Qed.

Lemma messageCache_keys_distinct getIST t0 trace :
  NoDup (messageCache (run getIST trace (initial t0))).*1.
Proof.
  apply (on_cache_run getIST (λ c, NoDup c.*1)).
  - intros id c. apply cache_delete_NoDup.
  - intros t id data c. apply cache_put_NoDup.
  - apply NoDup_nil_2.
Qed.

(** Claim C2.  After any sequence of [cacheMessage] calls from the empty
    cache, each at its own time, the cache holds at most
    [MAX_CACHE_SIZE] = 500 entries; its keys, in [Map] order, are a tail
    of the list of ids inserted as new keys, so the most recently
    inserted ones survive; a call made when the cache is full removes the
    first entry, the oldest inserted, and no other, before it sets the
    new one; and in every world the event loop reaches, with the other
    handlers and the expiry timers at work, the cache holds at most 500
    entries. *)
Theorem cacheMessage_bounded_recent
    (t0 : Z) (ps : list (Z * string * snapshot)) :
  let w := put_all ps (initial t0) in
  (length (messageCache w) ≤ MAX_CACHE_SIZE)%nat
  ∧ (∃ older, insertion_log ps (initial t0)
              = (older ++ (messageCache w).*1)%list)
  ∧ (∀ id data,
       length (messageCache w) = MAX_CACHE_SIZE →
       ∃ oldest rest,
         messageCache w = oldest :: rest
         ∧ messageCache (exec (cacheMessage id data) w)
           = cache_set id (with_cachedAt (now w) data) rest)
  ∧ (∀ getIST trace,
       length (messageCache (run getIST trace (initial t0)))
       ≤ MAX_CACHE_SIZE)%nat.
Proof.
  intros w.
  destruct (put_all_invariant ps (initial t0)) as (Hnd & Hlen & Hlog).
  { apply NoDup_nil_2. }
  { simpl. lia. }
  split_and!; [done|done| |intros; apply messageCache_within_capacity].
  intros id data Hfull. fold w in Hnd.
  destruct (messageCache w) as [|oldest rest] eqn:Hc.
  { by unfold MAX_CACHE_SIZE in Hfull. }
  exists oldest, rest. split; [done|].
  rewrite messageCache_cacheMessage, Hc. unfold cache_put, make_room.
  rewrite Hfull, Nat.leb_refl. by rewrite evict_oldest_tail.
Qed.

Lemma cacheMessage_bounded_recent_witness :
  let w := put_all five_hundred_puts (initial 1700000000000) in
  length (messageCache w) = MAX_CACHE_SIZE
  ∧ ∃ oldest rest,
      messageCache w = oldest :: rest
      ∧ messageCache (exec (cacheMessage "500" sample_snapshot) w)
        = cache_set "500" (with_cachedAt (now w) sample_snapshot) rest.
Proof.
  split; [vm_compute; reflexivity|].
  apply (proj1 (proj2 (proj2 (cacheMessage_bounded_recent 1700000000000
                                five_hundred_puts)))).
  vm_compute. reflexivity.
Defined.


Lemma calm_run {A} (m : M A) w r w' : calm m → m w = (r, w') → quiet w w'.
Proof. intros Hm E. specialize (Hm w). by rewrite E in Hm. Qed.

Lemma wp_cacheMessage id data (Q : result unit → world → Prop) w :
  Q (Returned tt) (exec (cacheMessage id data) w) →
  wp (cacheMessage id data) Q w.
Proof. done. Qed.

Lemma wp_await {A} what (a : A) Q w :
  Q (Returned a) w → wp (await what (Some a)) Q w.
Proof. done. Qed.

Section EmptyBodies.

Variable getIST : Z → string.

(** An accepted revocation that no unguarded fault interrupts persists
    exactly one record: the reconciled one. *)
Lemma revoke_accepted_persists flt afterMsg beforeMsg w :
  accepted afterMsg w → no_unguarded_fault flt →
  let v := resolve_fields afterMsg beforeMsg (messageCache w) in
  persisted (exec (on_message_revoke_everyone getIST flt afterMsg beforeMsg) w)
  = (persisted w
     ++ [reconciled_record getIST (getIST (now w)) v beforeMsg
           (mediaTracker w !! v_msgId v)])%list.
Proof.
  intros Hadm Hflt v. unfold exec.
  rewrite on_message_revoke_everyone_accepted by done.
  destruct (reconcile_completes getIST flt afterMsg beforeMsg
              (marked (msg_id afterMsg) w) Hflt)
    as (mediaRef & w1 & w2 & w3 & E1 & E2 & E3 & Hrun).
  unfold try_catch. rewrite Hrun. simpl.
  pose proof (calm_run _ _ _ _ (calm_promoteTracked flt _) E1) as Hq1.
  pose proof (calm_run _ _ _ _ (calm_promoteCachedFile flt _ _) E2) as Hq2.
  pose proof (calm_run _ _ _ _
                (safe_calm _ (safe_sendDeletedMedia flt _ _)) E3) as Hq3.
  transitivity (persisted w3).
  { unfold cleanup, persisted. by destruct (mediaTracker _ !! _). }
  rewrite (persisted_quiet _ _ Hq3), persisted_app.
  rewrite (persisted_quiet _ _ Hq2), (persisted_quiet _ _ Hq1).
  reflexivity.
Qed.

Lemma resolve_fields_empty_before afterMsg before c :
  msg_body before = EmptyString →
  v_originalText (resolve_fields afterMsg (Some before) c) = EMPTY_MARKER.
Proof.
  intros Hbody. unfold resolve_fields. rewrite Hbody.
  destruct (msg_getContact before), (cache_get (msg_id before) c); done.
Qed.

(** Claim C9.  (1) For a message with an empty body the [message]
    handler caches a snapshot whose body is the marker "[<empty>]" and
    logs an entry with that body; (2) so does [message_create] when it
    caches; (3) a revoke event whose before-reference has an empty body
    persists a record whose original message is the marker; (4) so does
    one without before-reference whose cached snapshot holds the marker;
    (5) in every world the event loop reaches from the start, no cached
    body and no persisted original message is the empty string. *)
Theorem empty_body_becomes_marker :
  (∀ flt msg chat contact w,
     msg_body msg = EmptyString →
     msg_getChat msg = Some chat → msg_getContact msg = Some contact →
     flt S_append_log = false →
     let w' := exec (on_message getIST flt msg) w in
     s_body <$> cache_get (msg_id msg) (messageCache w') = Some EMPTY_MARKER
     ∧ ∃ mediaRef,
         ELog (message_log_entry (getIST (now w)) (chat_location chat)
                 (sender_name contact) (c_number contact) EMPTY_MARKER
                 mediaRef) ∈ out w')
  ∧ (∀ msg chat contact w,
       msg_body msg = EmptyString → msg_fromMe msg = false →
       cache_get (msg_id msg) (messageCache w) = None →
       msg_getChat msg = Some chat → msg_getContact msg = Some contact →
       s_body <$> cache_get (msg_id msg)
                    (messageCache (exec (on_message_create msg) w))
       = Some EMPTY_MARKER)
  ∧ (∀ flt afterMsg before w,
       msg_body before = EmptyString →
       accepted afterMsg w → no_unguarded_fault flt →
       r_originalMessage
         <$> last (persisted (exec (on_message_revoke_everyone getIST flt
                                      afterMsg (Some before)) w))
       = Some EMPTY_MARKER)
  ∧ (∀ flt afterMsg w cached,
       cache_get (msg_id afterMsg) (messageCache w) = Some cached →
       s_body cached = EMPTY_MARKER →
       accepted afterMsg w → no_unguarded_fault flt →
       r_originalMessage
         <$> last (persisted (exec (on_message_revoke_everyone getIST flt
                                      afterMsg None) w))
       = Some EMPTY_MARKER)
  ∧ (∀ t0 trace, nonempty_bodies (run getIST trace (initial t0))).
Proof.
  split_and!.
  - intros flt msg chat contact w Hbody Hchat Hcontact Hlog w'.
    destruct (on_message_completes getIST flt msg chat contact w)
      as (saved & w2 & msgFilePath & w3 & Hq2 & Hq3 & Hrun); [done..|].
    assert (Hw' : w' = exec (cacheMessage (msg_id msg)
                         (message_snapshot msg chat contact msgFilePath)) w3).
    { unfold w'. unfold exec at 1. by rewrite Hrun. }
    rewrite Hw'. split.
    + rewrite messageCache_cacheMessage. unfold cache_put.
      rewrite cache_get_set_eq. simpl. by rewrite Hbody.
    + exists (temp_media_ref saved).
      change (out (exec _ w3)) with (out w3).
      eapply quiet_elem_of; [done|]. simpl. rewrite Hbody.
      apply elem_of_app. right. by left.
  - intros msg chat contact w Hbody Hme Hnew Hchat Hcontact.
    apply (wp_exec (on_message_create msg)
             (λ w', s_body <$> cache_get (msg_id msg) (messageCache w')
                    = Some EMPTY_MARKER)).
    unfold on_message_create. rewrite Hme, Hchat, Hcontact.
    wp_go. rewrite Hnew. wp_go. apply wp_cacheMessage.
    rewrite messageCache_cacheMessage. unfold cache_put.
    rewrite cache_get_set_eq. simpl. by rewrite Hbody.
  - intros flt afterMsg before w Hbody Hadm Hflt.
    rewrite revoke_accepted_persists by done.
    rewrite last_snoc. simpl. by rewrite resolve_fields_empty_before.
  - intros flt afterMsg w cached Hc Hbody Hadm Hflt.
    rewrite revoke_accepted_persists by done.
    rewrite last_snoc. simpl.
    rewrite (resolve_fields_no_before _ _ _ Hc). simpl. by rewrite Hbody.
  - intros t0 trace. apply nonempty_bodies_run, nonempty_bodies_initial.
Qed.

End EmptyBodies.

Lemma wp_copyFileSync (flt : faults) (s : site) (src dst : string) (Q : result unit → world → Prop)
    (w : world) :
  match files w !! src with
  | Some content =>
      if flt s then Q (Threw "copyFileSync") w
      else Q (Returned tt)
             (set_out (out w ++ [EFsCopy src dst])
                (set_files (<[dst := content]> (files w)) w))
  | None => Q (Threw "copyFileSync") w
  end →
  wp (copyFileSync flt s src dst) Q w.
Proof.
  unfold wp, copyFileSync, bind, get. simpl.
  destruct (files w !! src); [|done]. by destruct (flt s).
Qed.

Lemma wp_readMediaAsBase64 (flt : faults) (p : string) (Q : result (option string) → world → Prop)
    (w : world) :
  Q (Returned (match files w !! p with
               | Some content =>
                   if flt S_read_media then None else Some content
               | None => None
               end)) w →
  wp (readMediaAsBase64 flt p) Q w.
Proof.
  unfold wp, readMediaAsBase64, bind, get. simpl.
  destruct (files w !! p); [|done]. by destruct (flt S_read_media).
Qed.

Lemma viewOnceCapture_frame flt msg senderName senderActualNumber
    chatLocation time messageBody w :
  wp (viewOnceCapture flt msg senderName senderActualNumber chatLocation
        time messageBody)
     (λ r w', r = Returned tt
              ∧ viewonce_frame msg (flt S_copy_viewonce) w w') w.
Proof.
  unfold viewOnceCapture. wp_go.
  destruct (mediaTracker w !! msg_id msg) as [tr|] eqn:Htr.
  2:{ wp_go. split; [done|]. split; [done..|]. intros; congruence. }
  wp_step. destruct (t_media tr) as [slot|] eqn:Hslot.
  2:{ wp_go. split; [done|]. split; [done..|]. intros; congruence. }
  wp_go. case_bool_decide as Hp.
  - destruct Hp as [content Hc]. apply wp_copyFileSync.
    rewrite Hc. destruct (flt S_copy_viewonce) eqn:Hflt.
    { wp_go. split; [done|]. split; [done..|]. intros; congruence. }
    wp_go. apply wp_readMediaAsBase64. simpl.
    match goal with |- context [truthy ?d] => destruct (truthy d) end;
      wp_go; (split; [done|]); (split; [done..|]);
      intros tr' slot' content' ? ? ? _; simplify_eq/=;
      (split; [done|]); rewrite !elem_of_app, !list_elem_of_singleton;
      auto.
  - wp_go. apply wp_readMediaAsBase64. simpl.
    match goal with |- context [truthy ?d] => destruct (truthy d) end;
      wp_go; (split; [done|]); (split; [done..|]);
      intros tr' slot' content' ? ? Hc' _; simplify_eq/=;
      exfalso; apply Hp; eauto.
Qed.

(** Claim C8, amended.  The view-once block never throws and leaves the
    tracker and the pending timers exactly as they were: it clears
    neither the media artifact nor the transcript artifact.  When the
    tracked media file exists and the copy does not fail, the file is
    under [media/saved] with the same content and still under
    [media/temp]: it was copied, not moved. *)
Theorem viewonce_capture_copies_and_clears_nothing
    (flt : faults) (msg : message)
    (senderName senderActualNumber : option string)
    (chatLocation time messageBody : string) (w : world) :
  let capture := viewOnceCapture flt msg senderName senderActualNumber
                   chatLocation time messageBody in
  let w' := exec capture w in
  throws capture w = false
  ∧ mediaTracker w' = mediaTracker w
  ∧ timers w' = timers w
  ∧ ∀ tr slot content,
      mediaTracker w !! msg_id msg = Some tr → t_media tr = Some slot →
      files w !! filePath slot = Some content →
      flt S_copy_viewonce = false →
      files w' !! path_join SAVED_MEDIA_DIR (filename slot) = Some content
      ∧ files w' !! filePath slot = Some content
      ∧ EFsCopy (filePath slot) (path_join SAVED_MEDIA_DIR (filename slot))
        ∈ out w'.
Proof.
  intros capture w'.
  destruct (viewOnceCapture_frame flt msg senderName senderActualNumber
              chatLocation time messageBody w) as [Hr [Ht Htm _ Hcopy]].
  fold capture in Hr, Ht, Htm, Hcopy. fold (exec capture w) in Ht, Htm, Hcopy.
  fold w' in Ht, Htm, Hcopy.
  split_and!; [|done|done|].
  - unfold throws. by rewrite Hr.
  - intros tr slot content Htr Hslot Hc Hflt.
    destruct (Hcopy tr slot content Htr Hslot Hc Hflt) as [Hfiles Hout].
    rewrite Hfiles. split_and!; [apply lookup_insert_eq | | done].
    rewrite lookup_insert. by case_decide.
Qed.

Lemma viewonce_capture_copies_and_clears_nothing_witness :
  let w := world_before_viewonce in
  let w' := exec (viewOnceCapture no_faults viewonce_message (Some "Asha")
                    (Some "911234567890") "Private Chat" "1700000001000"
                    EMPTY_MARKER) w in
  files w' !! "media/saved/1700000001000_3EB0C3.jpg"
  = Some "/9j/4AAQSkZJRg=="
  ∧ files w' !! "media/temp/1700000001000_3EB0C3.jpg"
    = Some "/9j/4AAQSkZJRg=="
  ∧ EFsCopy "media/temp/1700000001000_3EB0C3.jpg"
      "media/saved/1700000001000_3EB0C3.jpg" ∈ out w'.
Proof.
  intros w w'.
  apply (proj2 (proj2 (proj2
    (viewonce_capture_copies_and_clears_nothing no_faults viewonce_message
       (Some "Asha") (Some "911234567890") "Private Chat" "1700000001000"
       EMPTY_MARKER w)))
    {| t_media := Some
         {| filePath := "media/temp/1700000001000_3EB0C3.jpg";
            filename := "1700000001000_3EB0C3.jpg"; timeout := 0;
            mimetype := Some "image/jpeg"; sentTimestamp := 1700000000 |};
       t_msgfile := None |}
    {| filePath := "media/temp/1700000001000_3EB0C3.jpg";
       filename := "1700000001000_3EB0C3.jpg"; timeout := 0;
       mimetype := Some "image/jpeg"; sentTimestamp := 1700000000 |}
    "/9j/4AAQSkZJRg==");
    [vm_compute; reflexivity | reflexivity | vm_compute; reflexivity
    | reflexivity].
Defined.

(** Claim C8 as stated fails: after the capture of the view-once message
    [m3] no tracker entry of [m3] has its media artifact cleared; the
    artifact is still there. *)
Lemma viewonce_capture_clears_media_counterexample :
  let w := world_before_viewonce in
  let w' := exec (viewOnceCapture no_faults viewonce_message (Some "Asha")
                    (Some "911234567890") "Private Chat" "1700000001000"
                    EMPTY_MARKER) w in
  ¬ (∃ tr, mediaTracker w' !! "m3" = Some tr ∧ t_media tr = None).
Proof.
  intros w w' (tr & Htr & Hnone). vm_compute in Htr.
  injection Htr as <-. discriminate Hnone.
Qed.

(** ** Frames: computations that stay within a relation *)

Section Respects.

Context (R : relation world) `{!PreOrder R}.

Lemma respects_ret {A} (a : A) : respects R (ret a).
Proof. intros w. reflexivity. Qed.

Lemma respects_throw {A} err : respects R (@throw A err).
Proof. intros w. reflexivity. Qed.

Lemma respects_get : respects R get.
Proof. intros w. reflexivity. Qed.

Lemma respects_bind {A B} (m : M A) (k : A → M B) :
  respects R m → (∀ a, respects R (k a)) → respects R (bind m k).
Proof.
  intros Hm Hk w. specialize (Hm w). unfold bind.
  destruct (m w) as [[a|e] w']; simpl in *; [|done].
  etransitivity; [done | apply Hk].
Qed.

Lemma respects_try_catch {A} (m : M A) h :
  respects R m → (∀ e, respects R (h e)) → respects R (try_catch m h).
Proof.
  intros Hm Hh w. specialize (Hm w). unfold try_catch.
  destruct (m w) as [[a|e] w']; simpl in *; [done|].
  etransitivity; [done | apply Hh].
Qed.

Lemma respects_await {A} what (p : option A) : respects R (await what p).
Proof. destruct p; [apply respects_ret | apply respects_throw]. Qed.

Lemma respects_run {A} (m : M A) w r w' :
  respects R m → m w = (r, w') → R w w'.
Proof. intros Hm E. specialize (Hm w). by rewrite E in Hm. Qed.

End Respects.

Global Instance still_preorder : PreOrder still.
Proof.
  split.
  - by intros w.
  - intros w1 w2 w3 [] []. split; congruence.
Qed.

Lemma still_emit e : respects still (emit e).
Proof. by intros w. Qed.

Lemma still_existsSync p : respects still (existsSync p).
Proof. by intros w. Qed.

Lemma still_readMediaAsBase64 flt p : respects still (readMediaAsBase64 flt p).
Proof.
  intros w. unfold readMediaAsBase64, bind, get. simpl.
  by destruct (files w !! p), (flt S_read_media).
Qed.

Lemma still_writeFileSync flt s p content :
  respects still (writeFileSync flt s p content).
Proof. intros w. unfold writeFileSync. by destruct (flt s). Qed.

Lemma still_copyFileSync flt s src dst :
  respects still (copyFileSync flt s src dst).
Proof.
  intros w. unfold copyFileSync, bind, get. simpl.
  by destruct (files w !! src), (flt s).
Qed.

Lemma still_renameSync flt s src dst :
  respects still (renameSync flt s src dst).
Proof.
  intros w. unfold renameSync, bind, get. simpl.
  by destruct (files w !! src), (flt s).
Qed.

Lemma still_sendPushNotification flt s title body :
  respects still (sendPushNotification flt s title body).
Proof. by intros w. Qed.

Lemma still_sendTelegramMedia flt data mime name caption :
  respects still (sendTelegramMedia flt data mime name caption).
Proof. by intros w. Qed.

Lemma still_appendLog flt entry : respects still (appendLog flt entry).
Proof. intros w. unfold appendLog. by destruct (flt S_append_log). Qed.

Lemma still_saveDeletedRecord flt data :
  respects still (saveDeletedRecord flt data).
Proof. by intros w. Qed.

Lemma still_promoteCachedFile flt tracked cached :
  respects still (promoteCachedFile flt tracked cached).
Proof.
  destruct tracked, cached as [[? ? ? ? ? [path|] ?]|]; simpl;
    try apply (respects_ret still).
  destruct (String.eqb path EmptyString); [apply (respects_ret still)|].
  apply (respects_try_catch still); [|intros; apply (respects_ret still)].
  apply (respects_bind still); [apply still_existsSync|].
  intros []; [apply still_renameSync | apply (respects_ret still)].
Qed.

Lemma still_sendDeletedMedia flt tracked v :
  respects still (sendDeletedMedia flt tracked v).
Proof.
  destruct tracked as [[[slot|] ?]|]; simpl; try apply (respects_ret still).
  apply (respects_bind still); [apply still_existsSync | intros saved].
  apply (respects_bind still); [apply still_readMediaAsBase64 | intros data].
  destruct (truthy data);
    [apply still_sendTelegramMedia | apply (respects_ret still)].
Qed.

Lemma still_fallback_notification flt err :
  respects still (fallback_notification flt err).
Proof.
  apply (respects_try_catch still); [|intros; apply (respects_ret still)].
  apply still_sendPushNotification.
Qed.

Lemma still_viewOnceCapture flt msg senderName senderActualNumber
    chatLocation time messageBody :
  respects still (viewOnceCapture flt msg senderName senderActualNumber
                    chatLocation time messageBody).
Proof.
  apply (respects_try_catch still); [|intros; apply (respects_ret still)].
  apply (respects_bind still); [apply (respects_get still) | intros w].
  destruct (mediaTracker w !! msg_id msg) as [tr|];
    [|apply (respects_ret still)].
  apply (respects_bind still); [apply (respects_await still) | intros slot].
  apply (respects_bind still); [apply still_existsSync | intros present].
  apply (respects_bind still).
  { destruct present; [apply still_copyFileSync | apply (respects_ret still)]. }
  intros _.
  apply (respects_bind still); [apply still_sendPushNotification | intros _].
  apply (respects_bind still); [apply still_readMediaAsBase64 | intros data].
  destruct (truthy data);
    [apply still_sendTelegramMedia | apply (respects_ret still)].
Qed.

(** ** Timers, handles and the dedup set *)

Global Instance steady_preorder : PreOrder steady.
Proof.
  split.
  - intros w Hc. split_and!; [done|done|auto].
  - intros w1 w2 w3 H12 H23 Hc1.
    destruct (H12 Hc1) as (Hc2 & Hs12 & Ht12).
    destruct (H23 Hc2) as (Hc3 & Hs23 & Ht23).
    split_and!; [done | set_solver | auto].
Qed.

Global Instance sheds_preorder H : PreOrder (sheds H).
Proof.
  split.
  - intros w. split; auto.
  - intros w1 w2 w3 [Hr1 Hn1 Ht1 Hs1 Hk1] [Hr2 Hn2 Ht2 Hs2 Hk2].
    split; [congruence | congruence | auto | auto |].
    intros tm Htm. destruct (Hk1 tm Htm) as [Htm2|?]; [|by right].
    auto.
Qed.

Lemma still_sheds H w w' : still w w' → sheds H w w'.
Proof.
  intros [_ _ _ Htr Hrev Htm Hnext]. split; try done.
  - by rewrite Htr.
  - by rewrite Htm.
  - rewrite Htm. auto.
Qed.

Lemma respects_still_sheds H {A} (m : M A) :
  respects still m → respects (sheds H) m.
Proof. intros Hm w. apply still_sheds, Hm. Qed.

(** A shedding step from a coherent world, whose cancelled handles were
    all in the tracker, is steady. *)
Lemma sheds_steady H w w' :
  sheds H w w' → (∀ h, h ∈ H → tracked_handle (mediaTracker w) h) →
  steady w w'.
Proof.
  intros [Hr Hn Ht Hsub Hkept] HH [W1 W2 W3 G U]. split_and!.
  - split.
    + intros tm Htm. rewrite Hn. auto.
    + intros h Hh. rewrite Hn. auto.
    + intros tm Htm Hh. auto.
    + intros tm id Htm Ha. rewrite Hr. eauto.
    + intros tm tm' id Htm Htm'. eauto.
  - by rewrite Hr.
  - intros tm Htm [id Hid]. destruct (Hkept tm Htm) as [?|Hh]; [done|].
    specialize (W3 tm Htm (HH _ Hh)). unfold is_file_timer in W3.
    by rewrite Hid in W3.
Qed.

Lemma still_steady w w' : still w w' → steady w w'.
Proof.
  intros Hs. apply (sheds_steady []); [by apply still_sheds|].
  intros h Hh. by apply elem_of_nil in Hh.
Qed.

Lemma respects_still_steady {A} (m : M A) :
  respects still m → respects steady m.
Proof. intros Hm w. apply still_steady, Hm. Qed.

(** Allocating a timer that is no removal from the dedup set, and
    possibly recording its handle in the tracker if it is a file timer,
    is steady. *)
Lemma alloc_steady w w' tm :
  tm_handle tm = nextTimer w → ¬ is_revoke_timer tm →
  nextTimer w' = S (nextTimer w) →
  timers w' = insert_timer tm (timers w) →
  processedRevokes w' = processedRevokes w →
  (∀ h, tracked_handle (mediaTracker w') h →
        tracked_handle (mediaTracker w) h
        ∨ (h = nextTimer w ∧ is_file_timer tm)) →
  steady w w'.
Proof.
  intros Hh Hnr Hn Ht Hr Htr [W1 W2 W3 G U].
  assert (Hin : ∀ x, x ∈ timers w' ↔ x = tm ∨ x ∈ timers w).
  { intros x. rewrite Ht. apply elem_of_insert_timer. }
  split_and!.
  - split.
    + intros x [->|Hx]%Hin; rewrite Hn; [lia|].
      specialize (W1 x Hx). lia.
    + intros h [Hold|[-> _]]%Htr; rewrite Hn; [|lia].
      specialize (W2 h Hold). lia.
    + intros x [->|Hx]%Hin [Hold|[Hnew Hfile]]%Htr; try done.
      * specialize (W2 _ Hold). lia.
      * by apply W3.
      * specialize (W1 x Hx). lia.
    + intros x id [->|Hx]%Hin Ha.
      * exfalso. apply Hnr. by exists id.
      * rewrite Hr. eauto.
    + intros x x' id [->|Hx]%Hin [->|Hx']%Hin Ha Ha'; try done.
      * exfalso. apply Hnr. by exists id.
      * exfalso. apply Hnr. by exists id.
      * eauto.
  - by rewrite Hr.
  - intros x Hx _. apply Hin. by right.
Qed.

(** Changing the cache, the files, the effects or the ready time is
    steady. *)
Lemma steady_same w w' :
  timers w' = timers w → nextTimer w' = nextTimer w →
  mediaTracker w' = mediaTracker w →
  processedRevokes w' = processedRevokes w →
  steady w w'.
Proof.
  intros Ht Hn Hm Hr. apply (sheds_steady []).
  - split; rewrite ?Ht, ?Hm; auto.
  - intros h Hh. by apply elem_of_nil in Hh.
Qed.

Lemma tracked_handle_insert mt id tr h :
  tracked_handle (<[id := tr]> mt) h →
  h ∈ handles_of tr ∨ tracked_handle mt h.
Proof.
  intros (id' & tr' & Hl & Hh). destruct (decide (id = id')) as [->|Hne].
  - rewrite lookup_insert_eq in Hl. injection Hl as <-. by left.
  - rewrite lookup_insert_ne in Hl by done. right. by exists id', tr'.
Qed.

Lemma tracked_handle_delete mt id h :
  tracked_handle (delete id mt) h → tracked_handle mt h.
Proof.
  intros (id' & tr' & Hl & Hh). exists id', tr'. split; [|done].
  destruct (decide (id = id')) as [->|Hne].
  - by rewrite lookup_delete_eq in Hl.
  - by rewrite lookup_delete_ne in Hl.
Qed.

Lemma wp_writeFileSync (flt : faults) (s : site) (p content : string)
    (Q : result unit → world → Prop) (w : world) :
  (if flt s then Q (Threw "writeFileSync") w
   else Q (Returned tt)
          (set_out (out w ++ [EFsWrite p])
             (set_files (<[p := content]> (files w)) w))) →
  wp (writeFileSync flt s p content) Q w.
Proof. unfold wp, writeFileSync. by destruct (flt s). Qed.

Lemma steady_cacheMessage id data : respects steady (cacheMessage id data).
Proof.
  intros w.
  apply (alloc_steady _ _
           {| tm_handle := nextTimer w;
              tm_due := now w + MESSAGE_CACHE_TTL_MS;
              tm_action := ExpireCache id |}); try done.
  - by intros [? ?].
  - intros h Hh. by left.
Qed.

Lemma steady_saveMediaToTemp flt msg :
  respects steady (saveMediaToTemp flt msg).
Proof.
  intros w.
  change (wp (saveMediaToTemp flt msg) (λ _ w', steady w w') w).
  unfold saveMediaToTemp. wp_step.
  destruct (negb (msg_hasMedia msg)); [by wp_go|].
  destruct (msg_downloadMedia msg) as [| |media]; [by wp_go | by wp_go |].
  destruct (String.eqb (m_data media) EmptyString); [by wp_go|].
  destruct (_ <? _); [by wp_go|].
  wp_go. apply wp_writeFileSync. destruct (flt S_write_media); [by wp_go|].
  wp_go. simpl.
  eapply (alloc_steady _ _
            {| tm_handle := nextTimer w;
               tm_due := now w + DELETE_WINDOW_MS;
               tm_action := ExpireMedia _ _ _ |}); try done.
  - by intros [? ?].
  - simpl. intros h [Hh|Hh]%tracked_handle_insert; [|by left].
    right. unfold handles_of in Hh. simpl in Hh.
    by apply list_elem_of_singleton in Hh.
Qed.

Lemma steady_attachTranscript_alloc w w0 msgId path name :
  mediaTracker w0 = mediaTracker w →
  ∀ h,
    tracked_handle
      (match mediaTracker w0 !! msgId with
       | None =>
           <[msgId := {| t_media := None;
                         t_msgfile := Some {| msgFilePath := path;
                                              msgFilename := name;
                                              msgFileTimeout := nextTimer w |} |}]>
             (mediaTracker w0)
       | Some existing =>
           <[msgId := {| t_media := t_media existing;
                         t_msgfile := Some {| msgFilePath := path;
                                              msgFilename := name;
                                              msgFileTimeout := nextTimer w |} |}]>
             (mediaTracker w0)
       end) h →
    tracked_handle (mediaTracker w) h ∨ h = nextTimer w.
Proof.
  intros Hmt h. rewrite Hmt.
  destruct (mediaTracker w !! msgId) as [existing|] eqn:He.
  - intros [Hh|Hh]%tracked_handle_insert; [|by left].
    unfold handles_of in Hh. simpl in Hh.
    apply elem_of_app in Hh as [Hh|Hh%list_elem_of_singleton]; [|by right].
    left. exists msgId, existing. split; [done|].
    unfold handles_of. apply elem_of_app. by left.
  - intros [Hh|Hh]%tracked_handle_insert; [|by left].
    unfold handles_of in Hh. simpl in Hh.
    apply list_elem_of_singleton in Hh. by right.
Qed.

Section SteadyHandlers.

Variable getIST : Z → string.

Lemma steady_saveMessageFile flt msg senderName senderActualNumber
    chatLocation time messageBody saved :
  respects steady
    (saveMessageFile getIST flt msg senderName senderActualNumber
       chatLocation time messageBody saved).
Proof.
  intros w.
  change (wp (saveMessageFile getIST flt msg senderName senderActualNumber
                chatLocation time messageBody saved)
            (λ _ w', steady w w') w).
  unfold saveMessageFile. destruct senderName as [name|]; [|by wp_go].
  wp_go. apply wp_writeFileSync. destruct (flt S_write_msgfile); [by wp_go|].
  wp_go. unfold attachTranscript. wp_go. simpl.
  eapply (alloc_steady _ _
            {| tm_handle := nextTimer w;
               tm_due := now w + DELETE_WINDOW_MS;
               tm_action := ExpireMsgFile _ |}); try done.
  - by intros [? ?].
  - simpl. intros h Hh.
    apply (steady_attachTranscript_alloc w) in Hh as [?|?];
      [by left | by right | done].
Qed.

Lemma steady_on_message flt msg : respects steady (on_message getIST flt msg).
Proof.
  apply (respects_try_catch steady); [|intros; apply (respects_ret steady)].
  apply (respects_bind steady); [apply (respects_await steady) | intros chat].
  apply (respects_bind steady);
    [apply (respects_await steady) | intros contact].
  apply (respects_bind steady); [apply (respects_get steady) | intros w0].
  apply (respects_bind steady).
  { destruct (msg_hasMedia msg);
      [apply steady_saveMediaToTemp | apply (respects_ret steady)]. }
  intros saved. apply (respects_bind steady).
  { destruct (_ && _); [|apply (respects_ret steady)].
    apply respects_still_steady, still_viewOnceCapture. }
  intros _. apply (respects_bind steady).
  { apply respects_still_steady, still_appendLog. }
  intros _. apply (respects_bind steady); [apply steady_saveMessageFile|].
  intros msgFilePath. apply steady_cacheMessage.
Qed.

Lemma steady_on_message_create msg :
  respects steady (on_message_create msg).
Proof.
  apply (respects_try_catch steady); [|intros; apply (respects_ret steady)].
  destruct (msg_fromMe msg); [apply (respects_ret steady)|].
  apply (respects_bind steady); [apply (respects_get steady) | intros w0].
  destruct (cache_get _ _); [apply (respects_ret steady)|].
  apply (respects_bind steady); [apply (respects_await steady) | intros chat].
  apply (respects_bind steady);
    [apply (respects_await steady) | intros contact].
  apply steady_cacheMessage.
Qed.

Lemma steady_on_ready flt : respects steady (on_ready getIST flt).
Proof.
  apply (respects_bind steady); [apply (respects_get steady) | intros w0].
  apply (respects_bind steady).
  { apply respects_still_steady, still_sendPushNotification. }
  intros _ w. by apply steady_same.
Qed.

End SteadyHandlers.

(** *** The revoke handler is steady *)

Lemma sheds_clearTimeout H h : h ∈ H → respects (sheds H) (clearTimeout h).
Proof.
  intros Hh w. split; try done; simpl.
  - intros tm Htm. by apply list_elem_of_filter in Htm as [_ ?].
  - intros tm Htm. destruct (decide (tm_handle tm = h)) as [->|Hne].
    + by right.
    + left. by apply list_elem_of_filter.
Qed.

Lemma sheds_promoteTracked flt tracked :
  respects (sheds (handles_of_entry tracked)) (promoteTracked flt tracked).
Proof.
  set (H := handles_of_entry tracked).
  destruct tracked as [[media msgfile]|]; [|apply (respects_ret (sheds H))].
  unfold promoteTracked.
  apply (respects_bind (sheds H)).
  - destruct media as [slot|]; [|apply (respects_ret (sheds H))].
    simpl. apply (respects_bind (sheds H)).
    { apply sheds_clearTimeout. unfold H, handles_of_entry, handles_of.
      simpl. left. }
    intros _. apply (respects_bind (sheds H)).
    { apply respects_still_sheds, still_existsSync. }
    intros []; [|apply (respects_ret (sheds H))].
    apply (respects_bind (sheds H));
      [|intros; apply (respects_ret (sheds H))].
    apply respects_still_sheds, still_renameSync.
  - intros mediaRef. apply (respects_bind (sheds H));
      [|intros; apply (respects_ret (sheds H))].
    destruct msgfile as [slot|]; [|apply (respects_ret (sheds H))].
    simpl. apply (respects_bind (sheds H)).
    { apply sheds_clearTimeout. unfold H, handles_of_entry, handles_of.
      simpl. apply elem_of_app. right. by apply list_elem_of_singleton. }
    intros _. apply (respects_bind (sheds H)).
    { apply respects_still_sheds, still_existsSync. }
    intros []; [|apply (respects_ret (sheds H))].
    apply respects_still_sheds, still_renameSync.
Qed.

Lemma sheds_cleanup H tracked msgId : respects (sheds H) (modify (cleanup tracked msgId)).
Proof.
  intros w. unfold cleanup. destruct tracked; split; simpl; auto.
  apply tracked_handle_delete.
Qed.

Lemma steady_marked id w :
  id ∉ processedRevokes w → steady w (marked id w).
Proof.
  intros Hnew [W1 W2 W3 G U].
  assert (Hin : ∀ x, x ∈ timers (marked id w)
    ↔ x = {| tm_handle := nextTimer w;
             tm_due := now w + REVOKE_DEDUP_TTL_MS;
             tm_action := ExpireRevoke id |} ∨ x ∈ timers w).
  { intros x. apply elem_of_insert_timer. }
  split_and!.
  - split; simpl.
    + intros x [->|Hx]%Hin; simpl; [lia|]. specialize (W1 x Hx). lia.
    + intros h Hh. specialize (W2 h Hh). lia.
    + intros x [->|Hx]%Hin Hh; [|by apply W3].
      specialize (W2 _ Hh). simpl in W2. lia.
    + intros x id' [->|Hx]%Hin Ha; simpl in *.
      * injection Ha as <-. apply elem_of_union. left.
        by apply elem_of_singleton.
      * specialize (G x id' Hx Ha). apply elem_of_union. by right.
    + intros x x' id' [->|Hx]%Hin [->|Hx']%Hin Ha Ha'; simpl in *;
        try done.
      * injection Ha as <-. by specialize (G x' id Hx' Ha').
      * injection Ha' as <-. by specialize (G x id Hx Ha).
      * eauto.
  - simpl. apply union_subseteq_r.
  - intros x Hx _. apply Hin. by right.
Qed.

Section Window.

Variable getIST : Z → string.

Lemma sheds_reconcile flt afterMsg beforeMsg w :
  sheds
    (handles_of_entry
       (mediaTracker w
        !! v_msgId (resolve_fields afterMsg beforeMsg (messageCache w))))
    w (reconcile getIST flt afterMsg beforeMsg w).2.
Proof.
  set (H := handles_of_entry _).
  unfold reconcile. unfold bind at 1. unfold get at 1.
  revert w H. intros w H.
  match goal with |- sheds H w (?m w).2 => assert (respects (sheds H) m) as Hm end;
    [|apply Hm].
  apply (respects_bind (sheds H)); [apply sheds_promoteTracked|].
  intros mediaRef. apply (respects_bind (sheds H)).
  { apply respects_still_sheds, still_promoteCachedFile. }
  intros _. apply (respects_bind (sheds H)).
  { apply respects_still_sheds, still_appendLog. }
  intros _. apply (respects_bind (sheds H)).
  { apply respects_still_sheds, still_saveDeletedRecord. }
  intros _. apply (respects_bind (sheds H)).
  { apply respects_still_sheds, still_sendPushNotification. }
  intros _. apply (respects_bind (sheds H)).
  { apply respects_still_sheds, still_sendDeletedMedia. }
  intros _. apply sheds_cleanup.
Qed.

Lemma steady_on_message_revoke_everyone flt afterMsg beforeMsg :
  respects steady (on_message_revoke_everyone getIST flt afterMsg beforeMsg).
Proof.
  intros w.
  destruct (decide (now w - readyTimestamp w < STARTUP_GRACE_MS)) as [Hg|Hg].
  { rewrite on_message_revoke_everyone_grace by done. reflexivity. }
  destruct (decide (msg_id afterMsg ∈ processedRevokes w)) as [Hd|Hd].
  { rewrite on_message_revoke_everyone_duplicate by done. reflexivity. }
  rewrite on_message_revoke_everyone_accepted by (split; [lia | done]).
  set (w1 := marked (msg_id afterMsg) w).
  transitivity w1; [by apply steady_marked|].
  set (H := handles_of_entry
    (mediaTracker w1
     !! v_msgId (resolve_fields afterMsg beforeMsg (messageCache w1)))).
  apply (sheds_steady H).
  - pose proof (sheds_reconcile flt afterMsg beforeMsg w1) as Hs.
    fold H in Hs. unfold try_catch.
    destruct (reconcile getIST flt afterMsg beforeMsg w1) as [[[]|err] w2];
      simpl in *; [done|].
    etransitivity; [done|].
    apply still_sheds, still_fallback_notification.
  - intros h Hh. unfold H, handles_of_entry in Hh.
    destruct (mediaTracker w1 !! _) as [tr|] eqn:Htr;
      [|by apply elem_of_nil in Hh].
    by eexists _, tr.
Qed.

Lemma steady_handler flt e : respects steady (handler getIST flt e).
Proof.
  destruct e; simpl.
  - apply steady_on_ready.
  - apply steady_on_message.
  - apply steady_on_message_create.
  - apply steady_on_message_revoke_everyone.
Qed.

End Window.

(** *** Firing timers *)

Lemma timers_run_timer b tm w : timers (run_timer b tm w) = timers w.
Proof.
  unfold run_timer, expire_media, expire_msgfile.
  destruct (tm_action tm); simpl; [done| | |done].
  - by destruct (files w !! path), b.
  - by destruct (files w !! path), b.
Qed.

Lemma processedRevokes_run_timer b tm w :
  processedRevokes (run_timer b tm w)
  = match tm_action tm with
    | ExpireRevoke id => processedRevokes w ∖ {[id]}
    | _ => processedRevokes w
    end.
Proof.
  unfold run_timer, expire_media, expire_msgfile.
  destruct (tm_action tm); simpl; [done| | |done].
  - by destruct (files w !! path), b.
  - by destruct (files w !! path), b.
Qed.

Lemma tracked_handle_run_timer b tm w h :
  tracked_handle (mediaTracker (run_timer b tm w)) h →
  tracked_handle (mediaTracker w) h.
Proof.
  unfold run_timer, expire_media, expire_msgfile.
  destruct (tm_action tm); simpl; [done| | |done].
  - destruct (files w !! path), b; simpl; apply tracked_handle_delete.
  - by destruct (files w !! path), b.
Qed.

Lemma tracked_handle_fire_due tf t pending w h :
  tracked_handle (mediaTracker (fire_due tf t pending w)) h →
  tracked_handle (mediaTracker w) h.
Proof.
  revert w. induction pending as [|tm l IH]; intros w; simpl; [done|].
  destruct (tm_due tm <=? t); intros Hh%IH; [|done].
  by eapply tracked_handle_run_timer.
Qed.

Lemma processedRevokes_fire_due_sub tf t pending w id :
  id ∈ processedRevokes (fire_due tf t pending w) → id ∈ processedRevokes w.
Proof.
  revert w. induction pending as [|tm l IH]; intros w; simpl; [done|].
  destruct (tm_due tm <=? t); intros Hin%IH; [|done].
  rewrite processedRevokes_run_timer in Hin.
  destruct (tm_action tm); try done.
  by apply elem_of_difference in Hin as [? _].
Qed.

(** An id stays in the dedup set while no removal of it is due. *)
Lemma processedRevokes_fire_due_kept tf t pending w id :
  id ∈ processedRevokes w →
  (∀ tm, tm ∈ pending → tm_due tm ≤ t → tm_action tm ≠ ExpireRevoke id) →
  id ∈ processedRevokes (fire_due tf t pending w).
Proof.
  revert w. induction pending as [|tm l IH]; intros w Hin Hnone; simpl;
    [done|].
  assert (Hrest : ∀ tm', tm' ∈ l → tm_due tm' ≤ t →
                         tm_action tm' ≠ ExpireRevoke id).
  { intros tm' Htm'. apply Hnone. by right. }
  destruct (Z.leb_spec (tm_due tm) t) as [Hdue|Hdue]; apply IH; try done.
  rewrite processedRevokes_run_timer.
  specialize (Hnone tm (list_elem_of_here _ _) Hdue).
  destruct (tm_action tm) as [| | |id']; try done.
  apply elem_of_difference. split; [done|].
  intros ->%elem_of_singleton. by apply Hnone.
Qed.

(** An id leaves the dedup set once its removal is due. *)
Lemma processedRevokes_fire_due_expired tf t pending w tm id :
  tm ∈ pending → tm_due tm ≤ t → tm_action tm = ExpireRevoke id →
  id ∉ processedRevokes (fire_due tf t pending w).
Proof.
  revert w. induction pending as [|x l IH]; intros w Hin Hdue Hact.
  { by apply elem_of_nil in Hin. }
  simpl. apply elem_of_cons in Hin as [<-|Hin].
  - rewrite (proj2 (Z.leb_le _ _) Hdue).
    intros Hid%processedRevokes_fire_due_sub.
    rewrite processedRevokes_run_timer, Hact in Hid.
    apply elem_of_difference in Hid as [_ Hid]. apply Hid.
    by apply elem_of_singleton.
  - destruct (tm_due x <=? t); by apply IH.
Qed.

Lemma timers_fire_due tf t pending w :
  timers (fire_due tf t pending w) = timers w.
Proof.
  revert w. induction pending as [|tm l IH]; intros w; simpl; [done|].
  destruct (tm_due tm <=? t); rewrite IH, ?timers_run_timer; done.
Qed.

Lemma processedRevokes_advance tf t w :
  processedRevokes (advance tf t w)
  = processedRevokes (fire_due tf t (timers w) w).
Proof. reflexivity. Qed.

Lemma mediaTracker_advance tf t w :
  mediaTracker (advance tf t w) = mediaTracker (fire_due tf t (timers w) w).
Proof. reflexivity. Qed.

Lemma coherent_advance tf t w : coherent w → coherent (advance tf t w).
Proof.
  intros [W1 W2 W3 G U].
  assert (Hin : ∀ tm, tm ∈ timers (advance tf t w) →
                      tm ∈ timers w ∧ t < tm_due tm).
  { intros tm Htm. rewrite timers_advance in Htm.
    apply list_elem_of_filter in Htm as [? ?]. done. }
  split.
  - intros tm [Htm _]%Hin. rewrite nextTimer_advance. auto.
  - intros h Hh. rewrite nextTimer_advance. apply W2.
    rewrite mediaTracker_advance in Hh. by eapply tracked_handle_fire_due.
  - intros tm [Htm _]%Hin Hh. apply W3; [done|].
    rewrite mediaTracker_advance in Hh. by eapply tracked_handle_fire_due.
  - intros tm id [Htm Hdue]%Hin Ha. rewrite processedRevokes_advance.
    apply processedRevokes_fire_due_kept; [by eapply G|].
    intros tm' Htm' Hdue' Ha'.
    assert (tm' = tm) as -> by eauto. lia.
  - intros tm tm' id [Htm _]%Hin [Htm' _]%Hin. eauto.
Qed.

Lemma coherent_initial t0 : coherent (initial t0).
Proof.
  split; simpl.
  - intros tm Htm. by apply elem_of_nil in Htm.
  - intros h (id & tr & Hl & _). by rewrite lookup_empty in Hl.
  - intros tm Htm. by apply elem_of_nil in Htm.
  - intros tm id Htm. by apply elem_of_nil in Htm.
  - intros tm tm' id Htm. by apply elem_of_nil in Htm.
Qed.

(** *** The dedup window *)

Lemma guarding_steady id T w w' :
  steady w w' → guarding id T w → guarding id T w'.
Proof.
  intros Hs [Hc Hm (tm & Htm & Ha & Hd)].
  destruct (Hs Hc) as (Hc' & Hsub & Hkeep).
  split; [done | by apply Hsub |].
  exists tm. split_and!; [|done..]. apply Hkeep; [done | by exists id].
Qed.

Lemma guarding_advance id T tf t w :
  t < T → guarding id T w → guarding id T (advance tf t w).
Proof.
  intros Ht [Hc Hm (tm & Htm & Ha & Hd)].
  split; [by apply coherent_advance | |].
  - rewrite processedRevokes_advance.
    apply processedRevokes_fire_due_kept; [done|].
    intros tm' Htm' Hdue' Ha'.
    assert (tm' = tm) as -> by (eapply (coh_unique _ Hc); eauto). lia.
  - exists tm. split_and!; [|done..].
    rewrite timers_advance. apply list_elem_of_filter. split; [lia | done].
Qed.

Lemma guarding_expired id T tf t w :
  T ≤ t → guarding id T w → id ∉ processedRevokes (advance tf t w).
Proof.
  intros Ht [_ _ (tm & Htm & Ha & Hd)]. rewrite processedRevokes_advance.
  eapply processedRevokes_fire_due_expired; [done | lia | done].
Qed.

Section Traces.

Variable getIST : Z → string.

Lemma coherent_step w o : coherent w → coherent (step getIST w o).
Proof.
  intros Hc. unfold step, exec.
  by apply (steady_handler getIST (o_faults o) (o_event o)
              (advance (o_timer_faults o) (o_time o) w)),
    coherent_advance.
Qed.

Lemma coherent_run trace w : coherent w → coherent (run getIST trace w).
Proof.
  revert w. induction trace as [|o trace IH]; intros w Hc; [done|].
  simpl. by apply IH, coherent_step.
Qed.

Lemma guarding_step id T w o :
  o_time o < T → guarding id T w → guarding id T (step getIST w o).
Proof.
  intros Ht Hg. unfold step, exec.
  eapply guarding_steady; [apply steady_handler|].
  by apply guarding_advance.
Qed.

Lemma guarding_run id T trace w :
  Forall (λ o, o_time o < T) trace → guarding id T w →
  guarding id T (run getIST trace w).
Proof.
  intros Htrace. revert w.
  induction Htrace as [|o trace Ho _ IH]; intros w Hg; [done|].
  simpl. by apply IH, guarding_step.
Qed.

(** Admission starts the window. *)
Lemma guarding_accepted flt afterMsg beforeMsg w :
  coherent w → accepted afterMsg w →
  guarding (msg_id afterMsg) (now w + REVOKE_DEDUP_TTL_MS)
    (exec (on_message_revoke_everyone getIST flt afterMsg beforeMsg) w).
Proof.
  intros Hc [Hgrace Hnew].
  set (w1 := marked (msg_id afterMsg) w).
  assert (Hg1 : guarding (msg_id afterMsg) (now w + REVOKE_DEDUP_TTL_MS) w1).
  { split.
    - by apply (steady_marked _ w Hnew).
    - simpl. apply elem_of_union. left. by apply elem_of_singleton.
    - eexists. split_and!; [apply elem_of_insert_timer; by left|done..]. }
  pose proof (steady_on_message_revoke_everyone getIST flt afterMsg
                beforeMsg w) as Hs.
  unfold exec. rewrite on_message_revoke_everyone_accepted in * by done.
  fold w1 in Hs |- *.
  set (H := handles_of_entry
    (mediaTracker w1
     !! v_msgId (resolve_fields afterMsg beforeMsg (messageCache w1)))).
  eapply guarding_steady; [|done].
  apply (sheds_steady H).
  - pose proof (sheds_reconcile getIST flt afterMsg beforeMsg w1) as Hsh.
    fold H in Hsh. unfold try_catch.
    destruct (reconcile getIST flt afterMsg beforeMsg w1) as [[[]|err] w2];
      simpl in *; [done|].
    etransitivity; [done|].
    apply still_sheds, still_fallback_notification.
  - intros h Hh. unfold H, handles_of_entry in Hh.
    destruct (mediaTracker w1 !! _) as [tr|] eqn:Htr;
      [|by apply elem_of_nil in Hh].
    by eexists _, tr.
Qed.

(** Claim C3.  In any world the event loop reaches, a revoke event
    accepted by the gates runs the reconciliation with its id marked.
    From then on, whatever events are handled before the deadline
    [now + REVOKE_DEDUP_TTL_MS], a revoke event with the same id handled
    before the deadline leaves the world as it is (no notification, no
    record, no promotion), and one handled at or after the deadline,
    outside a grace period, runs the reconciliation again. *)
Theorem revoke_dedup_window
    (t0 : Z) (history : list occurrence) (tf0 : nat → bool) (t : Z)
    (flt : faults) (afterMsg : message) (beforeMsg : option message) :
  let w := advance tf0 t (run getIST history (initial t0)) in
  let id := msg_id afterMsg in
  let deadline := now w + REVOKE_DEDUP_TTL_MS in
  accepted afterMsg w →
  on_message_revoke_everyone getIST flt afterMsg beforeMsg w
  = try_catch (reconcile getIST flt afterMsg beforeMsg)
      (fallback_notification flt) (marked id w)
  ∧ ∀ later : list occurrence,
      Forall (λ o, o_time o < deadline) later →
      let w' := run getIST later
                  (exec (on_message_revoke_everyone getIST flt afterMsg
                           beforeMsg) w) in
      (∀ tf t' flt' afterMsg' beforeMsg',
         t' < deadline → msg_id afterMsg' = id →
         on_message_revoke_everyone getIST flt' afterMsg' beforeMsg'
           (advance tf t' w')
         = (Returned tt, advance tf t' w'))
      ∧ (∀ tf t' flt' afterMsg' beforeMsg',
           deadline ≤ t' → msg_id afterMsg' = id →
           STARTUP_GRACE_MS
           ≤ now (advance tf t' w') - readyTimestamp (advance tf t' w') →
           on_message_revoke_everyone getIST flt' afterMsg' beforeMsg'
             (advance tf t' w')
           = try_catch (reconcile getIST flt' afterMsg' beforeMsg')
               (fallback_notification flt') (marked id (advance tf t' w'))).
Proof.
  intros w id deadline Hadm.
  assert (Hc : coherent w).
  { apply coherent_advance, coherent_run, coherent_initial. }
  split; [by apply on_message_revoke_everyone_accepted|].
  intros later Hlater w'.
  assert (Hg : guarding id deadline w').
  { apply guarding_run; [done|]. by apply guarding_accepted. }
  split.
  - intros tf t' flt' afterMsg' beforeMsg' Ht' Hid.
    apply on_message_revoke_everyone_duplicate. rewrite Hid.
    by apply (guarding_advance id deadline tf t' w' Ht' Hg).
  - intros tf t' flt' afterMsg' beforeMsg' Ht' Hid Hgrace.
    rewrite <-Hid. apply on_message_revoke_everyone_accepted.
    split; [done|]. rewrite Hid. by eapply guarding_expired.
Qed.

End Traces.

(** With distinct ids every call inserts a new key, and the cache holds a
    tail of the sequence of ids. *)
Lemma make_room_keys_sub id c :
  id ∉ c.*1 → id ∉ (make_room c).*1.
Proof.
  intros Hid Hin. destruct (cache_get id (make_room c)) as [s|] eqn:E.
  - apply cache_get_make_room_Some in E.
    apply (proj2 (cache_get_None_keys id c)) in Hid. congruence.
  - by apply cache_get_None_keys in E.
Qed.

Lemma insertion_log_distinct ps w :
  NoDup ((λ p : Z * string * snapshot, p.1.2) <$> ps) →
  (∀ p, p ∈ ps → p.1.2 ∉ (messageCache w).*1) →
  insertion_log ps w = (λ p : Z * string * snapshot, p.1.2) <$> ps.
Proof.
  revert w. induction ps as [|p ps IH]; intros w Hnd Hfresh; [done|].
  csimpl in *. apply NoDup_cons in Hnd as [Hp Hnd].
  assert (Hnone : cache_get p.1.2 (make_room (messageCache w)) = None).
  { apply cache_get_None_keys, make_room_keys_sub, Hfresh. left. }
  rewrite Hnone. simpl. f_equal. apply IH; [done|].
  intros q Hq. rewrite messageCache_put_at. unfold cache_put.
  rewrite cache_set_keys, Hnone.
  intros [Hin|Hin%list_elem_of_singleton]%elem_of_app.
  - revert Hin. apply make_room_keys_sub, Hfresh. by right.
  - apply Hp. rewrite <-Hin. apply list_elem_of_fmap. by exists q.
Qed.

Lemma put_all_distinct t0 ps :
  NoDup ((λ p : Z * string * snapshot, p.1.2) <$> ps) →
  ∃ older,
    (λ p : Z * string * snapshot, p.1.2) <$> ps
    = (older ++ (messageCache (put_all ps (initial t0))).*1)%list.
Proof.
  intros Hnd.
  destruct (put_all_invariant ps (initial t0)) as (_ & _ & older & Hlog).
  { apply NoDup_nil_2. }
  { simpl. lia. }
  exists older. rewrite <-Hlog. symmetry.
  apply insertion_log_distinct; [done|].
  intros p _. apply not_elem_of_nil.
Qed.

(** *** The grace period after [ready] *)

Lemma readyTimestamp_run_timer b tm w :
  readyTimestamp (run_timer b tm w) = readyTimestamp w.
Proof.
  unfold run_timer, expire_media, expire_msgfile.
  destruct (tm_action tm); simpl; [done| | |done].
  - by destruct (files w !! path), b.
  - by destruct (files w !! path), b.
Qed.

Lemma readyTimestamp_advance tf t w :
  readyTimestamp (advance tf t w) = readyTimestamp w.
Proof.
  unfold advance. simpl. generalize (timers w). intros pending. revert w.
  induction pending as [|tm l IH]; intros w; simpl; [done|].
  destruct (tm_due tm <=? t); rewrite IH, ?readyTimestamp_run_timer; done.
Qed.

Section Positive.

Variable getIST : Z → string.

(** A revoke event that arrives less than [STARTUP_GRACE_MS] after the
    [ready] handler ran is discarded: the world is unchanged. *)
Lemma revoke_within_grace_discarded flt0 w tf t flt afterMsg beforeMsg :
  now w ≤ t → t < now w + STARTUP_GRACE_MS →
  let w' := advance tf t (exec (on_ready getIST flt0) w) in
  on_message_revoke_everyone getIST flt afterMsg beforeMsg w'
  = (Returned tt, w').
Proof.
  intros Hle Hlt w'. apply on_message_revoke_everyone_grace.
  unfold w'. rewrite readyTimestamp_advance, now_advance.
  change (readyTimestamp (exec _ w)) with (now w).
  change (now (exec _ w)) with (now w). lia.
Qed.

(** After a reconciliation that ran to its end, the entries of the id are
    gone from the tracker and from the cache, and a second promotion
    finds nothing to do. *)
Lemma promotion_after_cleanup flt afterMsg beforeMsg w :
  no_unguarded_fault flt →
  let msgId := v_msgId (resolve_fields afterMsg beforeMsg (messageCache w)) in
  let w' := exec (reconcile getIST flt afterMsg beforeMsg) w in
  mediaTracker w' !! msgId = None
  ∧ cache_get msgId (messageCache w') = None
  ∧ ∀ flt' w'',
      promoteTracked flt' (mediaTracker w' !! msgId) w'' = (Returned EmptyString, w'')
      ∧ promoteCachedFile flt' (mediaTracker w' !! msgId)
          (cache_get msgId (messageCache w')) w'' = (Returned tt, w'').
Proof.
  intros Hflt msgId w'.
  destruct (reconcile_completes getIST flt afterMsg beforeMsg w Hflt)
    as (mediaRef & w1 & w2 & w3 & E1 & E2 & E3 & Hrun).
  fold msgId in E1, E2, E3, Hrun.
  assert (Hw' : w' = cleanup (mediaTracker w !! msgId) msgId w3).
  { unfold w', exec. by rewrite Hrun. }
  assert (Htr : mediaTracker w3 = mediaTracker w).
  { pose proof (respects_run _ _ _ _ _
      (sheds_promoteTracked flt (mediaTracker w !! msgId)) E1) as H1.
    assert (Hm1 : mediaTracker w1 = mediaTracker w).
    { clear -E1. revert E1.
      destruct (mediaTracker w !! msgId) as [[[m|] [f|]]|];
        unfold promoteTracked, existsSync, renameSync, clearTimeout, emit,
          modify, bind, get, ret, throw; simpl;
        repeat (case_bool_decide || case_match); intros; simplify_eq/=; done. }
    rewrite <-Hm1.
    rewrite (still_tracker _ _ (respects_run still _ _ _ _
               (still_sendDeletedMedia flt _ _) E3)). simpl.
    apply (still_tracker _ _ (respects_run still _ _ _ _
             (still_promoteCachedFile flt _ _) E2)). }
  assert (Hnone : mediaTracker w' !! msgId = None).
  { rewrite Hw'. unfold cleanup.
    destruct (mediaTracker w !! msgId) eqn:E; simpl.
    - apply lookup_delete_eq.
    - by rewrite Htr. }
  assert (Hcache : cache_get msgId (messageCache w') = None).
  { rewrite Hw'. unfold cleanup.
    destruct (mediaTracker w !! msgId); simpl; apply cache_get_delete_eq. }
  split_and!; [done..|]. intros flt' w''. by rewrite Hnone, Hcache.
Qed.

End Positive.

(** *** The two writes of the tracker *)

(** The media write replaces the entry of the id: whatever the entry
    held, it has no transcript fields afterwards. *)
Lemma saveMediaToTemp_replaces_entry flt msg media w :
  msg_hasMedia msg = true → msg_downloadMedia msg = Downloaded media →
  m_data media ≠ EmptyString →
  m_sizeBytes media ≤ MAX_MEDIA_SIZE_MB * 1024 * 1024 →
  flt S_write_media = false →
  mediaTracker (exec (saveMediaToTemp flt msg) w) !! msg_id msg ≫= t_msgfile
  = None.
Proof.
  intros Hmedia Hdl Hdata Hsize Hflt.
  unfold exec, saveMediaToTemp, try_catch. rewrite Hmedia, Hdl. simpl.
  apply String.eqb_neq in Hdata. rewrite Hdata.
  apply Z.ltb_ge in Hsize. rewrite Hsize.
  unfold writeFileSync. rewrite Hflt.
  unfold bind, get, modify, emit, setTimeout, ret. simpl.
  by rewrite lookup_insert_eq.
Qed.

(** The transcript write keeps the media fields of an entry, and makes
    the entry when there is none. *)
Lemma attachTranscript_keeps_media msgId slot w :
  mediaTracker (exec (attachTranscript msgId slot) w) !! msgId
  = Some {| t_media := mediaTracker w !! msgId ≫= t_media;
            t_msgfile := Some slot |}.
Proof.
  unfold exec, attachTranscript, modify. simpl.
  destruct (mediaTracker w !! msgId); simpl; by rewrite lookup_insert_eq.
Qed.


(** *** Promotion *)

Lemma v_msgId_resolve_fields afterMsg beforeMsg c :
  v_msgId (resolve_fields afterMsg beforeMsg c) = revoked_id afterMsg beforeMsg.
Proof.
  unfold resolve_fields, revoked_id.
  destruct beforeMsg as [b|]; [destruct (msg_getContact b)|];
    by destruct (cache_get _ c).
Qed.

Lemma v_cached_resolve_fields afterMsg beforeMsg c :
  v_cached (resolve_fields afterMsg beforeMsg c)
  = cache_get (revoked_id afterMsg beforeMsg) c.
Proof.
  unfold resolve_fields, revoked_id.
  destruct beforeMsg as [b|]; [destruct (msg_getContact b)|];
    by destruct (cache_get _ c).
Qed.

Lemma filter_file_operations_snoc (l : list effect) e :
  is_file_operation e = false →
  filter (λ e, is_file_operation e = true) (l ++ [e])%list
  = filter (λ e, is_file_operation e = true) l.
Proof.
  intros He. rewrite filter_app, filter_cons_False, filter_nil, app_nil_r;
    [done | by rewrite He].
Qed.

Lemma mediaTracker_run_timer_None b tm id w :
  mediaTracker w !! id = None → mediaTracker (run_timer b tm w) !! id = None.
Proof.
  intros Hnone. unfold run_timer, expire_media, expire_msgfile.
  destruct (tm_action tm); simpl; [done| | |done].
  - destruct (files w !! path), b; simpl; apply lookup_delete_None; by right.
  - by destruct (files w !! path), b.
Qed.

Lemma mediaTracker_fire_due_None tf t pending id w :
  mediaTracker w !! id = None →
  mediaTracker (fire_due tf t pending w) !! id = None.
Proof.
  revert w. induction pending as [|tm l IH]; intros w Hnone; simpl; [done|].
  destruct (tm_due tm <=? t); apply IH; [|done].
  by apply mediaTracker_run_timer_None.
Qed.

(** A timer of a media file that is due deletes the entry of its id. *)
Lemma fire_due_expires_media tf t pending tm path name id w :
  tm ∈ pending → tm_due tm ≤ t → tm_action tm = ExpireMedia path name id →
  mediaTracker (fire_due tf t pending w) !! id = None.
Proof.
  revert w. induction pending as [|x l IH]; intros w Hin Hdue Hact.
  { by apply elem_of_nil in Hin. }
  simpl. apply elem_of_cons in Hin as [<-|Hin].
  - rewrite (proj2 (Z.leb_le _ _) Hdue).
    apply mediaTracker_fire_due_None.
    unfold run_timer, expire_media. rewrite Hact.
    destruct (files w !! path), (tf (tm_handle tm)); simpl;
      apply lookup_delete_eq.
  - destruct (tm_due x <=? t); by eapply IH.
Qed.

(** A media slot whose file is gone counts as absent: its timer is
    cancelled and the promotion goes on with the transcript. *)
Lemma promoteTracked_media_missing flt tr slot w :
  t_media tr = Some slot → files w !! filePath slot = None →
  promoteTracked flt (Some tr) w
  = promoteTracked flt (Some {| t_media := None; t_msgfile := t_msgfile tr |})
      (exec (clearTimeout (timeout slot)) w).
Proof.
  intros Hslot Hfile. destruct tr as [m f]. simpl in *. subst m.
  unfold promoteTracked. simpl.
  unfold bind at 1. unfold bind at 1. unfold clearTimeout at 1.
  unfold modify at 1. unfold bind at 1. unfold existsSync at 1.
  unfold bind at 1. unfold get at 1. unfold ret at 1. simpl.
  rewrite Hfile. rewrite bool_decide_eq_false_2 by (by intros [? ?]).
  reflexivity.
Qed.

(** So does the transcript slot of an entry without media. *)
Lemma promoteTracked_transcript_missing flt tr slot w :
  t_media tr = None → t_msgfile tr = Some slot →
  files w !! msgFilePath slot = None →
  promoteTracked flt (Some tr) w
  = (Returned EmptyString, exec (clearTimeout (msgFileTimeout slot)) w).
Proof.
  intros Hm Hslot Hfile. destruct tr as [m f]. simpl in *. subst m f.
  unfold promoteTracked, existsSync, clearTimeout, modify, bind, get, ret.
  simpl. rewrite Hfile. by rewrite bool_decide_eq_false_2 by (by intros [? ?]).
Qed.

Section Promotion.

Variable getIST : Z → string.

(** A revoke event for an id that has neither a tracker entry nor a
    cached snapshot performs no file operation, and a record it persists
    names no media. *)
Lemma revoke_of_untracked_moves_nothing flt afterMsg beforeMsg w :
  let msgId := revoked_id afterMsg beforeMsg in
  mediaTracker w !! msgId = None →
  cache_get msgId (messageCache w) = None →
  let w' := exec (on_message_revoke_everyone getIST flt afterMsg beforeMsg) w in
  file_operations w' = file_operations w
  ∧ ∀ r, r ∈ persisted w' → r ∈ persisted w ∨ r_mediaFilename r = None.
Proof.
  intros msgId Htr Hc w'. unfold w', exec.
  destruct (Z.ltb_spec (now w - readyTimestamp w) STARTUP_GRACE_MS)
    as [Hgrace|Hgrace].
  { rewrite on_message_revoke_everyone_grace by done. simpl. auto. }
  destruct (decide (msg_id afterMsg ∈ processedRevokes w)) as [Hdup|Hnew].
  { rewrite on_message_revoke_everyone_duplicate by done. simpl. auto. }
  rewrite on_message_revoke_everyone_accepted by done.
  set (wm := marked (msg_id afterMsg) w). unfold try_catch.
  remember (reconcile getIST flt afterMsg beforeMsg wm) as res eqn:Hres.
  unfold reconcile in Hres. unfold bind at 1 in Hres. unfold get at 1 in Hres.
  rewrite v_cached_resolve_fields, v_msgId_resolve_fields in Hres.
  change (messageCache wm) with (messageCache w) in Hres.
  change (mediaTracker wm) with (mediaTracker w) in Hres.
  fold msgId in Hres. rewrite Htr, Hc in Hres.
  unfold promoteTracked, promoteCachedFile, sendDeletedMedia, appendLog
    in Hres.
  unfold bind at 1 in Hres. unfold ret at 1 in Hres.
  unfold bind at 1 in Hres. unfold ret at 1 in Hres.
  destruct (flt S_append_log); simpl in Hres; subst res; simpl.
  - split.
    + unfold file_operations. simpl. by rewrite filter_file_operations_snoc.
    + intros r. unfold persisted. simpl. rewrite omap_app. simpl.
      rewrite app_nil_r. intros Hr. by left.
  - split.
    + unfold file_operations. simpl.
      by rewrite !filter_file_operations_snoc.
    + intros r. unfold persisted. simpl. rewrite !omap_app. simpl.
      rewrite !app_nil_r, elem_of_app, list_elem_of_singleton.
      intros [Hr| ->]; [by left | by right].
Qed.

(** A reconciliation that ran to its end leaves neither a tracker entry
    nor a cached snapshot for the id, and the timers bring none back. *)
Lemma revoke_completed_clears flt afterMsg beforeMsg w tf t :
  accepted afterMsg w → no_unguarded_fault flt →
  let msgId := revoked_id afterMsg beforeMsg in
  let w1 := advance tf t
              (exec (on_message_revoke_everyone getIST flt afterMsg
                       beforeMsg) w) in
  mediaTracker w1 !! msgId = None ∧ cache_get msgId (messageCache w1) = None.
Proof.
  intros Hacc Hflt msgId w1.
  set (wm := marked (msg_id afterMsg) w).
  assert (Hexec : exec (on_message_revoke_everyone getIST flt afterMsg
                          beforeMsg) w
                  = exec (reconcile getIST flt afterMsg beforeMsg) wm).
  { unfold exec. rewrite on_message_revoke_everyone_accepted by done.
    fold wm. unfold try_catch.
    destruct (reconcile_completes getIST flt afterMsg beforeMsg wm Hflt)
      as (mediaRef & w1' & w2 & w3 & _ & _ & _ & Hrun).
    by rewrite Hrun. }
  destruct (promotion_after_cleanup getIST flt afterMsg beforeMsg wm Hflt)
    as (Htr & Hc & _).
  rewrite v_msgId_resolve_fields in Htr, Hc. fold msgId in Htr, Hc.
  unfold w1. rewrite Hexec, mediaTracker_advance, messageCache_advance.
  split.
  - by apply mediaTracker_fire_due_None.
  - by apply cache_get_None_fire_due.
Qed.

(** An entry without a media slot yields no media reference. *)
Lemma promoteTracked_no_media_ref flt tracked w :
  tracked ≫= t_media = None →
  ∀ r, (promoteTracked flt tracked w).1 = Returned r → r = EmptyString.
Proof.
  destruct tracked as [[[m|] [f|]]|]; try done; intros _ r;
    unfold promoteTracked, existsSync, renameSync, clearTimeout, emit,
      modify, bind, get, ret, throw; simpl;
    repeat (case_bool_decide || case_match); simplify_eq/=;
    intros; by simplify_eq/=.
Qed.

(** An accepted revoke event whose id has no media slot in the tracker:
    the record it persists names no media, and its log entry carries no
    media reference. *)
Lemma revoke_without_media_slot flt afterMsg beforeMsg w :
  accepted afterMsg w → no_unguarded_fault flt →
  mediaTracker w !! revoked_id afterMsg beforeMsg ≫= t_media = None →
  let w' := exec (on_message_revoke_everyone getIST flt afterMsg beforeMsg) w in
  let v := resolve_fields afterMsg beforeMsg (messageCache w) in
  (∃ r, persisted w' = (persisted w ++ [r])%list ∧ r_mediaFilename r = None)
  ∧ ELog (deleted_log_entry (getIST (now w)) (v_chatLocation v)
            (v_senderName v) (v_senderNumber v) (v_originalText v)
            EmptyString) ∈ out w'.
Proof.
  intros Hacc Hflt Hslot w' v. split.
  - eexists. split.
    + apply (revoke_accepted_persists getIST flt afterMsg beforeMsg w Hacc Hflt).
    + simpl. rewrite v_msgId_resolve_fields. unfold media_filename.
      destruct (mediaTracker w !! _) as [tr|]; [|done].
      simpl in Hslot. by rewrite Hslot.
  - set (wm := marked (msg_id afterMsg) w).
    destruct (reconcile_completes getIST flt afterMsg beforeMsg wm Hflt)
      as (mediaRef & w1 & w2 & w3 & E1 & _ & E3 & Hrun).
    assert (Href : mediaRef = EmptyString).
    { eapply (promoteTracked_no_media_ref flt _ wm); [|by rewrite E1].
      rewrite v_msgId_resolve_fields. exact Hslot. }
    subst mediaRef.
    assert (Hw' : w' = cleanup
                         (mediaTracker wm
                          !! v_msgId (resolve_fields afterMsg beforeMsg
                                        (messageCache wm)))
                         (v_msgId (resolve_fields afterMsg beforeMsg
                                     (messageCache wm))) w3).
    { unfold w', exec. rewrite on_message_revoke_everyone_accepted by done.
      fold wm. unfold try_catch. by rewrite Hrun. }
    pose proof (safe_sendDeletedMedia flt
      (mediaTracker wm
       !! v_msgId (resolve_fields afterMsg beforeMsg (messageCache wm)))
      (resolve_fields afterMsg beforeMsg (messageCache wm))
      (set_out (out w2 ++ reconcile_effects getIST flt afterMsg beforeMsg
                            wm EmptyString) w2)) as [Hq _].
    rewrite E3 in Hq. simpl in Hq.
    assert (He3 : ELog (deleted_log_entry (getIST (now w)) (v_chatLocation v)
                          (v_senderName v) (v_senderNumber v)
                          (v_originalText v) EmptyString) ∈ out w3).
    { eapply quiet_elem_of; [done|]. unfold set_out at 1. cbn [out].
      apply elem_of_app. right. unfold reconcile_effects.
      apply list_elem_of_here. }
    rewrite Hw'. unfold cleanup. by destruct (mediaTracker wm !! _).
Qed.

(** An accepted revoke event whose tracker entry holds only a transcript
    whose file is gone performs no file operation. *)
Lemma revoke_of_reaped_transcript_moves_nothing flt afterMsg beforeMsg w
    tr slot :
  accepted afterMsg w → flt S_append_log = false →
  mediaTracker w !! revoked_id afterMsg beforeMsg = Some tr →
  t_media tr = None → t_msgfile tr = Some slot →
  files w !! msgFilePath slot = None →
  let w' := exec (on_message_revoke_everyone getIST flt afterMsg beforeMsg) w in
  file_operations w' = file_operations w.
Proof.
  intros Hacc Hlog Htr Hm Hf Hfile w'. unfold w', exec.
  rewrite on_message_revoke_everyone_accepted by done.
  set (wm := marked (msg_id afterMsg) w). unfold try_catch.
  remember (reconcile getIST flt afterMsg beforeMsg wm) as res eqn:Hres.
  unfold reconcile in Hres. unfold bind at 1 in Hres. unfold get at 1 in Hres.
  rewrite v_msgId_resolve_fields in Hres.
  change (mediaTracker wm) with (mediaTracker w) in Hres.
  rewrite Htr in Hres.
  unfold bind at 1 in Hres.
  rewrite (promoteTracked_transcript_missing flt tr slot wm Hm Hf Hfile)
    in Hres.
  unfold promoteCachedFile, sendDeletedMedia, appendLog in Hres.
  rewrite Hm, Hlog in Hres.
  unfold bind at 1 in Hres. unfold ret at 1 in Hres.
  simpl in Hres. subst res. simpl.
  unfold file_operations. simpl.
  by rewrite !filter_file_operations_snoc.
Qed.

(** Claim C5.  (1) After a revoke event whose reconciliation ran to its
    end, the tracker holds no entry and the cache no snapshot for the id:
    a second promotion returns no media reference and changes nothing,
    and a second revoke event for the same references performs no file
    operation and names no media in a record it persists.  (2) A media
    slot whose file is no longer under [media/temp] is treated as absent
    by the promotion: its timer is cancelled, nothing is moved and the
    promotion goes on with the transcript slot; (3) likewise the
    transcript slot of an entry without media: the promotion returns with
    no media reference; and (4) whatever the files, the promotion does
    not throw unless a rename that it attempts fails.  (5) When the media
    file was reaped, that is, when its timer has fired, the entry of the
    id is gone: a revoke event handled then does not throw, persists one
    record, which names no media, writes a log entry without a media
    reference, and performs no file operation if the snapshot has
    expired as well.  (6) When the transcript of an entry without media
    was reaped, a revoke event does not throw, persists one record, which
    names no media, writes a log entry without a media reference and
    performs no file operation. *)
Theorem promotion_tolerates_missing_files :
  (∀ flt flt' afterMsg beforeMsg w tf t,
     accepted afterMsg w → no_unguarded_fault flt →
     let msgId := revoked_id afterMsg beforeMsg in
     let w1 := advance tf t
                 (exec (on_message_revoke_everyone getIST flt afterMsg
                          beforeMsg) w) in
     let w2 := exec (on_message_revoke_everyone getIST flt' afterMsg
                       beforeMsg) w1 in
     mediaTracker w1 !! msgId = None
     ∧ cache_get msgId (messageCache w1) = None
     ∧ promoteTracked flt' (mediaTracker w1 !! msgId) w1
       = (Returned EmptyString, w1)
     ∧ file_operations w2 = file_operations w1
     ∧ ∀ r, r ∈ persisted w2 → r ∈ persisted w1 ∨ r_mediaFilename r = None)
  ∧ (∀ flt tr slot w,
       t_media tr = Some slot → files w !! filePath slot = None →
       promoteTracked flt (Some tr) w
       = promoteTracked flt
           (Some {| t_media := None; t_msgfile := t_msgfile tr |})
           (exec (clearTimeout (timeout slot)) w))
  ∧ (∀ flt tr slot w,
       t_media tr = None → t_msgfile tr = Some slot →
       files w !! msgFilePath slot = None →
       promoteTracked flt (Some tr) w
       = (Returned EmptyString, exec (clearTimeout (msgFileTimeout slot)) w))
  ∧ (∀ flt tracked w,
       flt S_rename_media = false → flt S_rename_msgfile = false →
       throws (promoteTracked flt tracked) w = false)
  ∧ (∀ flt afterMsg beforeMsg w tm path name tf t,
       tm ∈ timers w →
       tm_action tm = ExpireMedia path name (revoked_id afterMsg beforeMsg) →
       tm_due tm ≤ t →
       let msgId := revoked_id afterMsg beforeMsg in
       let w1 := advance tf t w in
       accepted afterMsg w1 → no_unguarded_fault flt →
       let w' := exec (on_message_revoke_everyone getIST flt afterMsg
                         beforeMsg) w1 in
       let v := resolve_fields afterMsg beforeMsg (messageCache w1) in
       mediaTracker w1 !! msgId = None
       ∧ throws (on_message_revoke_everyone getIST flt afterMsg beforeMsg) w1
         = false
       ∧ (∃ r, persisted w' = (persisted w1 ++ [r])%list
               ∧ r_mediaFilename r = None)
       ∧ ELog (deleted_log_entry (getIST (now w1)) (v_chatLocation v)
                 (v_senderName v) (v_senderNumber v) (v_originalText v)
                 EmptyString) ∈ out w'
       ∧ (cache_get msgId (messageCache w1) = None →
          file_operations w' = file_operations w1))
  ∧ (∀ flt afterMsg beforeMsg w tr slot,
       accepted afterMsg w → no_unguarded_fault flt →
       mediaTracker w !! revoked_id afterMsg beforeMsg = Some tr →
       t_media tr = None → t_msgfile tr = Some slot →
       files w !! msgFilePath slot = None →
       let w' := exec (on_message_revoke_everyone getIST flt afterMsg
                         beforeMsg) w in
       let v := resolve_fields afterMsg beforeMsg (messageCache w) in
       throws (on_message_revoke_everyone getIST flt afterMsg beforeMsg) w
       = false
       ∧ (∃ r, persisted w' = (persisted w ++ [r])%list
               ∧ r_mediaFilename r = None)
       ∧ ELog (deleted_log_entry (getIST (now w)) (v_chatLocation v)
                 (v_senderName v) (v_senderNumber v) (v_originalText v)
                 EmptyString) ∈ out w'
       ∧ file_operations w' = file_operations w).
Proof.
  split_and!.
  - intros flt flt' afterMsg beforeMsg w tf t Hacc Hflt msgId w1 w2.
    destruct (revoke_completed_clears flt afterMsg beforeMsg w tf t Hacc Hflt)
      as [Htr Hc].
    fold msgId w1 in Htr, Hc. split_and!; [done | done | by rewrite Htr |..];
      by apply revoke_of_untracked_moves_nothing.
  - intros. by apply promoteTracked_media_missing.
  - intros. by apply promoteTracked_transcript_missing.
  - intros flt tracked w Hm Hf. unfold throws.
    by destruct (promoteTracked_returns flt tracked w Hm Hf) as [mediaRef ->].
  - intros flt afterMsg beforeMsg w tm path name tf t Hin Hact Hdue msgId w1
      Hacc Hflt w' v.
    assert (Htr : mediaTracker w1 !! msgId = None).
    { unfold w1. rewrite mediaTracker_advance.
      by eapply fire_due_expires_media. }
    destruct (revoke_without_media_slot flt afterMsg beforeMsg w1 Hacc Hflt)
      as [Hrec Hlog]; [fold msgId; by rewrite Htr|].
    split_and!; [done | apply on_message_revoke_everyone_no_throw | done
                 | done |].
    intros Hc.
    by apply (revoke_of_untracked_moves_nothing flt afterMsg beforeMsg w1).
  - intros flt afterMsg beforeMsg w tr slot Hacc Hflt Htr Hm Hf Hfile w' v.
    destruct (revoke_without_media_slot flt afterMsg beforeMsg w Hacc Hflt)
      as [Hrec Hlog]; [by rewrite Htr; simpl|].
    split_and!; [apply on_message_revoke_everyone_no_throw | done | done |].
    eapply revoke_of_reaped_transcript_moves_nothing; try done.
    apply Hflt.
Qed.

End Promotion.

(** When the temporary file is missing because an earlier revoke event
    moved it and then failed at the append to the log, the file was not
    reaped: the entry still holds the media slot, the file is under
    [media/saved], and the record of the next revoke event names it. *)
Lemma record_names_media_saved_by_failed_revoke :
  let w := world_after_failed_revoke in
  let w' := exec (on_message_revoke_everyone sample_getIST no_faults
                    media_message (Some media_message)) w in
  (filePath <$> (mediaTracker w !! "m1" ≫= t_media)
   = Some "media/temp/1700000001000_3EB0B2.jpg")
  ∧ files w !! "media/temp/1700000001000_3EB0B2.jpg" = None
  ∧ files w !! "media/saved/1700000001000_3EB0B2.jpg"
    = Some "/9j/4AAQSkZJRg=="
  ∧ file_operations w' = file_operations w
  ∧ r_mediaFilename <$> persisted w' = [Some "1700000001000_3EB0B2.jpg"].
Proof. intros w w'. split_and!; vm_compute; reflexivity. Qed.

Lemma promotion_tolerates_missing_files_witness :
  let media :=
    {| filePath := "media/temp/1700000001000_3EB0B2.jpg";
       filename := "1700000001000_3EB0B2.jpg"; timeout := 0;
       mimetype := Some "image/jpeg"; sentTimestamp := 1700000000 |} in
  let transcript :=
    {| msgFilePath := "media/temp/1700000001000_Asha_3EB0B2.txt";
       msgFilename := "1700000001000_Asha_3EB0B2.txt";
       msgFileTimeout := 1 |} in
  let reaped :=
    {| msgFilePath := "media/temp/1700000001000_Asha_3EB0A1.txt";
       msgFilename := "1700000001000_Asha_3EB0A1.txt";
       msgFileTimeout := 0 |} in
  let revoke_m1 :=
    on_message_revoke_everyone sample_getIST no_faults media_message
      (Some media_message) in
  let revoke_m2 :=
    on_message_revoke_everyone sample_getIST no_faults text_message None in
  let w := world_after_failed_revoke in
  let w1 := advance (λ _, false) 1700000200000
              (exec revoke_m1 world_ready_with_m1) in
  let w_reaped :=
    advance (λ _, false) (1700000001000 + DELETE_WINDOW_MS) world_with_m1 in
  (accepted media_message world_ready_with_m1
   ∧ mediaTracker w1 !! "m1" = None
   ∧ file_operations (exec revoke_m1 w1) = file_operations w1)
  ∧ (mediaTracker w !! "m1"
     = Some {| t_media := Some media; t_msgfile := Some transcript |}
     ∧ files w !! filePath media = None
     ∧ promoteTracked no_faults
         (Some {| t_media := Some media; t_msgfile := Some transcript |}) w
       = promoteTracked no_faults
           (Some {| t_media := None; t_msgfile := Some transcript |})
           (exec (clearTimeout 0) w))
  ∧ (mediaTracker world_with_m2_reaped !! "m2"
     = Some {| t_media := None; t_msgfile := Some reaped |}
     ∧ files world_with_m2_reaped !! msgFilePath reaped = None
     ∧ promoteTracked no_faults
         (Some {| t_media := None; t_msgfile := Some reaped |})
         world_with_m2_reaped
       = (Returned EmptyString, exec (clearTimeout 0) world_with_m2_reaped))
  ∧ throws (promoteTracked no_faults (mediaTracker w !! "m1")) w = false
  ∧ (is_Some (files world_with_m1 !! filePath media)
     ∧ files w_reaped !! filePath media = None
     ∧ accepted media_message w_reaped
     ∧ mediaTracker w_reaped !! "m1" = None
     ∧ throws revoke_m1 w_reaped = false
     ∧ (∃ r, persisted (exec revoke_m1 w_reaped)
             = (persisted w_reaped ++ [r])%list
             ∧ r_mediaFilename r = None)
     ∧ file_operations (exec revoke_m1 w_reaped) = file_operations w_reaped)
  ∧ (accepted text_message world_with_m2_reaped
     ∧ throws revoke_m2 world_with_m2_reaped = false
     ∧ (∃ r, persisted (exec revoke_m2 world_with_m2_reaped)
             = (persisted world_with_m2_reaped ++ [r])%list
             ∧ r_mediaFilename r = None)
     ∧ file_operations (exec revoke_m2 world_with_m2_reaped)
       = file_operations world_with_m2_reaped).
Proof.
  intros media transcript reaped revoke_m1 revoke_m2 w w1 w_reaped.
  destruct (promotion_tolerates_missing_files sample_getIST)
    as (Hsecond & Hmedia & Htranscript & Hthrows & Hreaped & Hreaped_txt).
  assert (Hflt : no_unguarded_fault no_faults) by done.
  assert (Hacc1 : accepted media_message world_ready_with_m1).
  { split; [vm_compute; discriminate | apply not_elem_of_empty]. }
  assert (Hacc5 : accepted media_message w_reaped).
  { split; [vm_compute; discriminate | apply not_elem_of_empty]. }
  assert (Hacc6 : accepted text_message world_with_m2_reaped).
  { split; [vm_compute; discriminate | apply not_elem_of_empty]. }
  destruct (Hsecond no_faults no_faults media_message (Some media_message)
              world_ready_with_m1 (λ _, false) 1700000200000 Hacc1 Hflt)
    as (Htr1 & _ & _ & Hops1 & _).
  destruct (Hreaped no_faults media_message (Some media_message)
              world_with_m1
              {| tm_handle := 0; tm_due := 1700000001000 + DELETE_WINDOW_MS;
                 tm_action := ExpireMedia (filePath media) (filename media)
                                "m1" |}
              (filePath media) (filename media) (λ _, false)
              (1700000001000 + DELETE_WINDOW_MS))
    as (Htr5 & Hno5 & Hrec5 & _ & Hops5);
    [apply list_elem_of_In; vm_compute; auto | reflexivity | simpl; lia
     | exact Hacc5 | exact Hflt |].
  destruct (Hreaped_txt no_faults text_message None world_with_m2_reaped
              {| t_media := None; t_msgfile := Some reaped |} reaped
              Hacc6 Hflt)
    as (Hno6 & Hrec6 & _ & Hops6);
    [vm_compute; reflexivity | reflexivity | reflexivity
     | vm_compute; reflexivity |].
  split_and!.
  - exact Hacc1.
  - exact Htr1.
  - exact Hops1.
  - vm_compute. reflexivity.
  - vm_compute. reflexivity.
  - apply (Hmedia no_faults
             {| t_media := Some media; t_msgfile := Some transcript |}
             media w); [reflexivity | vm_compute; reflexivity].
  - vm_compute. reflexivity.
  - vm_compute. reflexivity.
  - apply (Htranscript no_faults
             {| t_media := None; t_msgfile := Some reaped |} reaped
             world_with_m2_reaped);
      [reflexivity | reflexivity | vm_compute; reflexivity].
  - apply (Hthrows no_faults (mediaTracker w !! "m1") w); reflexivity.
  - vm_compute. by eexists.
  - vm_compute. reflexivity.
  - exact Hacc5.
  - exact Htr5.
  - exact Hno5.
  - exact Hrec5.
  - apply Hops5. vm_compute. reflexivity.
  - exact Hacc6.
  - exact Hno6.
  - exact Hrec6.
  - exact Hops6.
Defined.

(** *** Witnesses *)

Lemma revoke_dedup_window_witness :
  let w := advance (λ _, false) 1700000090000
             (run sample_getIST
                [occurs 1700000000500 no_faults Ready;
                 occurs 1700000001000 no_faults (Message text_message)]
                (initial 1700000000000)) in
  let w' := run sample_getIST
              [occurs 1700000095000 no_faults (Message media_message)]
              (exec (on_message_revoke_everyone sample_getIST no_faults
                       stripped_reference None) w) in
  accepted stripped_reference w
  ∧ on_message_revoke_everyone sample_getIST no_faults stripped_reference
      None (advance (λ _, false) 1700000100000 w')
    = (Returned tt, advance (λ _, false) 1700000100000 w')
  ∧ on_message_revoke_everyone sample_getIST no_faults stripped_reference
      None (advance (λ _, false) 1700000150000 w')
    = try_catch (reconcile sample_getIST no_faults stripped_reference None)
        (fallback_notification no_faults)
        (marked (msg_id stripped_reference)
           (advance (λ _, false) 1700000150000 w')).
Proof.
  intros w w'.
  assert (Hadm : accepted stripped_reference w).
  { split; [vm_compute; discriminate | apply not_elem_of_empty]. }
  destruct (revoke_dedup_window sample_getIST 1700000000000
              [occurs 1700000000500 no_faults Ready;
               occurs 1700000001000 no_faults (Message text_message)]
              (λ _, false) 1700000090000 no_faults stripped_reference None
              Hadm) as [_ Hlater].
  destruct (Hlater
              [occurs 1700000095000 no_faults (Message media_message)])
    as [Hdrop Hagain].
  { constructor; [vm_compute; reflexivity | constructor]. }
  split_and!; [done | |].
  - apply Hdrop; [vm_compute; reflexivity | reflexivity].
  - apply Hagain;
      [vm_compute; discriminate | reflexivity | vm_compute; discriminate].
Defined.

Lemma empty_body_becomes_marker_witness :
  let w := advance (λ _, false) 1700000001000
             (run sample_getIST [occurs 1700000000500 no_faults Ready]
                (initial 1700000000000)) in
  let w' := exec (on_message sample_getIST no_faults viewonce_message) w in
  let w'' := advance (λ _, false) 1700000090000 w' in
  s_body <$> cache_get "m3" (messageCache w') = Some EMPTY_MARKER
  ∧ s_body <$> cache_get "m3"
                 (messageCache (exec (on_message_create viewonce_message) w))
    = Some EMPTY_MARKER
  ∧ r_originalMessage
      <$> last (persisted
                  (exec (on_message_revoke_everyone sample_getIST no_faults
                           viewonce_message (Some viewonce_message)) w''))
    = Some EMPTY_MARKER
  ∧ r_originalMessage
      <$> last (persisted
                  (exec (on_message_revoke_everyone sample_getIST no_faults
                           viewonce_message None) w''))
    = Some EMPTY_MARKER.
Proof.
  intros w w' w''.
  destruct (empty_body_becomes_marker sample_getIST)
    as (Hmsg & Hcreate & Hbefore & Hcached & _).
  assert (Hacc : accepted viewonce_message w'').
  { split; [vm_compute; discriminate | apply not_elem_of_empty]. }
  assert (Hflt : no_unguarded_fault no_faults) by done.
  split_and!.
  - apply (Hmsg no_faults viewonce_message private_chat asha w);
      reflexivity.
  - apply (Hcreate viewonce_message private_chat asha w); reflexivity.
  - by apply (Hbefore no_faults viewonce_message viewonce_message w'').
  - apply (Hcached no_faults viewonce_message w''
             {| s_body := EMPTY_MARKER; s_senderName := Some "Asha";
                s_senderNumber := Some "911234567890";
                s_chatLocation := "Private Chat";
                s_timestamp := 1700000000;
                s_msgFilePath :=
                  Some "media/temp/1700000001000_Asha_3EB0C3.txt";
                s_cachedAt := 1700000001000 |});
      [vm_compute; reflexivity | reflexivity | done | done].
Defined.

(** * Further properties of the code *)

(** *** [escapeHTML] *)

Lemma has_char_true c s : has_char c s = true ↔ c ∈ chars s.
Proof.
  induction s as [|x s IH]; simpl.
  - split; [done | by intros ?%elem_of_nil].
  - rewrite orb_true_iff, IH, elem_of_cons.
    destruct (Ascii.eqb_spec x c) as [->|Hne]; [tauto|].
    split; (intros [H|H]; [|by right]); [done | by subst].
Qed.

Lemma has_char_false c s : has_char c s = false ↔ c ∉ chars s.
Proof.
  rewrite <-has_char_true. by destruct (has_char c s).
Qed.


Lemma unescapeHTML_other c r :
  c ≠ "&"%char → unescapeHTML (String c r) = String c (unescapeHTML r).
Proof.
  intros Hc. simpl.
  destruct c as [[] [] [] [] [] [] [] []]; try done.
Qed.


Lemma string_app_cons x (a b : string) : String x a +:+ b = String x (a +:+ b).
Proof. reflexivity. Qed.

Lemma string_app_nil_l (b : string) : EmptyString +:+ b = b.
Proof. reflexivity. Qed.

Lemma string_app_assoc (a b c : string) : (a +:+ b) +:+ c = a +:+ (b +:+ c).
Proof.
  induction a as [|x a IH]; [done|]. by rewrite !string_app_cons, IH.
Qed.

Lemma string_app_nil_r (a : string) : a +:+ EmptyString = a.
Proof. induction a as [|x a IH]; [done|]. by rewrite string_app_cons, IH. Qed.

Lemma chars_app a b : chars (a +:+ b) = (chars a ++ chars b)%list.
Proof.
  induction a as [|c a IH]; [done|]. rewrite string_app_cons. simpl.
  by rewrite IH.
Qed.

Lemma replace_char_cons c by_ x s :
  replace_char c by_ (String x s)
  = (if Ascii.eqb x c then by_ else String x EmptyString)
    +:+ replace_char c by_ s.
Proof. reflexivity. Qed.

Lemma replace_char_app c by_ a b :
  replace_char c by_ (a +:+ b) = replace_char c by_ a +:+ replace_char c by_ b.
Proof.
  induction a as [|x a IH]; [done|].
  by rewrite string_app_cons, !replace_char_cons, IH, string_app_assoc.
Qed.

Lemma replace_char_absent c by_ s : c ∉ chars s → replace_char c by_ s = s.
Proof.
  induction s as [|x s IH]; [done|].
  intros Hnot. rewrite replace_char_cons.
  rewrite IH by (intros ?; apply Hnot; by right).
  destruct (Ascii.eqb_spec x c) as [->|]; [|done].
  exfalso. apply Hnot. left.
Qed.

Lemma escapeHTML_cons c s :
  escapeHTML (String c s) = html_entity c +:+ escapeHTML s.
Proof.
  unfold escapeHTML, html_entity.
  rewrite (replace_char_cons "&"%char), !replace_char_app.
  destruct (Ascii.eqb_spec c "&"%char) as [->|Hamp]; [done|].
  rewrite (replace_char_cons "<"%char), replace_char_app.
  destruct (Ascii.eqb_spec c "<"%char) as [->|Hlt]; [done|].
  rewrite (replace_char_cons ">"%char).
  destruct (Ascii.eqb_spec c ">"%char) as [->|Hgt]; done.
Qed.

(** Property X1.  Escaping distributes over concatenation: the pieces of a
    message may be escaped one by one. *)
Theorem escapeHTML_app a b : escapeHTML (a +:+ b) = escapeHTML a +:+ escapeHTML b.
Proof.
  induction a as [|c a IH]; [done|].
  change (String c a +:+ b) with (String c (a +:+ b)).
  by rewrite !escapeHTML_cons, IH, string_app_assoc.
Qed.

Lemma well_escaped_other c r :
  c ≠ "&"%char → c ≠ "<"%char → c ≠ ">"%char →
  well_escaped (String c r) = well_escaped r.
Proof.
  intros Ha Hl Hg. simpl.
  destruct c as [[] [] [] [] [] [] [] []]; try done.
Qed.

Lemma well_escaped_entity c s :
  well_escaped (html_entity c +:+ s) = well_escaped s.
Proof.
  unfold html_entity.
  destruct (Ascii.eqb_spec c "&"%char) as [->|Hamp]; [done|].
  destruct (Ascii.eqb_spec c "<"%char) as [->|Hlt]; [done|].
  destruct (Ascii.eqb_spec c ">"%char) as [->|Hgt]; [done|].
  rewrite string_app_cons, string_app_nil_l. by apply well_escaped_other.
Qed.

Lemma html_entity_no_bracket c :
  has_char "<"%char (html_entity c) = false
  ∧ has_char ">"%char (html_entity c) = false.
Proof.
  unfold html_entity.
  destruct (Ascii.eqb_spec c "&"%char) as [->|Hamp]; [done|].
  destruct (Ascii.eqb_spec c "<"%char) as [->|Hlt]; [done|].
  destruct (Ascii.eqb_spec c ">"%char) as [->|Hgt]; [done|].
  simpl. rewrite !orb_false_r.
  split; by apply Ascii.eqb_neq.
Qed.

Lemma has_char_app c a b :
  has_char c (a +:+ b) = has_char c a || has_char c b.
Proof.
  induction a as [|x a IH]; [done|]. rewrite string_app_cons. simpl.
  by rewrite IH, orb_assoc.
Qed.

(** Property X2.  The escaped text holds no angle bracket, and every ampersand
    in it starts one of the three entities: nothing of the text can be read as
    markup. *)
Theorem escapeHTML_no_markup (text : string) :
  has_char "<"%char (escapeHTML text) = false
  ∧ has_char ">"%char (escapeHTML text) = false
  ∧ well_escaped (escapeHTML text) = true.
Proof.
  induction text as [|c s (IH1 & IH2 & IH3)]; [done|].
  rewrite escapeHTML_cons, !has_char_app, IH1, IH2, well_escaped_entity.
  destruct (html_entity_no_bracket c) as [-> ->]. done.
Qed.

(** Property X3.  A text without [&], [<] and [>] is left as it is. *)
Theorem escapeHTML_plain text :
  "&"%char ∉ chars text → "<"%char ∉ chars text → ">"%char ∉ chars text →
  escapeHTML text = text.
Proof.
  intros Ha Hl Hg. unfold escapeHTML.
  rewrite (replace_char_absent "&"%char) by done.
  rewrite (replace_char_absent "<"%char) by done.
  by rewrite replace_char_absent.
Qed.

Lemma escapeHTML_plain_witness :
  escapeHTML "Deleted by Asha (911234567890)" = "Deleted by Asha (911234567890)".
Proof.
  apply escapeHTML_plain; intros H%has_char_true; discriminate H.
Defined.

(** The escaping loses nothing: the text can be read back. *)
Lemma unescapeHTML_escapeHTML text : unescapeHTML (escapeHTML text) = text.
Proof.
  induction text as [|c s IH]; [done|].
  rewrite escapeHTML_cons. unfold html_entity.
  destruct (Ascii.eqb_spec c "&"%char) as [->|Hamp].
  { rewrite !string_app_cons, string_app_nil_l. simpl. by rewrite IH. }
  destruct (Ascii.eqb_spec c "<"%char) as [->|Hlt].
  { rewrite !string_app_cons, string_app_nil_l. simpl. by rewrite IH. }
  destruct (Ascii.eqb_spec c ">"%char) as [->|Hgt].
  { rewrite !string_app_cons, string_app_nil_l. simpl. by rewrite IH. }
  rewrite string_app_cons, string_app_nil_l.
  rewrite unescapeHTML_other by done. by rewrite IH.
Qed.

(** Property X4.  Two texts with the same escaped form are the same text. *)
Theorem escapeHTML_inj a b : escapeHTML a = escapeHTML b → a = b.
Proof.
  intros H. by rewrite <-(unescapeHTML_escapeHTML a), H, unescapeHTML_escapeHTML.
Qed.

Lemma escapeHTML_inj_witness :
  escapeHTML "a < b && c > d" = "a &lt; b &amp;&amp; c &gt; d"
  ∧ "a < b && c > d" = unescapeHTML "a &lt; b &amp;&amp; c &gt; d".
Proof.
  split; [reflexivity|].
  apply (escapeHTML_inj "a < b && c > d"
           (unescapeHTML "a &lt; b &amp;&amp; c &gt; d")).
  reflexivity.
Defined.

(** *** [getExtension] *)

Lemma split_first_chars sep s x :
  x ∈ chars (split_first sep s) → x ∈ chars s ∧ x ≠ sep.
Proof.
  induction s as [|c s IH]; simpl; [by intros ?%elem_of_nil|].
  destruct (Ascii.eqb_spec c sep) as [->|Hne]; simpl.
  - by intros ?%elem_of_nil.
  - intros [->|H]%elem_of_cons.
    + split; [left | done].
    + destruct (IH H). split; [by right | done].
Qed.

Lemma after_first_chars sep s r x :
  after_first sep s = Some r → x ∈ chars r → x ∈ chars s.
Proof.
  induction s as [|c s IH]; simpl; [done|].
  destruct (Ascii.eqb c sep).
  - intros [= ->] H. by right.
  - intros Hr H. right. by apply IH.
Qed.

Lemma split_first_absent sep s : sep ∉ chars s → split_first sep s = s.
Proof.
  induction s as [|c s IH]; simpl; [done|].
  intros Hnot. destruct (Ascii.eqb_spec c sep) as [->|Hne].
  - exfalso. apply Hnot. left.
  - f_equal. apply IH. intros ?. apply Hnot. by right.
Qed.

Lemma split_first_app sep a b :
  sep ∉ chars a → split_first sep (a +:+ String sep b) = a.
Proof.
  induction a as [|c a IH]; intros Hnot.
  - rewrite string_app_nil_l. simpl. by rewrite Ascii.eqb_refl.
  - rewrite string_app_cons. simpl.
    destruct (Ascii.eqb_spec c sep) as [->|Hne].
    + exfalso. apply Hnot. left.
    + f_equal. apply IH. intros ?. apply Hnot. by right.
Qed.

Lemma after_first_app sep a b :
  sep ∉ chars a → after_first sep (a +:+ String sep b) = Some b.
Proof.
  induction a as [|c a IH]; intros Hnot.
  - rewrite string_app_nil_l. simpl. by rewrite Ascii.eqb_refl.
  - rewrite string_app_cons. simpl.
    destruct (Ascii.eqb_spec c sep) as [->|Hne].
    + exfalso. apply Hnot. left.
    + apply IH. intros ?. apply Hnot. by right.
Qed.

Lemma own_property_elem key m v :
  own_property key m = Some v → (key, v) ∈ m.
Proof.
  induction m as [|[k x] m IH]; simpl; [done|].
  destruct (String.eqb_spec k key) as [->|].
  - intros [= ->]. left.
  - intros H. right. by apply IH.
Qed.

(** Every extension of the table is a dot followed by characters other
    than [/] and [;]. *)
Lemma EXTENSION_MAP_values k v :
  (k, v) ∈ EXTENSION_MAP →
  ∃ rest, v = String "."%char rest
          ∧ ("/"%char ∉ chars rest) ∧ (";"%char ∉ chars rest).
Proof.
  assert (Hall : forallb (λ kv, dotted (snd kv))
                   EXTENSION_MAP = true) by (vm_compute; reflexivity).
  intros Hin. apply list_elem_of_In in Hin.
  rewrite forallb_forall in Hall. specialize (Hall _ Hin).
  simpl in Hall. unfold dotted in Hall.
  destruct v as [|c rest]; [done|].
  destruct (Ascii.eqb_spec c "."%char) as [->|]; [|done].
  apply andb_true_iff in Hall as [H1 H2]. simpl in H1.
  apply negb_true_iff in H1, H2.
  exists rest. by rewrite <-!has_char_false.
Qed.

Lemma prototype_keys_no_slash key :
  key ∈ OBJECT_PROTOTYPE_KEYS → "/"%char ∉ chars key.
Proof.
  assert (Hall : forallb (λ k, negb (has_char "/"%char k))
                   OBJECT_PROTOTYPE_KEYS = true) by (vm_compute; reflexivity).
  intros Hin%list_elem_of_In.
  rewrite forallb_forall in Hall. specialize (Hall _ Hin).
  apply negb_true_iff in Hall. by apply has_char_false.
Qed.

(** Property X5.  The result is a string unless the type is the name of a
    property inherited from [Object.prototype]; the string is a dot followed
    by characters other than [/] and [;]. *)
Theorem getExtension_shape (mimetype : option string) :
  if bool_decide (show mimetype ∈ OBJECT_PROTOTYPE_KEYS)
  then getExtension mimetype = ExtInherited (show mimetype)
  else ∃ rest,
         getExtension mimetype = ExtString (String "."%char rest)
         ∧ ("/"%char ∉ chars rest) ∧ (";"%char ∉ chars rest).
Proof.
  unfold getExtension.
  destruct (own_property (show mimetype) EXTENSION_MAP) as [ext|] eqn:Hown.
  - apply own_property_elem in Hown.
    assert (Hnot : show mimetype ∉ OBJECT_PROTOTYPE_KEYS).
    { intros Hin. revert Hown. generalize (show mimetype) Hin. clear.
      intros key Hkey Hown.
      assert (Hall : forallb
                (λ k, negb (bool_decide (k ∈ OBJECT_PROTOTYPE_KEYS)))
                (fst <$> EXTENSION_MAP) = true) by (vm_compute; reflexivity).
      rewrite forallb_forall in Hall.
      specialize (Hall key). rewrite negb_true_iff, bool_decide_eq_false in Hall.
      apply Hall; [|done]. apply list_elem_of_In, list_elem_of_fmap.
      by exists (key, ext). }
    rewrite bool_decide_eq_false_2 by done.
    destruct (EXTENSION_MAP_values _ _ Hown) as (rest & -> & ? & ?).
    by exists rest.
  - destruct (bool_decide (show mimetype ∈ OBJECT_PROTOTYPE_KEYS)); [done|].
    destruct (truthy mimetype).
    + rewrite string_app_cons, string_app_nil_l.
      eexists. split; [reflexivity|].
      unfold split_second.
      destruct (after_first "/"%char (split_first ";"%char (show mimetype)))
        as [r|] eqn:Hafter; simpl.
      * split; intros Hin; apply split_first_chars in Hin as [Hin Hne];
          [done|].
        eapply after_first_chars in Hin; [|done].
        by apply split_first_chars in Hin as [_ ?].
      * split; intros Hin; vm_compute in Hin;
          repeat (apply elem_of_cons in Hin as [Hc|Hin]; [discriminate Hc|]);
          by apply elem_of_nil in Hin.
    + exists "bin". split; [done|].
      split; intros Hin; vm_compute in Hin;
        repeat (apply elem_of_cons in Hin as [Hc|Hin]; [discriminate Hc|]);
        by apply elem_of_nil in Hin.
Qed.

(** Property X6.  A type with parameters that is not itself a key of the table
    gets its subtype as extension, whatever the table says of the type without
    the parameters. *)
Theorem getExtension_parameters (type sub params : string) :
  "/"%char ∉ chars type → ";"%char ∉ chars type →
  "/"%char ∉ chars sub → ";"%char ∉ chars sub →
  let mimetype := type +:+ "/" +:+ sub +:+ ";" +:+ params in
  own_property mimetype EXTENSION_MAP = None →
  getExtension (Some mimetype) = ExtString ("." +:+ sub).
Proof.
  intros Ht1 Ht2 Hs1 Hs2 mimetype Hown. unfold getExtension. simpl show.
  rewrite Hown.
  assert (Hslash : "/"%char ∈ chars mimetype).
  { unfold mimetype. rewrite chars_app. apply elem_of_app. right.
    rewrite string_app_cons. left. }
  rewrite bool_decide_eq_false_2
    by (intros Hin%prototype_keys_no_slash; done).
  assert (Htruthy : negb (String.eqb mimetype EmptyString) = true).
  { destruct mimetype; [by apply elem_of_nil in Hslash | done]. }
  rewrite Htruthy. f_equal. f_equal.
  assert (Hfirst : split_first ";"%char mimetype = type +:+ "/" +:+ sub).
  { replace mimetype with ((type +:+ "/" +:+ sub) +:+ String ";"%char params)
      by (unfold mimetype; rewrite !string_app_assoc; reflexivity).
    apply split_first_app. rewrite !chars_app, !elem_of_app.
    intros [H|[H|H]]; [done| |done]. revert H. vm_compute.
    intros [Hc|H]%elem_of_cons; [discriminate Hc | by apply elem_of_nil in H]. }
  rewrite Hfirst. unfold split_second.
  change (type +:+ "/" +:+ sub) with (type +:+ String "/"%char sub).
  rewrite after_first_app by done. simpl.
  by rewrite split_first_absent.
Qed.

Lemma getExtension_parameters_witness :
  getExtension (Some "image/jpeg") = ExtString ".jpg"
  ∧ getExtension (Some "image/jpeg; charset=binary") = ExtString ".jpeg".
Proof.
  split; [reflexivity|].
  apply (getExtension_parameters "image" "jpeg" " charset=binary").
  - intros H%has_char_true. discriminate H.
  - intros H%has_char_true. discriminate H.
  - intros H%has_char_true. discriminate H.
  - intros H%has_char_true. discriminate H.
  - reflexivity.
Defined.

(** *** File names *)

Lemma substring_0_cons n c s :
  String.substring 0 (S n) (String c s) = String c (String.substring 0 n s).
Proof. reflexivity. Qed.

Lemma substring_0_length n s :
  String.length (String.substring 0 n s) = Nat.min n (String.length s).
Proof.
  revert s. induction n as [|n IH]; intros [|c s]; simpl; try done.
  by rewrite IH.
Qed.

Lemma substring_0_chars n s x :
  x ∈ chars (String.substring 0 n s) → x ∈ chars s.
Proof.
  revert s. induction n as [|n IH]; intros [|c s]; simpl;
    try by intros ?%elem_of_nil.
  intros [->|H]%elem_of_cons; [left | right; by apply IH].
Qed.

Lemma substring_0_idemp n s :
  String.substring 0 n (String.substring 0 n s) = String.substring 0 n s.
Proof.
  revert s. induction n as [|n IH]; intros [|c s]; simpl; try done.
  by rewrite IH.
Qed.

Lemma sanitize_substring n s :
  sanitize (String.substring 0 n s) = String.substring 0 n (sanitize s).
Proof.
  revert s. induction n as [|n IH]; intros [|c s]; simpl; try done.
  by rewrite IH.
Qed.

Lemma sanitize_chars s x :
  x ∈ chars (sanitize s) → is_alnum x = true ∨ x = "_"%char.
Proof.
  induction s as [|c s IH]; simpl; [by intros ?%elem_of_nil|].
  intros [->|H]%elem_of_cons; [|by apply IH].
  destruct (is_alnum c) eqn:E; [by left | by right].
Qed.

Lemma sanitize_idemp s : sanitize (sanitize s) = sanitize s.
Proof.
  induction s as [|c s IH]; simpl; [done|]. rewrite IH. f_equal.
  by destruct (is_alnum c) eqn:E; [rewrite E|].
Qed.

(** Property X7.  [safeName] is made of letters, digits and underscores, is at
    most 20 characters long, and is left as it is by the same sanitisation. *)
Theorem safe_name_shape (s : string) :
  (∀ x, x ∈ chars (safe_name s) → is_alnum x = true ∨ x = "_"%char)
  ∧ (String.length (safe_name s) ≤ 20)%nat
  ∧ safe_name (safe_name s) = safe_name s.
Proof.
  unfold safe_name. split_and!.
  - intros x Hx. apply substring_0_chars in Hx. by apply sanitize_chars in Hx.
  - rewrite substring_0_length. lia.
  - by rewrite sanitize_substring, sanitize_idemp, substring_0_idemp.
Qed.

(** *** [path.basename] after [path.join] *)

Lemma basename_from_no_slash acc s :
  "/"%char ∉ chars s → basename_from acc s = acc.
Proof.
  revert acc. induction s as [|c s IH]; intros acc Hnot; simpl; [done|].
  destruct (Ascii.eqb_spec c "/"%char) as [->|Hne].
  - exfalso. apply Hnot. left.
  - apply IH. intros ?. apply Hnot. by right.
Qed.

Lemma basename_from_app acc dir name :
  "/"%char ∉ chars name →
  basename_from acc (dir +:+ String "/"%char name) = name.
Proof.
  intros Hname. revert acc. induction dir as [|c dir IH]; intros acc.
  - rewrite string_app_nil_l. simpl. by apply basename_from_no_slash.
  - rewrite string_app_cons. simpl. by destruct (Ascii.eqb c "/"%char).
Qed.

Lemma basename_path_join dir name :
  "/"%char ∉ chars name → basename (path_join dir name) = name.
Proof.
  intros Hname. unfold basename, path_join.
  change (dir +:+ "/" +:+ name) with (dir +:+ String "/"%char name).
  by apply basename_from_app.
Qed.

Lemma path_join_inj dir a b : path_join dir a = path_join dir b → a = b.
Proof.
  unfold path_join. intros H. apply String.app_inj in H.
  by apply String.app_inj in H.
Qed.

Lemma temp_not_saved a b :
  path_join TEMP_MEDIA_DIR a ≠ path_join SAVED_MEDIA_DIR b.
Proof. unfold path_join. intros H. discriminate H. Qed.

(** *** [saveMediaToTemp] *)


Lemma saveMediaToTemp_saved flt msg media w :
  saves_media flt msg media →
  saveMediaToTemp flt msg w
  = (Returned (Some (filename (media_entry msg media w))),
     set_mediaTracker
       (<[msg_id msg := {| t_media := Some (media_entry msg media w);
                           t_msgfile := None |}]> (mediaTracker w))
       (set_nextTimer (S (nextTimer w))
          (set_timers (insert_timer (media_timer msg media w) (timers w))
             (set_out (out w ++ [EFsWrite (filePath (media_entry msg media w))])
                (set_files
                   (<[filePath (media_entry msg media w) := m_data media]>
                      (files w)) w))))).
Proof.
  intros (Hmedia & Hdl & Hdata & Hsize & Hflt).
  unfold saveMediaToTemp, try_catch. rewrite Hmedia, Hdl. simpl.
  apply String.eqb_neq in Hdata. rewrite Hdata.
  apply Z.ltb_ge in Hsize. rewrite Hsize.
  unfold writeFileSync. rewrite Hflt.
  unfold bind, get, modify, emit, setTimeout, ret. simpl. reflexivity.
Qed.

Lemma saveMediaToTemp_skipped flt msg w :
  (∀ media, ¬ saves_media flt msg media) →
  saveMediaToTemp flt msg w = (Returned None, w).
Proof.
  intros Hnot. unfold saveMediaToTemp, try_catch.
  destruct (msg_hasMedia msg) eqn:Hmedia; [|done]. simpl.
  destruct (msg_downloadMedia msg) as [| |media] eqn:Hdl; [done..|].
  destruct (String.eqb_spec (m_data media) EmptyString) as [|Hdata]; [done|].
  destruct (Z.ltb_spec (MAX_MEDIA_SIZE_MB * 1024 * 1024) (m_sizeBytes media))
    as [|Hsize]; [done|].
  destruct (flt S_write_media) eqn:Hflt.
  - unfold writeFileSync. rewrite Hflt. reflexivity.
  - destruct (Hnot media). by split_and!.
Qed.

Lemma saves_media_dec flt msg :
  (∃ media, saves_media flt msg media) ∨ (∀ media, ¬ saves_media flt msg media).
Proof.
  unfold saves_media.
  destruct (msg_hasMedia msg); [|right; by intros ? (? & _)].
  destruct (msg_downloadMedia msg) as [| |media];
    [right; by intros ? (_ & ? & _)..|].
  destruct (decide (m_data media = EmptyString)) as [Hd|Hd].
  { right. intros m (_ & [= <-] & ? & _). done. }
  destruct (decide (m_sizeBytes media ≤ MAX_MEDIA_SIZE_MB * 1024 * 1024))
    as [Hs|Hs].
  2:{ right. intros m (_ & [= <-] & _ & ? & _). done. }
  destruct (flt S_write_media) eqn:Hf.
  { right. intros m (_ & _ & _ & _ & ?). done. }
  left. by exists media.
Qed.

(** Property X8.  [saveMediaToTemp] never throws.  When it returns [null] it
    has changed nothing: no file, no timer, no tracker entry.  When it returns
    a file name, the file under [media/temp] holds the media data, its reaping
    timer is pending, due 68 hours later, and the tracker entry of the id is
    the media slot alone. *)
Theorem saveMediaToTemp_all_or_nothing (flt : faults) (msg : message)
    (w : world) :
  match saveMediaToTemp flt msg w with
  | (Returned None, w') => w' = w
  | (Returned (Some name), w') =>
      ∃ media,
        msg_downloadMedia msg = Downloaded media
        ∧ name = media_file_name (now w) (msg_localId msg) (m_ext media)
        ∧ files w' = <[path_join TEMP_MEDIA_DIR name := m_data media]> (files w)
        ∧ mediaTracker w' !! msg_id msg
          = Some {| t_media := Some (media_entry msg media w);
                    t_msgfile := None |}
        ∧ media_timer msg media w ∈ timers w'
        ∧ messageCache w' = messageCache w
  | (Threw _, _) => False
  end.
Proof.
  destruct (saves_media_dec flt msg) as [[media Hs]|Hnot].
  - rewrite (saveMediaToTemp_saved flt msg media w Hs). simpl.
    exists media. destruct Hs as (_ & Hdl & _).
    split_and!; try done.
    + apply lookup_insert_eq.
    + apply elem_of_insert_timer. by left.
  - by rewrite saveMediaToTemp_skipped.
Qed.

(** Property X9.  It saves the media exactly when the message carries media,
    the download yields data, the size is at most 10 MiB and the write does
    not fail. *)
Theorem saveMediaToTemp_saves_iff (flt : faults) (msg : message) (w : world) :
  (∃ name, (saveMediaToTemp flt msg w).1 = Returned (Some name))
  ↔ ∃ media, saves_media flt msg media.
Proof.
  split.
  - intros [name Hname].
    destruct (saves_media_dec flt msg) as [?|Hnot]; [done|].
    by rewrite saveMediaToTemp_skipped in Hname.
  - intros [media Hs]. eexists.
    by rewrite (saveMediaToTemp_saved flt msg media w Hs).
Qed.

(** *** A stale timer of the tracker *)

(** Property X10.  Two media writes for one id, at [t1] and then at [t2]
    within the retention window of the first: the entry then names the second
    file, but when the clock reaches [t1 + DELETE_WINDOW_MS] the timer of the
    first write deletes the entry, while the timer of the second file is still
    pending. *)
Theorem second_media_write_loses_entry (w : world) (tf1 tf2 tf3 : nat → bool)
    (flt : faults) (msg : message) (media : media) (t1 t2 : Z) :
  now w ≤ t1 → t1 ≤ t2 → t2 < t1 + DELETE_WINDOW_MS →
  saves_media flt msg media →
  let w1 := exec (saveMediaToTemp flt msg) (advance tf1 t1 w) in
  let w2 := exec (saveMediaToTemp flt msg) (advance tf2 t2 w1) in
  let second := media_entry msg media (advance tf2 t2 w1) in
  mediaTracker w2 !! msg_id msg
  = Some {| t_media := Some second; t_msgfile := None |}
  ∧ filePath second
    = path_join TEMP_MEDIA_DIR
        (media_file_name t2 (msg_localId msg) (m_ext media))
  ∧ ∀ t, t1 + DELETE_WINDOW_MS ≤ t →
         mediaTracker (advance tf3 t w2) !! msg_id msg = None
         ∧ (t < t2 + DELETE_WINDOW_MS →
            media_timer msg media (advance tf2 t2 w1)
            ∈ timers (advance tf3 t w2)).
Proof.
  intros Hnow Ht Hwin Hs w1 w2 second.
  set (wa := advance tf1 t1 w). set (wb := advance tf2 t2 w1).
  assert (Hnow1 : now wa = t1) by (unfold wa; rewrite now_advance; lia).
  assert (Hw1 : w1 = (saveMediaToTemp flt msg wa).2) by done.
  rewrite (saveMediaToTemp_saved flt msg media _ Hs) in Hw1.
  assert (Hn1 : now w1 = now wa) by (by rewrite Hw1).
  assert (Ht1 : timers w1 = insert_timer (media_timer msg media wa) (timers wa))
    by (by rewrite Hw1).
  assert (Hnow2 : now wb = t2).
  { unfold wb. rewrite now_advance, Hn1, Hnow1. lia. }
  assert (Hw2 : w2 = (saveMediaToTemp flt msg wb).2) by done.
  rewrite (saveMediaToTemp_saved flt msg media _ Hs) in Hw2.
  assert (Ht2 : timers w2 = insert_timer (media_timer msg media wb) (timers wb))
    by (by rewrite Hw2).
  assert (Hdue1 : tm_due (media_timer msg media wa) = t1 + DELETE_WINDOW_MS)
    by (by rewrite <-Hnow1).
  assert (Hdue2 : tm_due (media_timer msg media wb) = t2 + DELETE_WINDOW_MS)
    by (by rewrite <-Hnow2).
  assert (Hfirst : media_timer msg media wa ∈ timers w2).
  { rewrite Ht2. apply elem_of_insert_timer. right.
    unfold wb. rewrite timers_advance. apply list_elem_of_filter. split.
    - rewrite Hdue1. lia.
    - rewrite Ht1. apply elem_of_insert_timer. by left. }
  split_and!.
  - rewrite Hw2. apply lookup_insert_eq.
  - change second with (media_entry msg media wb). unfold media_entry.
    cbn [filePath]. by rewrite Hnow2.
  - intros t Hdue. split.
    + rewrite mediaTracker_advance.
      eapply fire_due_expires_media; [exact Hfirst| |reflexivity].
      rewrite Hdue1. lia.
    + intros Hlt. rewrite timers_advance. apply list_elem_of_filter. split.
      * rewrite Hdue2. lia.
      * rewrite Ht2. apply elem_of_insert_timer. by left.
Qed.

Lemma second_media_write_loses_entry_witness :
  let w := initial 1700000000000 in
  let quiet_timers := λ _ : nat, false in
  let w1 := exec (saveMediaToTemp no_faults media_message)
              (advance quiet_timers 1700000001000 w) in
  let w2 := exec (saveMediaToTemp no_faults media_message)
              (advance quiet_timers 1700000005000 w1) in
  is_Some (mediaTracker w2 !! "m1")
  ∧ mediaTracker
      (advance quiet_timers (1700000001000 + DELETE_WINDOW_MS) w2) !! "m1"
    = None.
Proof.
  intros w quiet_timers w1 w2.
  assert (Hs : saves_media no_faults media_message jpeg).
  { split_and!; [reflexivity | reflexivity | discriminate
                 | vm_compute; discriminate | reflexivity]. }
  destruct (second_media_write_loses_entry w quiet_timers quiet_timers
              quiet_timers no_faults media_message jpeg
              1700000001000 1700000005000) as (Hentry & _ & Hlater);
    [vm_compute; discriminate | lia | vm_compute; reflexivity | exact Hs |].
  split.
  - eexists. exact Hentry.
  - apply Hlater. lia.
Defined.

(** *** The [message] and [message_create] handlers *)

Section MessageOutcome.

Variable getIST : Z → string.

Lemma on_message_cached flt msg chat contact w :
  msg_getChat msg = Some chat → msg_getContact msg = Some contact →
  flt S_append_log = false →
  (on_message getIST flt msg w).1 = Returned tt
  ∧ ∃ msgFilePath,
      messageCache (exec (on_message getIST flt msg) w)
      = cache_put (now w) (msg_id msg)
          (message_snapshot msg chat contact msgFilePath) (messageCache w).
Proof.
  intros Hchat Hcontact Hlog. unfold exec.
  destruct (on_message_completes getIST flt msg chat contact w
              Hchat Hcontact Hlog)
    as (saved & w2 & msgFilePath & w3 & Hq2 & Hq3 & Hrun).
  rewrite Hrun. cbn [fst snd]. split; [done|]. exists msgFilePath.
  rewrite messageCache_cacheMessage.
  rewrite (quiet_now _ _ Hq3), (quiet_cache _ _ Hq3).
  cbn [now messageCache set_out].
  by rewrite (quiet_now _ _ Hq2), (quiet_cache _ _ Hq2).
Qed.

(** Property X11.  The [message] handler never throws.  When [getChat] or
    [getContact] rejects it changes nothing.  When they resolve and the append
    to the log throws, the cache is as it was: the message is not cached,
    whatever was saved of its media.  When the log is written the message is
    cached, with the time of its handling as [cachedAt]. *)
Theorem on_message_outcome (flt : faults) (msg : message) (w : world) :
  let w' := exec (on_message getIST flt msg) w in
  throws (on_message getIST flt msg) w = false
  ∧ match msg_getChat msg, msg_getContact msg with
    | Some chat, Some contact =>
        if flt S_append_log then messageCache w' = messageCache w
        else ∃ msgFilePath,
               messageCache w'
               = cache_put (now w) (msg_id msg)
                   (message_snapshot msg chat contact msgFilePath)
                   (messageCache w)
    | _, _ => w' = w
    end.
Proof.
  intros w'. unfold w', exec, throws.
  destruct (msg_getChat msg) as [chat|] eqn:Hchat.
  2:{ unfold on_message, try_catch. rewrite Hchat. done. }
  destruct (msg_getContact msg) as [contact|] eqn:Hcontact.
  2:{ unfold on_message, try_catch. rewrite Hchat, Hcontact. done. }
  destruct (flt S_append_log) eqn:Hlog.
  - destruct (safe_run
      (if msg_hasMedia msg then saveMediaToTemp flt msg else ret None) w)
      as (saved & w1 & E1 & Hq1).
    { destruct (msg_hasMedia msg);
        [apply safe_saveMediaToTemp | apply safe_ret]. }
    destruct (safe_run
      (if msg_isViewOnce msg && msg_hasMedia msg
       then viewOnceCapture flt msg (sender_name contact) (c_number contact)
              (chat_location chat) (getIST (now w))
              (body_or_marker (msg_body msg))
       else ret tt) w1) as ([] & w2 & E2 & Hq2).
    { destruct (_ && _); [apply safe_viewOnceCapture | apply safe_ret]. }
    assert (Hrun : on_message getIST flt msg w = (Returned tt, w2)).
    { unfold on_message, try_catch. rewrite Hchat, Hcontact. simpl.
      unfold bind at 1. unfold ret at 1. unfold bind at 1. unfold ret at 1.
      unfold bind at 1. unfold get at 1.
      rewrite (bind_returned _ _ _ _ _ E1).
      rewrite (bind_returned _ _ _ _ _ E2).
      unfold appendLog. rewrite Hlog. reflexivity. }
    rewrite Hrun. simpl. split; [done|].
    rewrite (quiet_cache _ _ Hq2). apply (quiet_cache _ _ Hq1).
  - destruct (on_message_cached flt msg chat contact w Hchat Hcontact Hlog)
      as [Hr Hcache].
    by rewrite Hr.
Qed.

(** Property X12.  [message_create] only fills a gap: it changes nothing for a
    message of the account itself or for an id that is cached, in particular
    right after the [message] handler cached the message. *)
Theorem message_create_fills_gaps_only (msg : message) (w : world) :
  (msg_fromMe msg = true ∨ is_Some (cache_get (msg_id msg) (messageCache w)) →
   on_message_create msg w = (Returned tt, w))
  ∧ (∀ flt chat contact,
       msg_getChat msg = Some chat → msg_getContact msg = Some contact →
       flt S_append_log = false →
       on_message_create msg (exec (on_message getIST flt msg) w)
       = (Returned tt, exec (on_message getIST flt msg) w)).
Proof.
  assert (Hgap : ∀ w0,
    msg_fromMe msg = true ∨ is_Some (cache_get (msg_id msg) (messageCache w0)) →
    on_message_create msg w0 = (Returned tt, w0)).
  { intros w0 Hor. unfold on_message_create, try_catch.
    destruct (msg_fromMe msg); [done|].
    destruct Hor as [|[s Hs]]; [done|].
    unfold bind, get. by rewrite Hs. }
  split; [apply Hgap|].
  intros flt chat contact Hchat Hcontact Hlog. apply Hgap. right.
  destruct (on_message_cached flt msg chat contact w Hchat Hcontact Hlog)
    as [_ [fp ->]].
  unfold cache_put. rewrite cache_get_set_eq. by eexists.
Qed.

End MessageOutcome.

Lemma message_create_fills_gaps_only_witness :
  let w := advance (λ _, false) 1700000001000 (initial 1700000000000) in
  on_message_create text_message
    (exec (on_message sample_getIST no_faults text_message) w)
  = (Returned tt, exec (on_message sample_getIST no_faults text_message) w).
Proof.
  intros w.
  apply (proj2 (message_create_fills_gaps_only sample_getIST text_message w)
           no_faults private_chat asha); reflexivity.
Defined.

(** *** The revoke handler and the other ids *)

Global Instance others_kept_preorder id : PreOrder (others_kept id).
Proof.
  split.
  - by intros w id' Hne.
  - intros w1 w2 w3 H12 H23 id' Hne.
    destruct (H12 id' Hne) as [E1 E2], (H23 id' Hne) as [E3 E4].
    by rewrite E3, E4.
Qed.

Lemma still_others_kept id w w' : still w w' → others_kept id w w'.
Proof.
  intros Hs id' _. by rewrite (still_cache _ _ Hs), (still_tracker _ _ Hs).
Qed.

Lemma respects_still_others_kept id {A} (m : M A) :
  respects still m → respects (others_kept id) m.
Proof. intros Hm w. apply still_others_kept, Hm. Qed.

Lemma mediaTracker_promoteTracked flt tracked w :
  mediaTracker (promoteTracked flt tracked w).2 = mediaTracker w.
Proof.
  destruct tracked as [[[m|] [f|]]|];
    unfold promoteTracked, existsSync, renameSync, clearTimeout, emit,
      modify, bind, get, ret, throw; simpl;
    repeat (case_bool_decide || case_match); simplify_eq/=; done.
Qed.

Lemma others_kept_promoteTracked id flt tracked :
  respects (others_kept id) (promoteTracked flt tracked).
Proof.
  intros w id' _. rewrite mediaTracker_promoteTracked.
  by rewrite (quiet_cache _ _ (calm_promoteTracked flt tracked w)).
Qed.

Section OtherIds.

Variable getIST : Z → string.

(** Property X13.  The revoke handler leaves the cached snapshots and the
    tracker entries of every other id as they were. *)
Theorem revoke_keeps_other_ids (flt : faults) (afterMsg : message)
    (beforeMsg : option message) (w : world) (id' : string) :
  id' ≠ revoked_id afterMsg beforeMsg →
  let w' := exec (on_message_revoke_everyone getIST flt afterMsg beforeMsg) w in
  cache_get id' (messageCache w') = cache_get id' (messageCache w)
  ∧ mediaTracker w' !! id' = mediaTracker w !! id'.
Proof.
  intros Hne w'. revert id' Hne.
  change (others_kept (revoked_id afterMsg beforeMsg) w w').
  set (id := revoked_id afterMsg beforeMsg).
  assert (Hstill : ∀ A (m : M A), respects still m → respects (others_kept id) m)
    by (intros; by apply respects_still_others_kept).
  enough (respects (others_kept id)
            (on_message_revoke_everyone getIST flt afterMsg beforeMsg))
    as H by apply H.
  unfold on_message_revoke_everyone.
  apply (respects_bind _); [apply (respects_get _)|]. intros w0.
  cbv beta zeta.
  destruct (_ <? _); [apply (respects_ret _)|].
  destruct (bool_decide (_ ∈ _)); [apply (respects_ret _)|].
  apply (respects_bind _); [by intros w1 i _|]. intros _.
  apply (respects_bind _); [by intros w1 i _|]. intros _.
  apply (respects_try_catch _).
  2:{ intros err. apply Hstill, still_fallback_notification. }
  unfold reconcile.
  apply (respects_bind _); [apply (respects_get _)|]. intros w1.
  cbv beta zeta.
  apply (respects_bind _); [apply others_kept_promoteTracked|]. intros mediaRef.
  apply (respects_bind _); [apply Hstill, still_promoteCachedFile|]. intros _.
  apply (respects_bind _); [apply Hstill, still_appendLog|]. intros _.
  apply (respects_bind _); [apply Hstill, still_saveDeletedRecord|]. intros _.
  apply (respects_bind _); [apply Hstill, still_sendPushNotification|].
  intros _.
  apply (respects_bind _); [apply Hstill, still_sendDeletedMedia|]. intros _.
  intros w2 i Hi. rewrite v_msgId_resolve_fields. fold id.
  unfold modify, cleanup. simpl.
  destruct (mediaTracker w1 !! id); simpl.
  - rewrite cache_get_delete_ne by done. by rewrite lookup_delete_ne.
  - by rewrite cache_get_delete_ne by done.
Qed.

End OtherIds.

Lemma revoke_keeps_other_ids_witness :
  let w := advance (λ _, false) 1700000090000
             (run sample_getIST
                [occurs 1700000001000 no_faults (Message text_message)]
                world_with_m1) in
  let w' := exec (on_message_revoke_everyone sample_getIST no_faults
                    media_message (Some media_message)) w in
  cache_get "m2" (messageCache w') = cache_get "m2" (messageCache w)
  ∧ mediaTracker w' !! "m2" = mediaTracker w !! "m2".
Proof.
  intros w w'.
  by apply (revoke_keeps_other_ids sample_getIST no_faults media_message
              (Some media_message) w "m2").
Defined.

(** *** The sources of the reconciled fields *)

(** Property X14.  What the before-reference yields is kept, whatever the
    cache holds, unless it is the placeholder itself: a contact whose name is
    "Unknown" is taken for an unresolved one, and the cached name is reported
    in its place. *)
Theorem before_reference_takes_priority (afterMsg before : message)
    (contact : contact) (cache : list (string * snapshot)) :
  msg_getContact before = Some contact →
  let v := resolve_fields afterMsg (Some before) cache in
  v_msgId v = msg_id before
  ∧ (strict_eq (sender_name contact) UNKNOWN = false →
     v_senderName v = sender_name contact)
  ∧ (strict_eq (c_number contact) UNKNOWN = false →
     v_senderNumber v = c_number contact)
  ∧ (body_or_marker (msg_body before) ≠ UNKNOWN_TEXT →
     v_originalText v = body_or_marker (msg_body before))
  ∧ (∀ cached,
       cache_get (msg_id before) cache = Some cached →
       sender_name contact = Some UNKNOWN →
       v_senderName v = s_senderName cached).
Proof.
  intros Hcontact v. unfold v, resolve_fields. rewrite Hcontact.
  destruct (cache_get (msg_id before) cache) as [cached|] eqn:Hc; simpl.
  - split_and!; [done| | | |].
    + by intros ->.
    + by intros ->.
    + intros Hne. apply String.eqb_neq in Hne. by rewrite Hne.
    + intros c [= <-] ->. done.
  - split_and!; done.
Qed.

Lemma before_reference_takes_priority_witness :
  let cache := messageCache world_with_m1 in
  let renamed :=
    {| c_name := Some "Asha K"; c_pushname := None;
       c_number := Some "911234567890" |} in
  let before :=
    {| msg_id := "m1"; msg_localId := "3EB0B2"; msg_body := "hello there";
       msg_timestamp := 1700000000; msg_fromMe := false;
       msg_hasMedia := true; msg_isViewOnce := false;
       msg_getChat := Some private_chat; msg_getContact := Some renamed;
       msg_downloadMedia := DownloadNothing |} in
  let v := resolve_fields media_message (Some before) cache in
  s_senderName <$> cache_get "m1" cache = Some (Some "Asha")
  ∧ v_senderName v = Some "Asha K" ∧ v_originalText v = "hello there".
Proof.
  intros cache renamed before v.
  destruct (before_reference_takes_priority media_message before renamed
              cache eq_refl) as (_ & Hname & _ & Htext & _).
  split_and!; [vm_compute; reflexivity | by apply Hname |].
  apply Htext. vm_compute. discriminate.
Defined.

Section UnknownMessage.

Variable getIST : Z → string.

(** Property X15.  A revoke event for a message of which nothing is known (no
    before-reference, no cached snapshot, no tracker entry) is still recorded
    and notified, with the placeholders, and no file is touched. *)
Theorem revoke_of_unknown_message (flt : faults) (afterMsg : message)
    (w : world) :
  accepted afterMsg w → no_unguarded_fault flt →
  cache_get (msg_id afterMsg) (messageCache w) = None →
  mediaTracker w !! msg_id afterMsg = None →
  let w' := exec (on_message_revoke_everyone getIST flt afterMsg None) w in
  let chatLocation :=
    match msg_getChat afterMsg with
    | Some chat => chat_location chat
    | None => UNKNOWN_CHAT
    end in
  persisted w'
  = (persisted w ++ [unknown_record (getIST (now w)) chatLocation])%list
  ∧ file_operations w' = file_operations w
  ∧ ENotify (deleted_title (Some UNKNOWN))
      (deleted_body chatLocation (Some UNKNOWN) (Some UNKNOWN) "Unknown"
         (getIST (now w)) UNKNOWN_TEXT) (negb (flt S_notify)) ∈ out w'.
Proof.
  intros Hacc Hflt Hc Htr w' chatLocation.
  assert (Hv : resolve_fields afterMsg None (messageCache w)
               = {| v_chatLocation := chatLocation;
                    v_senderName := Some UNKNOWN;
                    v_senderNumber := Some UNKNOWN;
                    v_originalText := UNKNOWN_TEXT;
                    v_msgId := msg_id afterMsg; v_cached := None |}).
  { unfold resolve_fields. by rewrite Hc. }
  split_and!.
  - unfold w'. rewrite revoke_accepted_persists by done.
    rewrite Hv. simpl. by rewrite Htr.
  - by apply (revoke_of_untracked_moves_nothing getIST flt afterMsg None w).
  - destruct (reconcile_effects_attempted getIST flt afterMsg None w
                Hacc Hflt) as [mediaRef Hin].
    unfold reconcile_effects in Hin.
    change (messageCache (marked (msg_id afterMsg) w)) with (messageCache w)
      in Hin.
    change (now (marked (msg_id afterMsg) w)) with (now w) in Hin.
    rewrite Hv in Hin. simpl in Hin. apply Hin. right. right. left.
Qed.

End UnknownMessage.

Lemma revoke_of_unknown_message_witness :
  let w := advance (λ _, false) 1700000090000 world_with_m1 in
  persisted
    (exec (on_message_revoke_everyone sample_getIST no_faults
             stripped_reference None) w)
  = (persisted w ++ [unknown_record (sample_getIST (now w)) UNKNOWN_CHAT])%list.
Proof.
  intros w.
  apply (revoke_of_unknown_message sample_getIST no_faults
           stripped_reference w).
  - split; [vm_compute; discriminate | apply not_elem_of_empty].
  - done.
  - vm_compute. reflexivity.
  - vm_compute. reflexivity.
Defined.

(** *** [cacheMessage] at capacity *)

Lemma cache_set_length_cached id v c :
  id ∈ c.*1 → length (cache_set id v c) = length c.
Proof.
  induction c as [|[k x] c IH]; csimpl; [by intros ?%elem_of_nil|].
  destruct (decide (k = id)) as [->|Hne]; [done|].
  intros [?|Hin]%elem_of_cons; [done|]. simpl. by rewrite IH.
Qed.

(** Property X16.  A call for an id that is already cached, made when the
    cache is full, still evicts the oldest entry: the cache shrinks to 499
    entries, of which one is overwritten. *)
Theorem cacheMessage_overwrite_at_capacity (id : string) (data : snapshot)
    (w : world) (oldest : string * snapshot)
    (rest : list (string * snapshot)) :
  messageCache w = oldest :: rest →
  length (messageCache w) = MAX_CACHE_SIZE →
  NoDup (messageCache w).*1 →
  id ∈ rest.*1 →
  let c' := messageCache (exec (cacheMessage id data) w) in
  length c' = 499%nat
  ∧ cache_get oldest.1 c' = None
  ∧ cache_get id c' = Some (with_cachedAt (now w) data)
  ∧ c'.*1 = rest.*1.
Proof.
  intros Hc Hfull Hnd Hid c'. unfold c'.
  rewrite messageCache_cacheMessage. unfold cache_put, make_room.
  rewrite Hfull, Nat.leb_refl, evict_oldest_tail by done.
  rewrite Hc in *. simpl tail. csimpl in Hnd.
  apply NoDup_cons in Hnd as [Hold Hnd].
  assert (Hkeys : (cache_set id (with_cachedAt (now w) data) rest).*1 = rest.*1).
  { rewrite cache_set_keys.
    destruct (cache_get id rest) eqn:E; [done|].
    by apply cache_get_None_keys in E. }
  split_and!.
  - rewrite cache_set_length_cached by done.
    simpl in Hfull. unfold MAX_CACHE_SIZE in Hfull. lia.
  - apply cache_get_None_keys. by rewrite Hkeys.
  - apply cache_get_set_eq.
  - done.
Qed.

Lemma cacheMessage_overwrite_at_capacity_witness :
  let w := put_all five_hundred_puts (initial 1700000000000) in
  length (messageCache (exec (cacheMessage "7" sample_snapshot) w)) = 499%nat.
Proof.
  intros w.
  destruct (messageCache w) as [|oldest rest] eqn:Hc.
  { vm_compute in Hc. discriminate Hc. }
  assert (Hrest : rest = tail (messageCache w)) by (by rewrite Hc).
  apply (cacheMessage_overwrite_at_capacity "7" sample_snapshot w oldest rest).
  - exact Hc.
  - vm_compute. reflexivity.
  - apply (put_all_invariant five_hundred_puts (initial 1700000000000));
      [apply NoDup_nil_2 | simpl; lia].
  - rewrite Hrest. apply list_elem_of_In. vm_compute. do 6 right. left.
    reflexivity.
Defined.

(** *** The text-only fallback *)

(** Property X17.  For a transcript path as the [message] handler records it,
    the fallback never throws and, when the file exists and the rename does
    not fail, moves it to [media/saved] under the same name; otherwise the
    files are as they were. *)
Theorem text_fallback_keeps_file_name (flt : faults) (name : string)
    (cached : snapshot) (w : world) :
  "/"%char ∉ chars name → name ≠ EmptyString →
  s_msgFilePath cached = Some (path_join TEMP_MEDIA_DIR name) →
  let src := path_join TEMP_MEDIA_DIR name in
  let dst := path_join SAVED_MEDIA_DIR name in
  let r := promoteCachedFile flt None (Some cached) w in
  r.1 = Returned tt
  ∧ files r.2
    = match files w !! src with
      | Some content =>
          if flt S_rename_cached then files w
          else <[dst := content]> (delete src (files w))
      | None => files w
      end.
Proof.
  intros Hname _ Hpath src dst r. unfold r, promoteCachedFile.
  rewrite Hpath. rewrite (basename_path_join TEMP_MEDIA_DIR name Hname).
  fold src dst.
  replace (String.eqb src EmptyString) with false by done.
  unfold try_catch, bind, existsSync, renameSync, bind, get, ret. simpl.
  destruct (files w !! src) as [content|] eqn:Hsrc.
  - rewrite bool_decide_eq_true_2 by eauto. rewrite Hsrc.
    by destruct (flt S_rename_cached).
  - by rewrite bool_decide_eq_false_2 by (by intros [? ?]).
Qed.

Lemma text_fallback_keeps_file_name_witness :
  let name := "1700000001000_Asha_3EB0A1.txt" in
  let cached :=
    {| s_body := "hello"; s_senderName := Some "Asha";
       s_senderNumber := Some "911234567890";
       s_chatLocation := "Private Chat"; s_timestamp := 1700000000;
       s_msgFilePath := Some (path_join TEMP_MEDIA_DIR name);
       s_cachedAt := 1700000001000 |} in
  (promoteCachedFile no_faults None (Some cached) world_with_m2).1
  = Returned tt
  ∧ files (promoteCachedFile no_faults None (Some cached) world_with_m2).2
    !! path_join SAVED_MEDIA_DIR name
    = files world_with_m2 !! path_join TEMP_MEDIA_DIR name.
Proof.
  intros name cached.
  destruct (text_fallback_keeps_file_name no_faults name cached world_with_m2)
    as [Hr Hfiles].
  - intros H%has_char_true. discriminate H.
  - discriminate.
  - reflexivity.
  - split; [exact Hr|]. rewrite Hfiles. vm_compute. reflexivity.
Defined.

(** *** Promotion of the media of a revoked message *)

Lemma promoteTracked_moves_media flt tr slot content w :
  t_media tr = Some slot →
  files w !! filePath slot = Some content →
  flt S_rename_media = false → flt S_rename_msgfile = false →
  let saved := path_join SAVED_MEDIA_DIR (filename slot) in
  filePath slot ≠ saved →
  (∀ f, t_msgfile tr = Some f →
        msgFilePath f ≠ saved
        ∧ path_join SAVED_MEDIA_DIR (msgFilename f) ≠ saved
        ∧ path_join SAVED_MEDIA_DIR (msgFilename f) ≠ filePath slot) →
  wp (promoteTracked flt (Some tr))
    (λ r w1,
       r = Returned (saved_media_ref (filename slot))
       ∧ files w1 !! saved = Some content
       ∧ files w1 !! filePath slot = None
       ∧ ∀ tm, tm ∈ timers w1 → tm_handle tm ≠ timeout slot) w.
Proof.
  intros Hslot Hfile Hm Hf saved Hne Hdistinct.
  destruct tr as [m f]. simpl in *. subst m.
  unfold promoteTracked. simpl.
  wp_go. simpl. rewrite bool_decide_eq_true_2 by eauto.
  wp_step. eapply wp_renameSync; [exact Hfile | exact Hm |].
  wp_go.
  set (w1 := set_out _ _).
  assert (Hsaved1 : files w1 !! saved = Some content)
    by (unfold w1; simpl; apply lookup_insert_eq).
  assert (Hgone1 : files w1 !! filePath slot = None).
  { unfold w1. simpl. rewrite lookup_insert_ne by done.
    apply lookup_delete_eq. }
  assert (Htm1 : ∀ tm, tm ∈ timers w1 → tm_handle tm ≠ timeout slot).
  { intros tm. unfold w1. simpl. by intros [? _]%list_elem_of_filter. }
  clearbody w1.
  destruct f as [fs|]; [|by wp_go].
  destruct (Hdistinct fs eq_refl) as (Hd1 & Hd2 & Hd3).
  wp_go. simpl.
  assert (Htm2 : ∀ tm,
    tm ∈ filter (λ tm, tm_handle tm ≠ msgFileTimeout fs) (timers w1) →
    tm_handle tm ≠ timeout slot).
  { intros tm [_ ?]%list_elem_of_filter. by apply Htm1. }
  destruct (files w1 !! msgFilePath fs) as [c2|] eqn:Hfs.
  - rewrite bool_decide_eq_true_2 by eauto.
    eapply wp_renameSync; [exact Hfs | exact Hf |]. wp_go. simpl.
    split_and!; [done| | |done].
    + rewrite lookup_insert_ne by done. by rewrite lookup_delete_ne.
    + rewrite lookup_insert_ne by done.
      destruct (decide (msgFilePath fs = filePath slot)) as [->|Hne'].
      * apply lookup_delete_eq.
      * by rewrite lookup_delete_ne.
  - rewrite bool_decide_eq_false_2 by (by intros [? ?]). by wp_go.
Qed.

Lemma sendDeletedMedia_frame flt tracked v w :
  files (sendDeletedMedia flt tracked v w).2 = files w
  ∧ timers (sendDeletedMedia flt tracked v w).2 = timers w
  ∧ ∀ e, e ∈ out w → e ∈ out (sendDeletedMedia flt tracked v w).2.
Proof.
  split_and!.
  - destruct tracked as [[[slot|] f]|]; simpl; try done.
    unfold bind, existsSync, readMediaAsBase64, bind, get, ret. simpl.
    repeat (case_match; simpl); by simplify_eq/=.
  - apply (still_timers _ _ (still_sendDeletedMedia flt tracked v w)).
  - intros e. apply quiet_elem_of, (safe_sendDeletedMedia flt tracked v w).
Qed.

Lemma sendDeletedMedia_sends flt tr slot v content w :
  t_media tr = Some slot →
  files w !! path_join SAVED_MEDIA_DIR (filename slot) = Some content →
  content ≠ EmptyString → flt S_read_media = false →
  ESendFile content (mimetype slot) (filename slot)
    (deleted_caption (v_senderName v) (v_senderNumber v) (v_chatLocation v))
    (negb (flt S_send_media))
  ∈ out (sendDeletedMedia flt (Some tr) v w).2.
Proof.
  intros Hslot Hfile Hne Hread. destruct tr as [m f]. simpl in *. subst m.
  unfold bind, existsSync, readMediaAsBase64, bind, get, ret. simpl.
  rewrite bool_decide_eq_true_2 by eauto. rewrite Hfile, Hread. simpl.
  apply String.eqb_neq in Hne. rewrite Hne. simpl.
  apply elem_of_app. right. left.
Qed.

Section PromotesMedia.

Variable getIST : Z → string.

(** Property X18.  An accepted revoke event whose id has a tracked media file
    under [media/temp]: unless a rename or the append to the log fails, the
    file is afterwards under [media/saved] with the same content and no longer
    under [media/temp], its timer is no longer pending, the entries of the id
    are gone from the tracker and from the cache, and the content was handed
    to [sendTelegramMedia] if it could be read. *)
Theorem revoke_promotes_media (flt : faults) (afterMsg : message)
    (beforeMsg : option message) (w : world) (tr : tracked)
    (slot : media_slot) (content : string) :
  accepted afterMsg w → no_unguarded_fault flt →
  let id := revoked_id afterMsg beforeMsg in
  let saved := path_join SAVED_MEDIA_DIR (filename slot) in
  mediaTracker w !! id = Some tr → t_media tr = Some slot →
  files w !! filePath slot = Some content →
  filePath slot ≠ saved →
  (∀ f, t_msgfile tr = Some f →
        msgFilePath f ≠ saved
        ∧ path_join SAVED_MEDIA_DIR (msgFilename f) ≠ saved
        ∧ path_join SAVED_MEDIA_DIR (msgFilename f) ≠ filePath slot) →
  let v := resolve_fields afterMsg beforeMsg (messageCache w) in
  let w' := exec (on_message_revoke_everyone getIST flt afterMsg beforeMsg) w in
  files w' !! saved = Some content
  ∧ files w' !! filePath slot = None
  ∧ mediaTracker w' !! id = None
  ∧ cache_get id (messageCache w') = None
  ∧ (∀ tm, tm ∈ timers w' → tm_handle tm ≠ timeout slot)
  ∧ (content ≠ EmptyString → flt S_read_media = false →
     ESendFile content (mimetype slot) (filename slot)
       (deleted_caption (v_senderName v) (v_senderNumber v)
          (v_chatLocation v)) (negb (flt S_send_media)) ∈ out w').
Proof.
  intros Hacc Hflt id saved Htr Hslot Hfile Hne Hdistinct v w'.
  pose proof Hflt as (Hm & Hf & _).
  set (wm := marked (msg_id afterMsg) w).
  destruct (reconcile_completes getIST flt afterMsg beforeMsg wm Hflt)
    as (mediaRef & w1 & w2 & w3 & E1 & E2 & E3 & Hrun).
  rewrite v_msgId_resolve_fields in E1, E2, E3, Hrun. fold id in E1, E2, E3, Hrun.
  change (mediaTracker wm) with (mediaTracker w) in E1, E2, E3, Hrun.
  change (messageCache wm) with (messageCache w) in E1, E2, E3, Hrun.
  fold v in E1, E2, E3, Hrun. rewrite Htr in E1, E2, E3, Hrun.
  assert (Hw' : w' = cleanup (Some tr) id w3).
  { unfold w', exec. rewrite on_message_revoke_everyone_accepted by done.
    fold wm. unfold try_catch. by rewrite Hrun. }
  pose proof (promoteTracked_moves_media flt tr slot content wm Hslot Hfile
                Hm Hf Hne Hdistinct) as Hwp.
  unfold wp in Hwp. rewrite E1 in Hwp. simpl in Hwp.
  destruct Hwp as (_ & Hsaved1 & Hgone1 & Htm1).
  assert (Hw2 : w2 = w1) by (simpl in E2; by injection E2).
  subst w2.
  set (w1' := set_out _ w1) in E3.
  destruct (sendDeletedMedia_frame flt (Some tr) v w1') as (Hfiles3 & Htm3 & _).
  rewrite E3 in Hfiles3, Htm3. simpl in Hfiles3, Htm3.
  rewrite Hw'. unfold cleanup. simpl.
  split_and!.
  - by rewrite Hfiles3.
  - by rewrite Hfiles3.
  - apply lookup_delete_eq.
  - apply cache_get_delete_eq.
  - rewrite Htm3. exact Htm1.
  - intros Hcontent Hread.
    pose proof (sendDeletedMedia_sends flt tr slot v content w1' Hslot
                  Hsaved1 Hcontent Hread) as Hin.
    by rewrite E3 in Hin.
Qed.

End PromotesMedia.

Lemma revoke_promotes_media_witness :
  let w := world_ready_with_m1 in
  let w' := exec (on_message_revoke_everyone sample_getIST no_faults
                    media_message (Some media_message)) w in
  files w !! "media/temp/1700000001000_3EB0B2.jpg" = Some "/9j/4AAQSkZJRg=="
  ∧ files w' !! "media/saved/1700000001000_3EB0B2.jpg"
    = Some "/9j/4AAQSkZJRg=="
  ∧ files w' !! "media/temp/1700000001000_3EB0B2.jpg" = None
  ∧ mediaTracker w' !! "m1" = None
  ∧ cache_get "m1" (messageCache w') = None.
Proof.
  intros w w'.
  assert (Hfile : files w !! "media/temp/1700000001000_3EB0B2.jpg"
                  = Some "/9j/4AAQSkZJRg==") by (vm_compute; reflexivity).
  split; [exact Hfile|].
  assert (Hacc : accepted media_message w).
  { split; [vm_compute; discriminate | apply not_elem_of_empty]. }
  assert (Hflt : no_unguarded_fault no_faults) by done.
  destruct (revoke_promotes_media sample_getIST no_faults media_message
              (Some media_message) w
              {| t_media := Some
                   {| filePath := "media/temp/1700000001000_3EB0B2.jpg";
                      filename := "1700000001000_3EB0B2.jpg"; timeout := 0;
                      mimetype := Some "image/jpeg";
                      sentTimestamp := 1700000000 |};
                 t_msgfile := Some
                   {| msgFilePath :=
                        "media/temp/1700000001000_Asha_3EB0B2.txt";
                      msgFilename := "1700000001000_Asha_3EB0B2.txt";
                      msgFileTimeout := 1 |} |}
              {| filePath := "media/temp/1700000001000_3EB0B2.jpg";
                 filename := "1700000001000_3EB0B2.jpg"; timeout := 0;
                 mimetype := Some "image/jpeg";
                 sentTimestamp := 1700000000 |}
              "/9j/4AAQSkZJRg==" Hacc Hflt)
    as (H1 & H2 & H3 & H4 & _).
  - vm_compute. reflexivity.
  - reflexivity.
  - exact Hfile.
  - discriminate.
  - intros f [= <-]. split_and!; discriminate.
  - by split_and!.
Defined.

(** *** What the handlers leave of the clock, the ready time and the
    dedup set *)

Global Instance unmoved_preorder : PreOrder unmoved.
Proof.
  split; [done|]. intros w1 w2 w3 [H1 H2] [H3 H4]. split; congruence.
Qed.

Global Instance settled_preorder : PreOrder settled.
Proof.
  split; [done|]. intros w1 w2 w3 [H1 H2] [H3 H4].
  split; [by etransitivity | congruence].
Qed.

Lemma quiet_settled w w' : quiet w w' → settled w w'.
Proof.
  intros Hq. split; [split|];
    [apply (quiet_now _ _ Hq) | apply (quiet_ready _ _ Hq)
    | apply (quiet_revokes _ _ Hq)].
Qed.

Lemma still_settled w w' : still w w' → settled w w'.
Proof.
  intros Hs. split; [split|];
    [apply (still_now _ _ Hs) | apply (still_ready _ _ Hs)
    | apply (still_revokes _ _ Hs)].
Qed.

Lemma calm_settled {A} (m : M A) : calm m → respects settled m.
Proof. intros Hm w. apply quiet_settled, Hm. Qed.

Lemma respects_still_settled {A} (m : M A) :
  respects still m → respects settled m.
Proof. intros Hm w. apply still_settled, Hm. Qed.

Lemma settled_cacheMessage id data : respects settled (cacheMessage id data).
Proof. by intros w. Qed.

Section Settled.

Variable getIST : Z → string.

Lemma settled_on_message flt msg : respects settled (on_message getIST flt msg).
Proof.
  apply (respects_try_catch _); [|intros; apply (respects_ret _)].
  apply (respects_bind _); [apply (respects_await _)|]. intros chat.
  apply (respects_bind _); [apply (respects_await _)|]. intros contact.
  apply (respects_bind _); [apply (respects_get _)|]. intros w0.
  apply (respects_bind _).
  { apply calm_settled. destruct (msg_hasMedia msg);
      [apply safe_calm, safe_saveMediaToTemp | apply calm_ret]. }
  intros saved. apply (respects_bind _).
  { apply calm_settled. destruct (_ && _);
      [apply safe_calm, safe_viewOnceCapture | apply calm_ret]. }
  intros _. apply (respects_bind _).
  { apply respects_still_settled, still_appendLog. }
  intros _. apply (respects_bind _).
  { apply calm_settled, safe_calm, safe_saveMessageFile. }
  intros msgFilePath. apply settled_cacheMessage.
Qed.

Lemma settled_on_message_create msg :
  respects settled (on_message_create msg).
Proof.
  apply (respects_try_catch _); [|intros; apply (respects_ret _)].
  destruct (msg_fromMe msg); [apply (respects_ret _)|].
  apply (respects_bind _); [apply (respects_get _)|]. intros w0.
  destruct (cache_get _ _); [apply (respects_ret _)|].
  apply (respects_bind _); [apply (respects_await _)|]. intros chat.
  apply (respects_bind _); [apply (respects_await _)|]. intros contact.
  apply settled_cacheMessage.
Qed.

Lemma unmoved_on_message_revoke_everyone flt afterMsg beforeMsg :
  respects unmoved (on_message_revoke_everyone getIST flt afterMsg beforeMsg).
Proof.
  assert (Hs : ∀ A (m : M A), respects settled m → respects unmoved m).
  { intros A m Hm w. apply Hm. }
  unfold on_message_revoke_everyone.
  apply (respects_bind _); [apply (respects_get _)|]. intros w0.
  cbv beta zeta.
  destruct (_ <? _); [apply (respects_ret _)|].
  destruct (bool_decide (_ ∈ _)); [apply (respects_ret _)|].
  apply (respects_bind _); [by intros w1|]. intros _.
  apply (respects_bind _); [by intros w1|]. intros _.
  apply (respects_try_catch _).
  2:{ intros err. apply Hs, respects_still_settled,
        still_fallback_notification. }
  unfold reconcile.
  apply (respects_bind _); [apply (respects_get _)|]. intros w1.
  cbv beta zeta.
  apply (respects_bind _); [apply Hs, calm_settled, calm_promoteTracked|].
  intros mediaRef.
  apply (respects_bind _);
    [apply Hs, respects_still_settled, still_promoteCachedFile|]. intros _.
  apply (respects_bind _); [apply Hs, respects_still_settled, still_appendLog|].
  intros _.
  apply (respects_bind _);
    [apply Hs, respects_still_settled, still_saveDeletedRecord|]. intros _.
  apply (respects_bind _);
    [apply Hs, respects_still_settled, still_sendPushNotification|].
  intros _.
  apply (respects_bind _);
    [apply Hs, respects_still_settled, still_sendDeletedMedia|]. intros _.
  intros w2. unfold modify, cleanup. simpl. by destruct (mediaTracker w1 !! _).
Qed.

(** Only the [ready] handler moves the ready time, and it sets it to the
    time of its handling; no handler moves the clock. *)
Lemma handler_ready_time flt e w :
  let w' := exec (handler getIST flt e) w in
  now w' = now w
  ∧ readyTimestamp w'
    = match e with Ready => now w | _ => readyTimestamp w end.
Proof.
  destruct e as [|msg|msg|afterMsg beforeMsg]; simpl.
  - done.
  - by destruct (settled_on_message flt msg w) as [[? ?] _].
  - by destruct (settled_on_message_create msg w) as [[? ?] _].
  - by destruct (unmoved_on_message_revoke_everyone flt afterMsg beforeMsg w).
Qed.

(** *** The grace period, along a run *)

Lemma ready_time_run T0 trace w :
  T0 ≤ readyTimestamp w → T0 ≤ now w →
  T0 ≤ readyTimestamp (run getIST trace w) ∧ T0 ≤ now (run getIST trace w).
Proof.
  revert w. induction trace as [|o trace IH]; intros w Hr Hn; [done|].
  simpl. apply IH; unfold step;
    destruct (handler_ready_time (o_faults o) (o_event o)
                (advance (o_timer_faults o) (o_time o) w)) as [Hnow Hready];
    rewrite ?Hnow, ?Hready, ?now_advance.
  - destruct (o_event o); rewrite ?readyTimestamp_advance, ?now_advance; lia.
  - lia.
Qed.

(** Property X19.  While the clock is less than [STARTUP_GRACE_MS] past the
    handling of a [ready] event, every revoke event is discarded and leaves
    the world as it is, whatever was handled since. *)
Theorem grace_window_after_ready (flt0 : faults) (w0 : world)
    (later : list occurrence) (tf : nat → bool) (t : Z) (flt : faults)
    (afterMsg : message) (beforeMsg : option message) :
  let w1 := advance tf t
              (run getIST later (exec (on_ready getIST flt0) w0)) in
  now w1 < now w0 + STARTUP_GRACE_MS →
  on_message_revoke_everyone getIST flt afterMsg beforeMsg w1
  = (Returned tt, w1).
Proof.
  intros w1 Hbefore. apply on_message_revoke_everyone_grace.
  destruct (ready_time_run (now w0) later (exec (on_ready getIST flt0) w0))
    as [Hr _]; [done..|].
  unfold w1 in *. rewrite readyTimestamp_advance. lia.
Qed.

End Settled.

Lemma grace_window_after_ready_witness :
  let w1 := advance (λ _, false) 1700000020000
              (run sample_getIST
                 [occurs 1700000001000 no_faults (Message text_message)]
                 (exec (on_ready sample_getIST no_faults)
                    (initial 1700000000000))) in
  on_message_revoke_everyone sample_getIST no_faults stripped_reference None
    w1
  = (Returned tt, w1).
Proof.
  intros w1.
  apply (grace_window_after_ready sample_getIST no_faults
           (initial 1700000000000)
           [occurs 1700000001000 no_faults (Message text_message)]
           (λ _, false) 1700000020000 no_faults stripped_reference None).
  vm_compute. reflexivity.
Defined.

(** *** The dedup set drains *)

Section Draining.

Variable getIST : Z → string.

Lemma processedRevokes_revoke flt afterMsg beforeMsg w id :
  id ∈ processedRevokes
         (exec (on_message_revoke_everyone getIST flt afterMsg beforeMsg) w) →
  id ∈ processedRevokes w ∨ (id = msg_id afterMsg ∧ accepted afterMsg w).
Proof.
  unfold exec.
  destruct (Z.ltb_spec (now w - readyTimestamp w) STARTUP_GRACE_MS)
    as [Hgrace|Hgrace].
  { rewrite on_message_revoke_everyone_grace by done. by left. }
  destruct (decide (msg_id afterMsg ∈ processedRevokes w)) as [Hdup|Hnew].
  { rewrite on_message_revoke_everyone_duplicate by done. by left. }
  rewrite on_message_revoke_everyone_accepted by done.
  set (wm := marked (msg_id afterMsg) w).
  pose proof (sheds_reconcile getIST flt afterMsg beforeMsg wm) as Hsh.
  unfold try_catch.
  destruct (reconcile getIST flt afterMsg beforeMsg wm) as [[[]|err] w1].
  - simpl in *. rewrite (sheds_revokes _ _ _ Hsh). simpl.
    rewrite elem_of_union, elem_of_singleton. intros [->|?]; [by right | by left].
  - simpl in Hsh.
    rewrite (still_revokes _ _ (still_fallback_notification flt err w1)).
    rewrite (sheds_revokes _ _ _ Hsh). simpl.
    rewrite elem_of_union, elem_of_singleton. intros [->|?]; [by right | by left].
Qed.

Lemma draining_advance tf t w : draining w → draining (advance tf t w).
Proof.
  intros [Hcoh Hall]. split; [by apply coherent_advance|].
  intros id Hin.
  assert (Hw : id ∈ processedRevokes w).
  { rewrite processedRevokes_advance in Hin.
    by eapply processedRevokes_fire_due_sub. }
  destruct (Hall id Hw) as (T & HT & Hg).
  destruct (Z.le_gt_cases T t) as [Hdue|Hlater].
  - by destruct (guarding_expired id T tf t w Hdue Hg).
  - exists T. split; [rewrite now_advance; lia|].
    apply guarding_advance; [lia | done].
Qed.

Lemma draining_handler flt e w :
  draining w → draining (exec (handler getIST flt e) w).
Proof.
  intros [Hcoh Hall].
  pose proof (steady_handler getIST flt e w) as Hsteady.
  destruct (handler_ready_time getIST flt e w) as [Hnow _].
  fold (exec (handler getIST flt e) w) in Hsteady.
  split; [by apply Hsteady|].
  intros id Hin.
  assert (Hold : id ∈ processedRevokes w →
    ∃ T, T ≤ now (exec (handler getIST flt e) w) + REVOKE_DEDUP_TTL_MS
         ∧ guarding id T (exec (handler getIST flt e) w)).
  { intros Hw. destruct (Hall id Hw) as (T & HT & Hg). exists T.
    split; [by rewrite Hnow|]. by eapply guarding_steady. }
  destruct e as [|msg|msg|afterMsg beforeMsg]; simpl in *.
  - by apply Hold.
  - apply Hold. by rewrite <-(proj2 (settled_on_message getIST flt msg w)).
  - apply Hold. by rewrite <-(proj2 (settled_on_message_create msg w)).
  - apply processedRevokes_revoke in Hin as [Hw|[-> Hacc]]; [by apply Hold|].
    exists (now w + REVOKE_DEDUP_TTL_MS). split; [rewrite Hnow; lia|].
    by apply guarding_accepted.
Qed.

Lemma draining_run trace w : draining w → draining (run getIST trace w).
Proof.
  revert w. induction trace as [|o trace IH]; intros w Hw; [done|].
  simpl. apply IH. unfold step. by apply draining_handler, draining_advance.
Qed.

Lemma draining_initial t0 : draining (initial t0).
Proof.
  split; [apply coherent_initial|]. intros id Hin.
  by apply elem_of_empty in Hin.
Qed.

(** Property X20.  In every world the event loop reaches, each id of the dedup
    set has its removal pending and due within [REVOKE_DEDUP_TTL_MS]: once
    that much time has passed without an event, the set is empty. *)
Theorem dedup_set_drains (t0 : Z) (trace : list occurrence)
    (tf : nat → bool) (t : Z) :
  let w := run getIST trace (initial t0) in
  (∀ id, id ∈ processedRevokes w →
         ∃ tm, tm ∈ timers w ∧ tm_action tm = ExpireRevoke id
               ∧ tm_due tm ≤ now w + REVOKE_DEDUP_TTL_MS)
  ∧ (now w + REVOKE_DEDUP_TTL_MS ≤ t →
     processedRevokes (advance tf t w) = ∅).
Proof.
  intros w.
  destruct (draining_run trace (initial t0) (draining_initial t0))
    as [Hcoh Hall]. fold w in Hcoh, Hall.
  split.
  - intros id Hin. destruct (Hall id Hin) as (T & HT & [_ _ (tm & ? & ? & ?)]).
    exists tm. split_and!; [done..|lia].
  - intros Ht. apply elem_of_equiv_empty_L. intros id Hin.
    assert (Hw : id ∈ processedRevokes w).
    { rewrite processedRevokes_advance in Hin.
      by eapply processedRevokes_fire_due_sub. }
    destruct (Hall id Hw) as (T & HT & Hg).
    apply (guarding_expired id T tf t w); [lia | done | done].
Qed.

End Draining.

Lemma dedup_set_drains_witness :
  let w := run sample_getIST
             [occurs 1700000000500 no_faults Ready;
              occurs 1700000001000 no_faults (Message text_message);
              occurs 1700000090000 no_faults
                (RevokeEveryone stripped_reference None)]
             (initial 1700000000000) in
  "m2" ∈ processedRevokes w
  ∧ processedRevokes (advance (λ _, false) 1700000150000 w) = ∅.
Proof.
  intros w. split.
  - vm_compute. reflexivity.
  - apply (proj2 (dedup_set_drains sample_getIST 1700000000000
                    [occurs 1700000000500 no_faults Ready;
                     occurs 1700000001000 no_faults (Message text_message);
                     occurs 1700000090000 no_faults
                       (RevokeEveryone stripped_reference None)]
                    (λ _, false) 1700000150000)).
    vm_compute. discriminate.
Defined.

(** *** Saved files are never removed *)

Lemma temp_saved_disjoint p : is_temp p → is_saved p → False.
Proof. intros [a ->] [b Hb]. by apply temp_not_saved in Hb. Qed.







Section Kept.



Lemma kept_weaken {A} (m : M A) (Q Q' : A → Prop) :
  kept m Q → (∀ a, Q a → Q' a) → kept m Q'.
Proof.
  intros Hm HQ w Hw. destruct (Hm w Hw) as (? & ? & Hr).
  split_and!; [done..|]. intros a Ha. by apply HQ, Hr.
Qed.
























End Kept.




Section KeptHandlers.

Variable getIST : Z → string.

















End KeptHandlers.


(** *** The start-up sweep *)

Lemma swept_refl t l w : swept t l w w.
Proof.
  split; [reflexivity | done |].
  intros p [c Hc] Hn. congruence.
Qed.

Lemma swept_cons t file l w w' : swept t l w w' → swept t (file :: l) w w'.
Proof.
  intros [H1 H2 H3]. split; [done..|].
  intros p Hp Hn. destruct (H3 p Hp Hn) as (f & ? & ? & ?).
  exists f. split_and!; [by right | done..].
Qed.

Lemma swept_trans t l w1 w2 w3 :
  swept t l w1 w2 → swept t l w2 w3 → swept t l w1 w3.
Proof.
  intros [A1 A2 A3] [B1 B2 B3]. split.
  - by etransitivity.
  - intros p c Hc. by apply A2, B2.
  - intros p Hp Hn. destruct (files w2 !! p) as [c|] eqn:E.
    + apply B3; [by eexists | done].
    + by apply A3.
Qed.

Lemma swept_unlink t file l w :
  expired t file →
  swept t (file :: l) w
    (set_out (out w ++ [EFsUnlink (path_join TEMP_MEDIA_DIR (de_name file))])
       (set_files
          (delete (path_join TEMP_MEDIA_DIR (de_name file)) (files w)) w)).
Proof.
  intros Hexp. split; [done| |].
  - intros p c. simpl. by intros [_ ?]%lookup_delete_Some.
  - intros p Hp. simpl. intros Hn. exists file. split_and!; [left| |done].
    apply lookup_delete_None in Hn as [<-|Hn]; [done|].
    destruct Hp as [c Hc]. congruence.
Qed.

Lemma sweep_swept unlink_fails t tempFiles w :
  swept t tempFiles w (sweep unlink_fails t tempFiles w).2.
Proof.
  revert w. induction tempFiles as [|file rest IH]; intros w; simpl.
  { apply swept_refl. }
  destruct (de_mtimeMs file) as [mtimeMs|] eqn:Hstat; simpl;
    [|apply swept_refl].
  unfold bind at 1. unfold ret at 1. unfold bind at 1.
  destruct (Z.ltb_spec DELETE_WINDOW_MS (t - mtimeMs)) as [Hold|Hyoung].
  - unfold unlinkSync, bind at 1, get at 1.
    destruct (files w !! path_join TEMP_MEDIA_DIR (de_name file));
      [|apply swept_refl].
    destruct (unlink_fails _); [apply swept_refl|].
    unfold bind, modify, emit. simpl.
    eapply swept_trans; [apply swept_unlink; by exists mtimeMs|].
    apply swept_cons, IH.
  - unfold ret at 1. apply swept_cons, IH.
Qed.

Lemma startupCleanup_swept unlink_fails readdir w :
  (startupCleanup unlink_fails readdir w).1 = Returned tt
  ∧ swept (now w) (default [] readdir) w
      (exec (startupCleanup unlink_fails readdir) w).
Proof.
  unfold exec, startupCleanup, try_catch, bind, get.
  destruct readdir as [tempFiles|]; simpl; [|split; [done|apply swept_refl]].
  pose proof (sweep_swept unlink_fails (now w) tempFiles w) as Hs.
  destruct (sweep unlink_fails (now w) tempFiles w) as [[[]|e] w1];
    simpl in *; by split.
Qed.

(** Property X22.  The start-up sweep never throws; it touches nothing but
    files, and every file it removes is a listed file under [media/temp] whose
    age exceeds the retention window: a file exactly 68 hours old is kept, and
    so is every file under [media/saved]. *)
Theorem startupCleanup_removes_only_expired
    (unlink_fails : string → bool) (readdir : option (list dir_entry))
    (w : world) :
  let w' := exec (startupCleanup unlink_fails readdir) w in
  throws (startupCleanup unlink_fails readdir) w = false
  ∧ swept (now w) (default [] readdir) w w'
  ∧ keeps_saved w w'.
Proof.
  intros w'.
  destruct (startupCleanup_swept unlink_fails readdir w) as [Hr Hs].
  fold w' in Hs. split_and!; [|done|].
  - unfold throws. by rewrite Hr.
  - intros p Hp [c Hc].
    destruct (files w' !! p) as [c'|] eqn:E; [by eexists|].
    destruct (swept_removed _ _ _ _ Hs p) as (file & _ & -> & _);
      [by eexists | done |].
    exfalso. eapply temp_saved_disjoint; [|exact Hp]. by eexists.
Qed.

Lemma sweep_cons_expired unlink_fails t file rest mtimeMs c w :
  de_mtimeMs file = Some mtimeMs → DELETE_WINDOW_MS < t - mtimeMs →
  files w !! path_join TEMP_MEDIA_DIR (de_name file) = Some c →
  unlink_fails (path_join TEMP_MEDIA_DIR (de_name file)) = false →
  sweep unlink_fails t (file :: rest) w
  = sweep unlink_fails t rest
      (set_out
         (out w ++ [EFsUnlink (path_join TEMP_MEDIA_DIR (de_name file))])
         (set_files
            (delete (path_join TEMP_MEDIA_DIR (de_name file)) (files w)) w)).
Proof.
  intros Hstat Hold Hc Hok. simpl. rewrite Hstat. simpl.
  apply Z.ltb_lt in Hold.
  unfold bind at 1. unfold ret at 1. unfold bind at 1. rewrite Hold.
  unfold unlinkSync, bind at 1, get at 1. rewrite Hc, Hok. reflexivity.
Qed.

Lemma sweep_cons_young unlink_fails t file rest mtimeMs w :
  de_mtimeMs file = Some mtimeMs → t - mtimeMs ≤ DELETE_WINDOW_MS →
  sweep unlink_fails t (file :: rest) w = sweep unlink_fails t rest w.
Proof.
  intros Hstat Hyoung. simpl. rewrite Hstat. simpl.
  apply Z.ltb_ge in Hyoung.
  unfold bind at 1. unfold ret at 1. unfold bind at 1. by rewrite Hyoung.
Qed.

Lemma sweep_complete unlink_fails t tempFiles w :
  NoDup (de_name <$> tempFiles) →
  (∀ file, file ∈ tempFiles →
     is_Some (de_mtimeMs file)
     ∧ is_Some (files w !! path_join TEMP_MEDIA_DIR (de_name file))
     ∧ unlink_fails (path_join TEMP_MEDIA_DIR (de_name file)) = false) →
  (sweep unlink_fails t tempFiles w).1 = Returned tt
  ∧ ∀ file, file ∈ tempFiles → expired t file →
      files (sweep unlink_fails t tempFiles w).2
      !! path_join TEMP_MEDIA_DIR (de_name file) = None.
Proof.
  revert w. induction tempFiles as [|file rest IH]; intros w Hnd Hall.
  { split; [done|]. by intros f ?%elem_of_nil. }
  csimpl in Hnd. apply NoDup_cons in Hnd as [Hfresh Hnd].
  destruct (Hall file) as ([mtimeMs Hstat] & [c Hc] & Hok); [left|].
  assert (Hrest : ∀ w1,
    (∀ p, p ≠ path_join TEMP_MEDIA_DIR (de_name file) →
          files w1 !! p = files w !! p) →
    ∀ f, f ∈ rest →
      is_Some (de_mtimeMs f)
      ∧ is_Some (files w1 !! path_join TEMP_MEDIA_DIR (de_name f))
      ∧ unlink_fails (path_join TEMP_MEDIA_DIR (de_name f)) = false).
  { intros w1 Hw1 f Hf. destruct (Hall f) as (? & ? & ?); [by right|].
    split_and!; [done| |done]. rewrite Hw1; [done|].
    intros Heq%path_join_inj. apply Hfresh. rewrite <-Heq.
    apply list_elem_of_fmap. by exists f. }
  destruct (Z.lt_ge_cases DELETE_WINDOW_MS (t - mtimeMs)) as [Hold|Hyoung].
  - rewrite (sweep_cons_expired _ _ _ _ _ _ _ Hstat Hold Hc Hok).
    set (w1 := set_out _ _).
    destruct (IH w1 Hnd) as [Hr Hgone].
    { apply Hrest. intros p Hp. unfold w1. simpl. by rewrite lookup_delete_ne. }
    split; [done|].
    intros f [->|Hf]%elem_of_cons Hexp; [|by apply Hgone].
    destruct (files (sweep unlink_fails t rest w1).2
              !! path_join TEMP_MEDIA_DIR (de_name file)) as [c'|] eqn:E;
      [|done].
    apply (swept_sub _ _ _ _ (sweep_swept unlink_fails t rest w1)) in E.
    unfold w1 in E. simpl in E. by rewrite lookup_delete_eq in E.
  - rewrite (sweep_cons_young _ _ _ _ _ _ Hstat Hyoung).
    destruct (IH w Hnd) as [Hr Hgone]; [by apply Hrest|].
    split; [done|].
    intros f [->|Hf]%elem_of_cons Hexp; [|by apply Hgone].
    destruct Hexp as (m & Hm & Hlt). rewrite Hstat in Hm.
    injection Hm as <-. lia.
Qed.

(** Property X23.  When the listing is read, every listed file has a
    modification time and is on disk, no name is listed twice and no unlink
    fails, the sweep removes every listed file older than the window and
    leaves the others. *)
Theorem startupCleanup_removes_all_expired
    (unlink_fails : string → bool) (tempFiles : list dir_entry) (w : world) :
  NoDup (de_name <$> tempFiles) →
  (∀ file, file ∈ tempFiles →
     is_Some (de_mtimeMs file)
     ∧ is_Some (files w !! path_join TEMP_MEDIA_DIR (de_name file))
     ∧ unlink_fails (path_join TEMP_MEDIA_DIR (de_name file)) = false) →
  let w' := exec (startupCleanup unlink_fails (Some tempFiles)) w in
  ∀ file, file ∈ tempFiles →
    (expired (now w) file →
     files w' !! path_join TEMP_MEDIA_DIR (de_name file) = None)
    ∧ (¬ expired (now w) file →
       files w' !! path_join TEMP_MEDIA_DIR (de_name file)
       = files w !! path_join TEMP_MEDIA_DIR (de_name file)).
Proof.
  intros Hnd Hall w' file Hfile.
  destruct (sweep_complete unlink_fails (now w) tempFiles w Hnd Hall)
    as [Hr Hgone].
  assert (Hw' : w' = (sweep unlink_fails (now w) tempFiles w).2).
  { unfold w', exec, startupCleanup, try_catch, bind, get. simpl.
    by destruct (sweep unlink_fails (now w) tempFiles w) as [[[]|e] w1]. }
  split.
  - intros Hexp. rewrite Hw'. by apply Hgone.
  - intros Hnot.
    destruct (startupCleanup_swept unlink_fails (Some tempFiles) w)
      as [_ Hs]. fold w' in Hs. simpl in Hs.
    destruct (Hall file Hfile) as (_ & [c Hc] & _).
    destruct (files w' !! path_join TEMP_MEDIA_DIR (de_name file))
      as [c'|] eqn:E.
    + apply (swept_sub _ _ _ _ Hs) in E. congruence.
    + destruct (swept_removed _ _ _ _ Hs _ (ex_intro _ c Hc) E)
        as (f & Hf & Heq%path_join_inj & Hexp).
      assert (f = file) as ->; [|done].
      revert Hnd Hf Hfile Heq. clear. induction tempFiles as [|x l IH]; csimpl.
      { by intros _ ?%elem_of_nil. }
      intros [Hx Hl]%NoDup_cons [->|Hf]%elem_of_cons [->|Hfile]%elem_of_cons Heq;
        [done| | |by apply IH].
      * destruct Hx. rewrite <-Heq. apply list_elem_of_fmap. by exists file.
      * destruct Hx. rewrite Heq. apply list_elem_of_fmap. by exists f.
Qed.

Lemma startupCleanup_removes_all_expired_witness :
  let listing :=
    [ {| de_name := "1700000001000_3EB0B2.jpg";
         de_mtimeMs := Some 1700000001000 |};
      {| de_name := "1700000001000_Asha_3EB0B2.txt";
         de_mtimeMs := Some 1700000001000 |} ] in
  let w := set_now (1700000001000 + DELETE_WINDOW_MS + 1) world_with_m1 in
  let w' := exec (startupCleanup (λ _, false) (Some listing)) w in
  files w' !! "media/temp/1700000001000_3EB0B2.jpg" = None
  ∧ files w' !! "media/temp/1700000001000_Asha_3EB0B2.txt" = None.
Proof.
  intros listing w w'.
  assert (Hall : ∀ file, file ∈ listing →
    is_Some (de_mtimeMs file)
    ∧ is_Some (files w !! path_join TEMP_MEDIA_DIR (de_name file))
    ∧ (λ _ : string, false) (path_join TEMP_MEDIA_DIR (de_name file)) = false).
  { intros file [->|[->|H]%elem_of_cons]%elem_of_cons;
      [| |by apply elem_of_nil in H];
      (split_and!; [by eexists | vm_compute; by eexists | done]). }
  assert (Hnd : NoDup (de_name <$> listing)).
  { apply NoDup_cons. split; [|apply NoDup_singleton].
    intros [= H]%list_elem_of_singleton. }
  assert (Hexp : ∀ file, file ∈ listing → expired (now w) file).
  { intros file [->|[->|H]%elem_of_cons]%elem_of_cons;
      [| |by apply elem_of_nil in H];
      (eexists; split; [reflexivity | vm_compute; reflexivity]). }
  split.
  - apply (proj1 (startupCleanup_removes_all_expired (λ _, false) listing w
                    Hnd Hall _ (list_elem_of_here _ _))).
    apply Hexp. left.
  - apply (proj1 (startupCleanup_removes_all_expired (λ _, false) listing w
                    Hnd Hall _ (list_elem_of_further _ _ _ (list_elem_of_here _ _)))).
    apply Hexp. right. left.
Defined.

(** *** Telegram commands *)

Section CommandFacts.

Variables (getIST : Z → string) (TELEGRAM_CHAT_ID : string)
  (trim : string → string).

Implicit Types (handleReauth : update → client_state → client_state)
  (flt : update → faults).

Lemma next_offset_snoc result u offset :
  next_offset (result ++ [u]) offset = update_id u + 1.
Proof. unfold next_offset. by rewrite last_snoc. Qed.

Lemma dispatch_unauthorized handleReauth flt s u :
  authorized TELEGRAM_CHAT_ID u = false →
  dispatch getIST TELEGRAM_CHAT_ID trim handleReauth flt s u
  = set_telegramUpdateOffset (update_id u + 1) s.
Proof. unfold authorized, dispatch. by intros ->. Qed.

Lemma dispatch_offset handleReauth flt s u :
  telegramUpdateOffset
    (dispatch getIST TELEGRAM_CHAT_ID trim handleReauth flt s u)
  = update_id u + 1.
Proof.
  unfold dispatch. destruct (negb _); [done|].
  destruct (strict_eq _ "/rebuild"); [done|].
  by destruct (strict_eq _ "/status").
Qed.

Lemma dispatch_client handleReauth flt s s' u :
  ps_client s = ps_client s' →
  ps_client (dispatch getIST TELEGRAM_CHAT_ID trim handleReauth flt s u)
  = ps_client (dispatch getIST TELEGRAM_CHAT_ID trim handleReauth flt s' u).
Proof.
  intros Hc. unfold dispatch. destruct (negb _); [done|].
  destruct (strict_eq _ "/rebuild"); simpl; [by rewrite Hc|].
  destruct (strict_eq _ "/status"); simpl; by rewrite Hc.
Qed.

Lemma foldl_dispatch_offset handleReauth flt result s :
  telegramUpdateOffset
    (foldl (dispatch getIST TELEGRAM_CHAT_ID trim handleReauth flt) s result)
  = next_offset result (telegramUpdateOffset s).
Proof.
  induction result as [|u result IH] using rev_ind; [done|].
  by rewrite foldl_snoc, dispatch_offset, next_offset_snoc.
Qed.

Lemma foldl_dispatch_filter handleReauth flt result s s' :
  ps_client s = ps_client s' →
  ps_client
    (foldl (dispatch getIST TELEGRAM_CHAT_ID trim handleReauth flt) s result)
  = ps_client
      (foldl (dispatch getIST TELEGRAM_CHAT_ID trim handleReauth flt) s'
         (List.filter (authorized TELEGRAM_CHAT_ID) result)).
Proof.
  revert s s'. induction result as [|u result IH]; intros s s' Hc; [done|].
  simpl. destruct (authorized TELEGRAM_CHAT_ID u) eqn:Hu; simpl.
  - apply IH. by apply dispatch_client.
  - apply IH. by rewrite dispatch_unauthorized.
Qed.

(** Property X24.  Updates from chats other than [TELEGRAM_CHAT_ID] have no
    influence on the world or on the client: a turn of the poller leaves them
    as the same turn does on the batch without these updates.  After a turn
    that read a batch, the offset is one more than the id of the last update
    of the batch, authorized or not. *)
Theorem unauthorized_updates_are_ignored handleReauth flt
    (ok : bool) (result : list update) (s : poll_state) :
  let turn :=
    pollTelegramCommands_turn getIST TELEGRAM_CHAT_ID trim handleReauth flt in
  ps_client (turn (Some (ok, result)) s)
  = ps_client
      (turn (Some (ok, List.filter (authorized TELEGRAM_CHAT_ID) result)) s)
  ∧ telegramUpdateOffset (turn (Some (true, result)) s)
    = next_offset result (telegramUpdateOffset s)
  ∧ turn None s = s ∧ turn (Some (false, result)) s = s.
Proof.
  intros turn. unfold turn, pollTelegramCommands_turn. split_and!; [| |done..].
  - destruct ok; [|done].
    assert (Hfold : ∀ l,
      (if (0 <? length l)%nat
       then foldl (dispatch getIST TELEGRAM_CHAT_ID trim handleReauth flt) s l
       else s)
      = foldl (dispatch getIST TELEGRAM_CHAT_ID trim handleReauth flt) s l)
      by (by intros [|? ?]).
    rewrite !Hfold. by apply foldl_dispatch_filter.
  - destruct result as [|u result]; [done|].
    change (0 <? length (u :: result))%nat with true. cbv iota.
    apply foldl_dispatch_offset.
Qed.



End CommandFacts.

